(** * RunnableAgent: the tool-calling agent loop of [langchain/src/runnable-history.ts]

    A shallow embedding of the class [RunnableAgent] and of the parts of the
    message model it touches, followed by the properties of the loop.

    Conventions of the embedding.
    - JavaScript objects that are shared and mutated (messages) live in a
      [heap]; arrays of messages are lists of references into it, so that a
      snapshot, the session history and the caller's history can hold the same
      object.
    - The instance field [_callsLeft] and the content of the optional history
      store are part of the [World] that every method threads.
    - [maxToolCalls] is an integer; a number with a fraction is not modelled.
    - Strings are sequences of code units below 256. A JSON number is an
      integer that [JSON.stringify] prints in full (of magnitude below
      10^21); the keys of an object are distinct and none of them is an
      array index.
    - The language model, the tools and the chunk merge
      [AIMessageChunk.concat] are capabilities supplied from outside: the
      model is a function from the messages (and the number of earlier calls)
      to a finite list of fragments, a tool is a function of its arguments,
      and the merge is any function, the properties being proved for all of
      them.
    - [getMessages()] of the history store hands over either the store's own
      array, which grows when the store is added to (the in-memory store), or
      a copy; [_transformStreamWithConfig] passes on what the generator yields
      and nothing else; the tracing callbacks are left out.
    - [while (true)] is run with fuel; a property that says the loop ends
      gives the fuel that is enough.
    - The first part takes what a tool returns or raises to be a JSON value
      and the stream of the model to end. The module [Full] holds the
      dispatcher and the loop without these restrictions: values on which
      [JSON.stringify] throws, callbacks and steps of a map that settle in an
      order of their own, [Promise.all] being rejected, and a stream of the
      model that fails. [stream_lift] shows that the two agree where both
      apply. *)

From stdpp Require Import base list strings pretty.
From Stdlib Require Import ZArith Ascii.

Open Scope Z_scope.
Set Warnings "-register-all".

(** ** JSON values and [JSON.stringify] *)

Inductive JSON :=
| JNull
| JBool (b : bool)
| JNum (n : Z)
| JStr (s : string)
| JArr (items : list JSON)
| JObj (fields : list (string * JSON)).

Definition dquote : ascii := "034"%char.
Definition backslash : ascii := "092"%char.

Definition hex_digit (n : nat) : ascii :=
  match n with
  | 0%nat => "0" | 1%nat => "1" | 2%nat => "2" | 3%nat => "3"
  | 4%nat => "4" | 5%nat => "5" | 6%nat => "6" | 7%nat => "7"
  | 8%nat => "8" | 9%nat => "9" | 10%nat => "a" | 11%nat => "b"
  | 12%nat => "c" | 13%nat => "d" | 14%nat => "e" | _ => "f"
  end%char.

(** The escape of one code unit inside a JSON string literal. *)
Definition escape_char (c : ascii) : string :=
  let n := nat_of_ascii c in
  if (n =? 34)%nat then String backslash (String dquote EmptyString)
  else if (n =? 92)%nat then String backslash (String backslash EmptyString)
  else if (n =? 8)%nat then String backslash "b"
  else if (n =? 9)%nat then String backslash "t"
  else if (n =? 10)%nat then String backslash "n"
  else if (n =? 12)%nat then String backslash "f"
  else if (n =? 13)%nat then String backslash "r"
  else if (n <? 32)%nat then
    String backslash
      (String "u" (String "0" (String "0"
         (String (hex_digit (n / 16)) (String (hex_digit (n mod 16)) EmptyString)))))
  else String c EmptyString.

Fixpoint escape (s : string) : string :=
  match s with
  | EmptyString => EmptyString
  | String c rest => escape_char c +:+ escape rest
  end.

Definition quote (s : string) : string :=
  String dquote (escape s +:+ String dquote EmptyString).

Fixpoint JSON_stringify (v : JSON) : string :=
  match v with
  | JNull => "null"
  | JBool true => "true"
  | JBool false => "false"
  | JNum n => pretty n
  | JStr s => quote s
  | JArr items =>
      let fix go (l : list JSON) : string :=
        match l with
        | [] => EmptyString
        | [x] => JSON_stringify x
        | x :: rest => JSON_stringify x +:+ "," +:+ go rest
        end in
      "[" +:+ go items +:+ "]"
  | JObj fields =>
      let fix go (l : list (string * JSON)) : string :=
        match l with
        | [] => EmptyString
        | [(k, x)] => quote k +:+ ":" +:+ JSON_stringify x
        | (k, x) :: rest => quote k +:+ ":" +:+ JSON_stringify x +:+ "," +:+ go rest
        end in
      "{" +:+ go fields +:+ "}"
  end.

(** ** Message model *)

(** A content block [{type, text?, ...}]; [cb_text] is read only when
    [cb_type] is ["text"]. *)
Record ContentBlock := mkBlock { cb_type : string; cb_text : string }.

Inductive MessageContent :=
| ContentString (s : string)
| ContentBlocks (blocks : list ContentBlock).

(** [ToolCall]: [{id?, name, args}]. *)
Record ToolCall := mkToolCall {
  tc_id : option string;
  tc_name : string;
  tc_args : JSON
}.

Inductive Status := success | error.

Inductive BaseMessage :=
| HumanMessage (content : MessageContent)
| AIMessage (content : MessageContent) (tool_calls : list ToolCall)
| ToolMessage (content : string) (name : string) (tool_call_id : string) (status : Status)
| OtherMessage (kind : string) (content : MessageContent).

(** [AIMessageChunk]: the fields of an AI message that the loop reads. *)
Record AIMessageChunk := mkChunk {
  chunk_content : MessageContent;
  chunk_tool_calls : list ToolCall
}.

(** [AIMessageChunk.prototype.concat], a library method. *)
Class ChunkMerge := concat : AIMessageChunk → AIMessageChunk → AIMessageChunk.

Definition as_message (c : AIMessageChunk) : BaseMessage :=
  AIMessage (chunk_content c) (chunk_tool_calls c).

(** [x?.length] used as a condition. *)
Definition has_length {A} (l : list A) : bool :=
  match l with [] => false | _ => true end.

(** ** Tools *)

(** What a [throw] carries: an [Error] with its message, or any other value,
    here a JSON value ([Full.Raised] has the others). *)
Inductive Thrown :=
| ThrownError (message : string)
| ThrownValue (v : JSON).

(** The result of awaiting a call. *)
Inductive Settled :=
| Fulfilled (v : JSON)
| Rejected (e : Thrown).

(** [RunnableLike]: a runnable object, a plain function, or a map of named
    steps that [RunnableMap.from] turns into one runnable. *)
Inductive RunnableLike :=
| IsRunnable (invoke : JSON → Settled)
| IsFunction (call : JSON → Settled)
| IsMap (steps : list (string * (JSON → Settled))).

(** [RunnableMap.invoke]: every step receives the input; the results are
    collected under the steps' names, and a rejected step rejects the whole.
    The steps settle in the order in which they are written
    ([Full.RunnableMap_invoke] has the other orders). *)
Fixpoint RunnableMap_invoke (steps : list (string * (JSON → Settled))) (input : JSON)
  : Thrown + list (string * JSON) :=
  match steps with
  | [] => inr []
  | (k, f) :: rest =>
      match f input with
      | Rejected e => inl e
      | Fulfilled v =>
          match RunnableMap_invoke rest input with
          | inl e => inl e
          | inr vs => inr ((k, v) :: vs)
          end
      end
  end.

(** [AgentToolCall]: [schema] stands for [schema.parse]. *)
Record AgentToolCall := mkTool {
  schema : JSON → Settled;
  runnable : RunnableLike
}.

Record AgentToolCallOptions := mkToolOptions {
  name : string;
  description : string;
  tool : AgentToolCall
}.

(** What is handed to [bindTools] for one tool. *)
Record BindToolsInput := mkBind {
  bind_name : string;
  bind_description : string;
  bind_schema : JSON → Settled
}.

Inductive ToolChoice := any | auto.

(** A bound model: [stream(messages)] yields a finite sequence of fragments
    and ends ([Full.BoundLlm] has the streams that fail). The first argument
    is the number of calls the model has served so far, so that the same
    messages need not give the same answer twice. *)
Definition BoundLlm := nat → list BaseMessage → list AIMessageChunk.

(** [BaseChatModel]: [bindTools] is an optional method. *)
Record BaseChatModel := mkLlm {
  bindTools : option (list BindToolsInput → ToolChoice → BoundLlm)
}.

(** [RunnableAgentOptions]. The option [history] is an object with state: its
    content is part of the [World] below. *)
Record RunnableAgentOptions := mkOptions {
  llm : BaseChatModel;
  tools : list AgentToolCallOptions;
  tool_response : option AgentToolCallOptions;
  maxToolCalls : option Z
}.

(** ** The world of an agent *)

(** A reference to a message object: its position in the heap. *)
Abbreviation ref := nat.

(** What the dispatcher asks of the tools, in the order it asks. *)
Inductive ToolEffect :=
| SchemaParse (tool_name : string) (raw : JSON)
| Invoke (tool_name : string) (parsed : JSON).

(** The history store [options.history]: the messages it holds, and whether
    [getMessages()] hands over the store's own array or a copy of it. *)
Record HistoryStore := mkStore {
  stored : list ref;
  shares_array : bool
}.

Record World := mkWorld {
  heap : list BaseMessage;               (* the message objects *)
  _callsLeft : Z;                        (* this._callsLeft *)
  history : option HistoryStore;         (* this.options.history *)
  llm_log : list (list BaseMessage);     (* what the model was streamed with *)
  tool_log : list ToolEffect             (* what the tools were asked *)
}.

Definition set_heap (h : list BaseMessage) (w : World) : World :=
  mkWorld h (_callsLeft w) (history w) (llm_log w) (tool_log w).
Definition set_callsLeft (c : Z) (w : World) : World :=
  mkWorld (heap w) c (history w) (llm_log w) (tool_log w).
Definition set_history (hs : option HistoryStore) (w : World) : World :=
  mkWorld (heap w) (_callsLeft w) hs (llm_log w) (tool_log w).
Definition log_llm (input : list BaseMessage) (w : World) : World :=
  mkWorld (heap w) (_callsLeft w) (history w) (llm_log w ++ [input]) (tool_log w).
Definition log_tools (es : list ToolEffect) (w : World) : World :=
  mkWorld (heap w) (_callsLeft w) (history w) (llm_log w) (tool_log w ++ es).

(** [new X(...)]: the object is placed at the end of the heap. *)
Definition alloc (m : BaseMessage) (h : list BaseMessage) : ref * list BaseMessage :=
  (length h, h ++ [m]).

Fixpoint alloc_all (ms : list BaseMessage) (h : list BaseMessage)
  : list ref * list BaseMessage :=
  match ms with
  | [] => ([], h)
  | m :: rest =>
      let '(r, h1) := alloc m h in
      let '(rs, h2) := alloc_all rest h1 in
      (r :: rs, h2)
  end.

(** Reading the objects an array refers to. *)
Definition deref (h : list BaseMessage) (rs : list ref) : list BaseMessage :=
  omap (λ r, h !! r) rs.

(** [history?.addMessage(s)]. *)
Definition history_add (rs : list ref) (w : World) : World :=
  set_history ((λ store, mkStore (stored store ++ rs) (shares_array store)) <$> history w) w.

(** An array of messages held in a variable: an array of its own, or the
    array of the history store. *)
Inductive MessageArray :=
| OwnArray (items : list ref)
| StoreArray.

Definition read (a : MessageArray) (w : World) : list ref :=
  match a with
  | OwnArray items => items
  | StoreArray => match history w with Some store => stored store | None => [] end
  end.

(** [(await history?.getMessages()) ?? []]. *)
Definition getMessages (w : World) : MessageArray :=
  match history w with
  | Some store => if shares_array store then StoreArray else OwnArray (stored store)
  | None => OwnArray []
  end.

(** A result or a thrown [Error] with its message. *)
Inductive Result (A : Type) :=
| Ok (a : A)
| Throw (message : string).
Arguments Ok {A} a.
Arguments Throw {A} message.

(** ** RunnableAgent *)

(** [constructor]: [this._callsLeft = options.maxToolCalls ?? 10]. *)
Definition new_RunnableAgent (options : RunnableAgentOptions)
  (h : list BaseMessage) (store : option HistoryStore) : World :=
  mkWorld h (default 10 (maxToolCalls options)) store [] [].

(** *** [_cleanHistory] *)

(** Code units that [String.prototype.trim] strips. *)
Definition is_whitespace (c : ascii) : bool :=
  let n := nat_of_ascii c in
  (n =? 9)%nat || (n =? 10)%nat || (n =? 11)%nat || (n =? 12)%nat
  || (n =? 13)%nat || (n =? 32)%nat || (n =? 160)%nat.

Fixpoint trim_start (s : string) : string :=
  match s with
  | EmptyString => EmptyString
  | String c rest => if is_whitespace c then trim_start rest else s
  end.

Fixpoint trim_end (s : string) : string :=
  match s with
  | EmptyString => EmptyString
  | String c rest =>
      match trim_end rest with
      | EmptyString => if is_whitespace c then EmptyString else String c EmptyString
      | kept => String c kept
      end
  end.

Definition trim (s : string) : string := trim_end (trim_start s).

(** The predicate of the inner [filter]. *)
Definition keep_block (b : ContentBlock) : bool :=
  if decide (cb_type b = "text") then (0 <? String.length (trim (cb_text b)))%nat
  else true.

(** What the body of the outer [filter] does to one message object. *)
Definition clean_message (m : BaseMessage) : BaseMessage :=
  match m with
  | AIMessage (ContentBlocks blocks) tcs =>
      AIMessage (ContentBlocks (List.filter keep_block blocks)) tcs
  | _ => m
  end.

(** The outer [filter]: the callback rewrites the message object in place and
    answers [true]. *)
Fixpoint _cleanHistory (history : list ref) (h : list BaseMessage)
  : list ref * list BaseMessage :=
  match history with
  | [] => ([], h)
  | message :: rest =>
      let h1 := alter clean_message message h in
      let '(kept, h2) := _cleanHistory rest h1 in
      (if true then message :: kept else kept, h2)
  end.

(** *** [_createToolResponse] *)

Definition _createToolResponse (tool_call : ToolCall) (toolResponse : JSON)
  (status : Status) : BaseMessage :=
  ToolMessage (JSON_stringify toolResponse) (tc_name tool_call)
    (default "" (tc_id tool_call)) status.

(** *** [runToolCallingAgent] *)

(** The descriptors handed to [bindTools]: the tools, then the stop tool. *)
Definition bind_inputs (options : RunnableAgentOptions) : list BindToolsInput :=
  map (λ toolDef, mkBind (name toolDef) (description toolDef) (schema (tool toolDef)))
      (tools options)
  ++ match tool_response options with
     | Some stop => [mkBind (name stop) (description stop) (schema (tool stop))]
     | None => []
     end.

Definition budget_error : string := "Max tool calls reached".
Definition binding_error : string := "LLM does not support tool binding".

Definition runToolCallingAgent (options : RunnableAgentOptions) (input : list ref)
  (w : World) : Result (list AIMessageChunk) * World :=
  if decide (_callsLeft w = 0) then (Throw budget_error, w)
  else
    let w := set_callsLeft (_callsLeft w - 1) w in
    match bindTools (llm options) with
    | None => (Throw binding_error, w)
    | Some bind =>
        let boundLlm :=
          bind (bind_inputs options)
               (match tool_response options with Some _ => any | None => auto end) in
        let '(cleaned, h) := _cleanHistory input (heap w) in
        let messages := deref h cleaned in
        (Ok (boundLlm (length (llm_log w)) messages), log_llm messages (set_heap h w))
    end.

(** *** [runToolCallMessage] *)

Definition invoke_runnable (toolRunnable : RunnableLike) (parsed : JSON) : Settled :=
  match toolRunnable with
  | IsRunnable invoke => invoke parsed
  | IsFunction call => call parsed
  | IsMap steps =>
      match RunnableMap_invoke steps parsed with
      | inl e => Rejected e
      | inr results => Fulfilled (JObj results)
      end
  end.

Definition find_tool (options : RunnableAgentOptions) (tool_call : ToolCall)
  : option AgentToolCallOptions :=
  List.find (λ tool, bool_decide (name tool = tc_name tool_call))
    (tools options ++ match tool_response options with
                      | Some toolResponse => [toolResponse]
                      | None => []
                      end).

Definition not_found_text (tool_name : string) : string :=
  "Tool " +:+ String dquote (tool_name +:+ String dquote " was not found.").

(** [e instanceof Error ? { error: e.message } : e]. *)
Definition errorResponse (e : Thrown) : JSON :=
  match e with
  | ThrownError message => JObj [("error", JStr message)]
  | ThrownValue v => v
  end.

(** The callback mapped over [input.tool_calls]: the message it resolves to,
    and what it asked of the tool on the way. *)
Definition runToolCall (options : RunnableAgentOptions) (tool_call : ToolCall)
  : BaseMessage * list ToolEffect :=
  match find_tool options tool_call with
  | None =>
      (_createToolResponse tool_call
         (JObj [("type", JStr "text");
                ("text", JStr (JSON_stringify
                   (JObj [("success", JBool false);
                          ("error", JStr (not_found_text (tc_name tool_call)))])))])
         error,
       [])
  | Some findTool =>
      match schema (tool findTool) (tc_args tool_call) with
      | Rejected e =>
          (_createToolResponse tool_call (errorResponse e) error,
           [SchemaParse (name findTool) (tc_args tool_call)])
      | Fulfilled parsed =>
          match invoke_runnable (runnable (tool findTool)) parsed with
          | Rejected e =>
              (_createToolResponse tool_call (errorResponse e) error,
               [SchemaParse (name findTool) (tc_args tool_call);
                Invoke (name findTool) parsed])
          | Fulfilled result =>
              (_createToolResponse tool_call result success,
               [SchemaParse (name findTool) (tc_args tool_call);
                Invoke (name findTool) parsed])
          end
      end
  end.

(** [runToolCallMessage]: no callback is rejected here, so that
    [Promise.all] is fulfilled with the messages in the order of the calls,
    whatever the order in which the callbacks settle ([Full.Promise_all],
    [runToolCallMessage_lift]). *)
Definition runToolCallMessage (options : RunnableAgentOptions) (tool_calls : list ToolCall)
  : list BaseMessage * list ToolEffect :=
  let promises := map (runToolCall options) tool_calls in
  (map fst promises, List.concat (map snd promises)).

(** *** [_parseModelInputToBaseMessage] *)

(** A string, or messages that exist already (an array of messages, or a
    prompt value with its [toChatMessages()]). *)
Inductive BaseLanguageModelInput :=
| InputString (s : string)
| InputMessages (messages : list ref).

Definition _parseModelInputToBaseMessage (input : BaseLanguageModelInput)
  (h : list BaseMessage) : list ref * list BaseMessage :=
  match input with
  | InputString s =>
      let '(r, h1) := alloc (HumanMessage (ContentString s)) h in ([r], h1)
  | InputMessages messages => (messages, h)
  end.

(** *** [stream] *)

(** The variables of the inner [for await] loop. *)
Record Accumulator := mkAcc {
  agentResponse : AIMessageChunk;
  agentResponse_ref : ref;
  isToolCall : bool
}.

(** One iteration of [for await (const chunk of agentStream)]: the new state,
    what is yielded, and the heap with the merged chunk added. *)
Definition on_chunk {merge : ChunkMerge} (sessionMessages : list ref) (acc : Accumulator)
  (chunk : AIMessageChunk) (h : list BaseMessage)
  : Accumulator * list (list ref) * list BaseMessage :=
  let response := concat (agentResponse acc) chunk in
  let '(r, h1) := alloc (as_message response) h in
  let isToolCall1 :=
    if negb (isToolCall acc) && has_length (chunk_tool_calls response)
    then true else isToolCall acc in
  let yielded :=
    if isToolCall1 then
      if has_length (chunk_tool_calls response) then [sessionMessages ++ [r]] else []
    else [sessionMessages ++ [r]] in
  (mkAcc response r isToolCall1, yielded, h1).

Fixpoint for_await {merge : ChunkMerge} (agentStream : list AIMessageChunk)
  (sessionMessages : list ref) (acc : Accumulator) (h : list BaseMessage)
  : Accumulator * list (list ref) * list BaseMessage :=
  match agentStream with
  | [] => (acc, [], h)
  | chunk :: rest =>
      let '(acc1, yielded1, h1) := on_chunk sessionMessages acc chunk h in
      let '(acc2, yielded2, h2) := for_await rest sessionMessages acc1 h1 in
      (acc2, yielded1 ++ yielded2, h2)
  end.

(** How one iteration of [while (true)] ends. *)
Inductive Next := Continue | Break.

(** [new AIMessageChunk('')]. *)
Definition empty_chunk : AIMessageChunk := mkChunk (ContentString "") [].

(** One iteration of [while (true)]: the snapshots it yields, then either the
    error it throws or how it ends together with the session history. *)
Definition turn {merge : ChunkMerge} (options : RunnableAgentOptions)
  (input : BaseLanguageModelInput) (initialHistory sessionHistory : list ref)
  (w : World) : list (list ref) * Result (Next * list ref) * World :=
  let sessionMessages := sessionHistory in
  let '(inputMessages, h0) := _parseModelInputToBaseMessage input (heap w) in
  let messages := initialHistory ++ inputMessages ++ sessionMessages in
  match runToolCallingAgent options messages (set_heap h0 w) with
  | (Throw e, w1) => ([], Throw e, w1)
  | (Ok agentStream, w1) =>
      let '(r0, h1) := alloc (as_message empty_chunk) (heap w1) in
      let '(acc, yielded, h2) :=
        for_await agentStream sessionMessages (mkAcc empty_chunk r0 false) h1 in
      let w2 := history_add [agentResponse_ref acc] (set_heap h2 w1) in
      let sessionHistory1 := sessionHistory ++ [agentResponse_ref acc] in
      if isToolCall acc then
        let '(toolResponse, effects) :=
          runToolCallMessage options (chunk_tool_calls (agentResponse acc)) in
        let '(rs, h3) := alloc_all toolResponse (heap w2) in
        let w3 := history_add rs (log_tools effects (set_heap h3 w2)) in
        let sessionHistory2 := sessionHistory1 ++ rs in
        match tool_response options with
        | Some stop =>
            let toolStopCalled :=
              existsb (λ tool_call, bool_decide (tc_name tool_call = name stop))
                      (chunk_tool_calls (agentResponse acc)) in
            if toolStopCalled then (yielded, Ok (Break, sessionHistory2), w3)
            else (yielded, Ok (Continue, sessionHistory2), w3)
        | None => (yielded, Ok (Continue, sessionHistory2), w3)
        end
      else (yielded, Ok (Break, sessionHistory1), w2)
  end.

(** How a call stands after the steps it was given: it returned, it threw, or
    it is still running. *)
Inductive Completion (A : Type) :=
| Returned (a : A)
| Threw (message : string)
| Running.
Arguments Returned {A} a.
Arguments Threw {A} message.
Arguments Running {A}.

(** What a consumer of the generator sees: the yielded snapshots in order, and
    how the generator stands; [Returned] carries the value of its [return].
    [session] is what [sessionHistory] holds at that point. *)
Record Run := mkRun {
  yields : list (list ref);
  outcome : Completion (list ref);
  session : list ref;
  final : World
}.

(** [while (true)], run for at most [fuel] iterations. *)
Fixpoint while_true {merge : ChunkMerge} (fuel : nat) (options : RunnableAgentOptions)
  (input : BaseLanguageModelInput) (initialHistory : MessageArray)
  (sessionHistory : list ref) (w : World) : Run :=
  match fuel with
  | O => mkRun [] Running sessionHistory w
  | S fuel' =>
      match turn options input (read initialHistory w) sessionHistory w with
      | (yielded, Throw e, w1) => mkRun yielded (Threw e) sessionHistory w1
      | (yielded, Ok (Break, sessionHistory1), w1) =>
          mkRun yielded (Returned sessionHistory1) sessionHistory1 w1
      | (yielded, Ok (Continue, sessionHistory1), w1) =>
          let rest := while_true fuel' options input initialHistory sessionHistory1 w1 in
          mkRun (yielded ++ yields rest) (outcome rest) (session rest) (final rest)
      end
  end.

(** [stream]: the generator handed to [_transformStreamWithConfig], which
    passes its yields on. The history store is read once, before the input is
    added to it. *)
Definition stream {merge : ChunkMerge} (fuel : nat) (options : RunnableAgentOptions)
  (input : BaseLanguageModelInput) (w : World) : Run :=
  let initialHistory := getMessages w in
  let sessionHistory := [] in
  let w1 :=
    match history w with
    | Some _ =>
        let '(inputMessages, h) := _parseModelInputToBaseMessage input (heap w) in
        history_add inputMessages (set_heap h w)
    | None => w
    end in
  while_true fuel options input initialHistory sessionHistory w1.

(** *** [invoke] *)

(** [for await (const chunk of stream) response = chunk]: the last snapshot
    that was yielded, [[]] if there was none. *)
Definition invoke {merge : ChunkMerge} (fuel : nat) (options : RunnableAgentOptions)
  (input : string) (w : World) : Completion (list ref) * World :=
  let run := stream fuel options (InputString input) w in
  let response := default [] (last (yields run)) in
  (match outcome run with
   | Returned _ => Returned response
   | Threw e => Threw e
   | Running => Running
   end, final run).

(** ** Notions used to state the properties *)

(** The values [agentResponse] takes while the fragments of one turn arrive. *)
Fixpoint accumulations {merge : ChunkMerge} (acc : AIMessageChunk) (chunks : list AIMessageChunk)
  : list AIMessageChunk :=
  match chunks with
  | [] => []
  | chunk :: rest => concat acc chunk :: accumulations (concat acc chunk) rest
  end.

(** The AI message of a turn once its stream has ended. *)
Definition completed {merge : ChunkMerge} (chunks : list AIMessageChunk) : AIMessageChunk :=
  default empty_chunk (last (accumulations empty_chunk chunks)).

(** Whether some value of [agentResponse] showed a tool call, which is what
    [isToolCall] records. *)
Definition detected {merge : ChunkMerge} (chunks : list AIMessageChunk) : bool :=
  existsb (λ a, has_length (chunk_tool_calls a)) (accumulations empty_chunk chunks).

(** Whether a stop tool is configured and one of the calls names it. *)
Definition stop_called (options : RunnableAgentOptions) (tool_calls : list ToolCall) : bool :=
  match tool_response options with
  | Some stop => existsb (λ tool_call, bool_decide (tc_name tool_call = name stop)) tool_calls
  | None => false
  end.

(** A text made of whitespace only. *)
Fixpoint blank (s : string) : bool :=
  match s with
  | EmptyString => true
  | String c rest => is_whitespace c && blank rest
  end.

Definition is_ai (m : BaseMessage) : bool :=
  match m with AIMessage _ _ => true | _ => false end.

Definition is_tool (m : BaseMessage) : bool :=
  match m with ToolMessage _ _ _ _ => true | _ => false end.

(** How many of the messages an array refers to satisfy [p]. *)
Definition count (p : BaseMessage → bool) (h : list BaseMessage) (rs : list ref) : nat :=
  length (List.filter p (deref h rs)).

(** A tool message that answers [tool_call]. *)
Definition answers (h : list BaseMessage) (r : ref) (tool_call : ToolCall) : Prop :=
  ∃ content status,
    h !! r = Some (ToolMessage content (tc_name tool_call)
                     (default "" (tc_id tool_call)) status).

(** A session history made of whole turns in their order: each turn is its AI
    message, followed by one tool message per tool call of that AI message, in
    the order of the calls. *)
Inductive in_turn_order (h : list BaseMessage) : list ref → Prop :=
| no_turn : in_turn_order h []
| one_more_turn s a content tool_calls rs :
    in_turn_order h s →
    h !! a = Some (AIMessage content tool_calls) →
    Forall2 (answers h) rs tool_calls →
    in_turn_order h (s ++ a :: rs).

(** Heaps only grow, and an object changes only by being cleaned. *)
Definition evolves (h h' : list BaseMessage) : Prop :=
  ∀ i m, h !! i = Some m → h' !! i = Some m ∨ h' !! i = Some (clean_message m).

(** The content and status of a tool message. *)
Definition tool_content (m : BaseMessage) : option string :=
  match m with ToolMessage content _ _ _ => Some content | _ => None end.

Definition tool_status (m : BaseMessage) : option Status :=
  match m with ToolMessage _ _ _ status => Some status | _ => None end.

(** How many times the model was streamed between two worlds. *)
Definition model_turns (before after : World) : nat :=
  (length (llm_log after) - length (llm_log before))%nat.

(** ** Concrete capabilities, for running the loop on examples *)

Module Examples.

(** A merge for examples: text is joined, and the merged message shows the
    tool calls that the newest fragment could parse from the arguments received
    so far, which is empty while the arguments are incomplete. *)
Definition merge_content (a b : MessageContent) : MessageContent :=
  match a, b with
  | ContentString x, ContentString y => ContentString (x +:+ y)
  | ContentString x, ContentBlocks ys =>
      if decide (x = "") then ContentBlocks ys
      else ContentBlocks (mkBlock "text" x :: ys)
  | ContentBlocks xs, ContentString y =>
      if decide (y = "") then ContentBlocks xs
      else ContentBlocks (xs ++ [mkBlock "text" y])
  | ContentBlocks xs, ContentBlocks ys => ContentBlocks (xs ++ ys)
  end.

Definition view_concat : ChunkMerge :=
  λ acc chunk,
    mkChunk (merge_content (chunk_content acc) (chunk_content chunk))
            (chunk_tool_calls chunk).

(** A model that answers its [n]-th call with the [n]-th scripted stream. *)
Definition scripted (script : list (list AIMessageChunk)) : BaseChatModel :=
  mkLlm (Some (λ _ _ n _, default [] (script !! n))).

(** A model that answers every call with the same stream. *)
Definition repeating (answer : list AIMessageChunk) : BaseChatModel :=
  mkLlm (Some (λ _ _ _ _, answer)).

Definition accept : JSON → Settled := Fulfilled.

Definition get_field (k : string) (v : JSON) : JSON :=
  match v with
  | JObj fields =>
      match List.find (λ kv, bool_decide (fst kv = k)) fields with
      | Some kv => snd kv
      | None => JNull
      end
  | _ => JNull
  end.

Definition echo : AgentToolCallOptions :=
  mkToolOptions "echo" "Echo the text"
    (mkTool accept (IsFunction (λ args, Fulfilled (JObj [("echoed", get_field "text" args)])))).

Definition stop : AgentToolCallOptions :=
  mkToolOptions "stop" "End the conversation"
    (mkTool accept (IsFunction (λ args, Fulfilled (JObj [("done", JBool true)])))).

Definition fail : AgentToolCallOptions :=
  mkToolOptions "fail" "Always raises"
    (mkTool accept (IsFunction (λ _, Rejected (ThrownError "boom")))).

Definition text_chunk (s : string) : AIMessageChunk := mkChunk (ContentString s) [].

Definition call (id tool_name : string) (args : JSON) : ToolCall :=
  mkToolCall (Some id) tool_name args.

Definition call_chunk (calls : list ToolCall) : AIMessageChunk :=
  mkChunk (ContentString "") calls.

Definition ping : JSON := JObj [("text", JStr "ping")].

(** The model asks for [echo] at every turn. *)
Definition always_echo : BaseChatModel :=
  repeating [call_chunk [call "c1" "echo" ping]].


(** The same agent with a budget below zero. *)
Definition negative_budget : RunnableAgentOptions :=
  mkOptions always_echo [echo] None (Some (-1)).

(** An agent that is allowed one turn and whose model answers in text. *)
Definition answering : RunnableAgentOptions :=
  mkOptions (repeating [text_chunk "hello"]) [] None (Some 1).

(** An agent with a stop tool whose model calls [echo] and [stop] at once. *)
Definition stopping : RunnableAgentOptions :=
  mkOptions (repeating [call_chunk [call "c1" "echo" ping; call "c2" "stop" (JObj [])]])
            [echo] (Some stop) None.



(** Two calls in one turn, the first to a tool that raises. *)
Definition fail_then_echo : list ToolCall :=
  [call "c1" "fail" (JObj []); call "c2" "echo" ping].

Definition failing : RunnableAgentOptions :=
  mkOptions (scripted [[call_chunk fail_then_echo]; [text_chunk "done"]])
            [fail; echo] None None.

(** A call to a tool that is not configured. *)
Definition unknown_call : ToolCall := call "c9" "nope" JNull.

(** A caller's history: an AI message whose first text block is blank. *)
Definition spaced : BaseMessage :=
  AIMessage (ContentBlocks [mkBlock "text" "  "; mkBlock "text" "kept"]) [].

End Examples.

(** ** The other helpers of the file *)

(** [agentToolCall(name, description, schema, runnable)]. *)
Definition agentToolCall (tool_name tool_description : string)
  (tool_schema : JSON → Settled) (tool_runnable : RunnableLike) : AgentToolCallOptions :=
  mkToolOptions tool_name tool_description (mkTool tool_schema tool_runnable).

(** *** [streamToRxjs] *)

(** What a subscriber is told. *)
Inductive Notification (T : Type) :=
| OnNext (chunk : T)
| OnComplete
| OnError (message : string).
Arguments OnNext {T} chunk.
Arguments OnComplete {T}.
Arguments OnError {T} message.

(** [streamToRxjs(stream)]: every chunk of the stream is passed to [next];
    when the stream ends the subscriber is told [complete], when it throws,
    [error]. The stream is given by its chunks and by how it stands. *)
Definition streamToRxjs {T A} (chunks : list T) (ending : Completion A)
  : list (Notification T) :=
  map OnNext chunks
  ++ match ending with
     | Returned _ => [OnComplete]
     | Threw e => [OnError e]
     | Running => []
     end.

(** *** [RunnableHistory] *)

Module RunnableHistory.

(** What these helpers put into a chat history: a message that exists already
    (a prompt message, the model's answer, an AI message built here), a tool
    message built with [new ToolMessage(content, tool_call_id, name)], which
    has no status, or a function message. *)
Inductive StoredMessage :=
| Stored (m : BaseMessage)
| StoredTool (content : string) (tool_call_id : option string) (tool_name : string)
| StoredFunction (content : string) (function_name : string).

(** The messages of an [InMemoryChatMessageHistory]. *)
Definition ChatHistory := list StoredMessage.

(** [RunnableHistory.from(func)]: [func] is run with a new, empty history. *)
Definition from {I O} (func : I → ChatHistory → O) (input : I) : O :=
  func input [].

(** [RunnableHistory.runPrompt(chatHistory, runnable)]: the prompt's messages
    are added to the history and all messages of the history are handed on.
    A step of a sequence that throws ends the sequence. *)
Definition runPrompt {I} (chatHistory : ChatHistory)
  (runnable : I → Result (list BaseMessage)) (input : I)
  : Result (list StoredMessage) * ChatHistory :=
  match runnable input with
  | Throw e => (Throw e, chatHistory)
  | Ok messages =>
      let chatHistory1 := chatHistory ++ map Stored messages in
      (Ok chatHistory1, chatHistory1)
  end.

(** [JSON.stringify({ success: true })]. *)
Definition success_true : string := JSON_stringify (JObj [("success", JBool true)]).

(** The two messages built for one tool call in [runLLM] and [runClaude]. *)
Definition call_and_result (tool : ToolCall) : list StoredMessage :=
  [Stored (AIMessage (ContentString "") [tool]);
   StoredTool success_true (tc_id tool) (tc_name tool)].

(** [RunnableHistory.runLLM(chatHistory, runnable)]. *)
Definition runLLM {I} (chatHistory : ChatHistory)
  (runnable : I → Result AIMessageChunk) (input : I)
  : Result AIMessageChunk * ChatHistory :=
  match runnable input with
  | Throw e => (Throw e, chatHistory)
  | Ok response =>
      let messages := List.concat (map call_and_result (chunk_tool_calls response)) in
      (Ok response, chatHistory ++ messages)
  end.

(** [RunnableHistory.runClaude(chatHistory, runnable)]. *)
Definition runClaude {I} (chatHistory : ChatHistory)
  (runnable : I → Result AIMessageChunk) (input : I)
  : Result AIMessageChunk * ChatHistory :=
  match runnable input with
  | Throw e => (Throw e, chatHistory)
  | Ok response =>
      let messages := List.concat (map call_and_result (chunk_tool_calls response)) in
      (Ok response, chatHistory ++ messages)
  end.

(** [RunnableHistory.runOpenAi(chatHistory, runnable)]: the answer itself,
    then one function message for each call; the in-memory history stores them
    as [addMessage] is called, in the order of the calls. *)
Definition runOpenAi {I} (chatHistory : ChatHistory)
  (runnable : I → Result AIMessageChunk) (input : I)
  : Result AIMessageChunk * ChatHistory :=
  match runnable input with
  | Throw e => (Throw e, chatHistory)
  | Ok response =>
      let functionCalls := chunk_tool_calls response in
      let chatHistory1 := chatHistory ++ [Stored (as_message response)] in
      (Ok response,
       chatHistory1
       ++ map (λ functionCall, StoredFunction success_true (tc_name functionCall))
              functionCalls)
  end.

End RunnableHistory.

(** ** Further notions and examples *)

(** A store after messages were added to it. *)
Definition grown (added : list ref) (store : HistoryStore) : HistoryStore :=
  mkStore (stored store ++ added) (shares_array store).

(** A text block that cleaning removes. *)
Definition blank_text (b : ContentBlock) : Prop :=
  cb_type b = "text" ∧ blank (cb_text b) = true.

Module MoreExamples.

(** A model without [bindTools]. *)
Definition unbindable : RunnableAgentOptions :=
  mkOptions (mkLlm None) [Examples.echo] None None.

(** A model whose stream has no fragment. *)
Definition silent : RunnableAgentOptions :=
  mkOptions (Examples.repeating []) [Examples.echo] None None.


(** A tool that has the name of the stop tool and comes before it. *)
Definition impostor : AgentToolCallOptions :=
  agentToolCall "stop" "Not the stop tool" Examples.accept
    (IsFunction (λ _, Fulfilled (JObj [("impostor", JBool true)]))).

Definition shadowed : RunnableAgentOptions :=
  mkOptions Examples.always_echo [Examples.echo; impostor] (Some Examples.stop) None.

(** A tool whose schema turns every argument into [{text:"checked"}]. *)
Definition checking : AgentToolCallOptions :=
  agentToolCall "check" "Echo what the schema lets through"
    (λ _, Fulfilled (JObj [("text", JStr "checked")]))
    (IsFunction (λ args, Fulfilled args)).

(** A tool whose schema refuses every argument. *)
Definition refusing : AgentToolCallOptions :=
  agentToolCall "refuse" "Never validates"
    (λ _, Rejected (ThrownError "invalid"))
    (IsFunction (λ args, Fulfilled args)).

Definition strict : RunnableAgentOptions :=
  mkOptions Examples.always_echo [checking; refusing] None None.

(** An answer with two tool calls and some text. *)
Definition two_calls : AIMessageChunk :=
  mkChunk (ContentString "let me see")
    [Examples.call "c1" "echo" Examples.ping; Examples.call "c2" "stop" (JObj [])].

(** A stream in which the arguments of a call arrive in three steps. *)
Definition growing : list AIMessageChunk :=
  [Examples.call_chunk [Examples.call "c1" "echo" (JObj [])];
   Examples.call_chunk [Examples.call "c1" "echo" (JObj [("text", JStr "pi")])];
   Examples.call_chunk [Examples.call "c1" "echo" Examples.ping]].

End MoreExamples.

(** ** Tools and models that fail in every way

    The definitions above take what a tool returns or raises to be a JSON
    value, which [JSON.stringify] serialises, the steps of a map to settle in
    the order in which they are written, and the stream of the model to end.
    [Full] holds the dispatcher and the loop without these restrictions: a
    tool can return or raise a value on which [JSON.stringify] throws, the
    steps of a map and the callbacks of a turn settle in an order of their
    own, a rejected callback rejects [Promise.all], and the stream of the
    model can fail after some fragments. *)

Module Full.

(** A value as a tool returns or raises it: a JSON value, or a value on which
    [JSON.stringify] throws a [TypeError] with the given message (a [BigInt],
    an object that refers to itself). *)
Inductive Value :=
| Plain (v : JSON)
| Unserializable (type_error : string).

(** [JSON.stringify] on such a value. *)
Definition stringify (v : Value) : Result string :=
  match v with
  | Plain j => Ok (JSON_stringify j)
  | Unserializable type_error => Throw type_error
  end.

(** What a [throw] carries. *)
Inductive Raised :=
| RaisedError (message : string)
| RaisedValue (v : Value).

(** The result of awaiting a call. *)
Inductive Outcome (A : Type) :=
| Resolves (a : A)
| Raises (e : Raised).
Arguments Resolves {A} a.
Arguments Raises {A} e.

(** [RunnableLike]; the steps of a map come with the order in which they
    settle, [finish]. *)
Inductive RunnableLike :=
| IsRunnable (invoke : JSON → Outcome Value)
| IsFunction (call : JSON → Outcome Value)
| IsMap (steps : list (string * (JSON → Outcome Value))) (finish : list nat).

(** The order in which [n] concurrent calls settle, given the list [finish]
    of their positions as they settle: a call that [finish] leaves out settles
    after those it names, in the order of the calls. *)
Definition settling (n : nat) (finish : list nat) : list nat :=
  finish ++ seq 0 n.

(** [output[key] = value] on an object whose keys are in insertion order. *)
Fixpoint set_key {V} (key : string) (value : V) (output : list (string * V))
  : list (string * V) :=
  match output with
  | [] => [(key, value)]
  | (k, v) :: rest =>
      if decide (k = key) then (key, value) :: rest else (k, v) :: set_key key value rest
  end.

(** [RunnableMap.invoke]: every step is started with the input; a step that
    resolves sets its key of [output], and the first step that raises rejects
    the whole with what it raised ([Promise.all] over the steps). *)
Fixpoint RunnableMap_settle (steps : list (string * (JSON → Outcome Value)))
  (input : JSON) (order : list nat) (output : list (string * Value))
  : Outcome (list (string * Value)) :=
  match order with
  | [] => Resolves output
  | i :: rest =>
      match steps !! i with
      | Some (key, step) =>
          match step input with
          | Resolves value => RunnableMap_settle steps input rest (set_key key value output)
          | Raises e => Raises e
          end
      | None => RunnableMap_settle steps input rest output
      end
  end.

Definition RunnableMap_invoke (steps : list (string * (JSON → Outcome Value)))
  (finish : list nat) (input : JSON) : Outcome (list (string * Value)) :=
  RunnableMap_settle steps input (settling (length steps) finish) [].

(** An object with the given entries: [JSON.stringify] throws on it when it
    throws on one of the values. *)
Fixpoint fields_of (entries : list (string * Value)) : Result (list (string * JSON)) :=
  match entries with
  | [] => Ok []
  | (key, Plain j) :: rest =>
      match fields_of rest with
      | Ok fields => Ok ((key, j) :: fields)
      | Throw type_error => Throw type_error
      end
  | (key, Unserializable type_error) :: _ => Throw type_error
  end.

Definition object (entries : list (string * Value)) : Value :=
  match fields_of entries with
  | Ok fields => Plain (JObj fields)
  | Throw type_error => Unserializable type_error
  end.

(** [AgentToolCall]: [schema] stands for [schema.parse]. *)
Record AgentToolCall := mkTool {
  schema : JSON → Outcome JSON;
  runnable : RunnableLike
}.

Record AgentToolCallOptions := mkToolOptions {
  name : string;
  description : string;
  tool : AgentToolCall
}.

Record BindToolsInput := mkBind {
  bind_name : string;
  bind_description : string;
  bind_schema : JSON → Outcome JSON
}.

(** What [stream(messages)] of a bound model gives: the fragments it yields
    and, when it does not end, the error it fails with after them. *)
Record ModelStream := mkStream {
  fragments : list AIMessageChunk;
  failure : option string
}.

Definition BoundLlm := nat → list BaseMessage → ModelStream.

Record BaseChatModel := mkLlm {
  bindTools : option (list BindToolsInput → ToolChoice → BoundLlm)
}.

Record RunnableAgentOptions := mkOptions {
  llm : BaseChatModel;
  tools : list AgentToolCallOptions;
  tool_response : option AgentToolCallOptions;
  maxToolCalls : option Z
}.

(** [constructor]. *)
Definition new_RunnableAgent (options : RunnableAgentOptions)
  (h : list BaseMessage) (store : option HistoryStore) : World :=
  mkWorld h (default 10 (maxToolCalls options)) store [] [].

(** *** [_createToolResponse] *)

Definition _createToolResponse (tool_call : ToolCall) (toolResponse : Value)
  (status : Status) : Result BaseMessage :=
  match stringify toolResponse with
  | Ok content =>
      Ok (ToolMessage content (tc_name tool_call) (default "" (tc_id tool_call)) status)
  | Throw type_error => Throw type_error
  end.

(** *** [runToolCallingAgent] *)

Definition bind_inputs (options : RunnableAgentOptions) : list BindToolsInput :=
  map (λ toolDef, mkBind (name toolDef) (description toolDef) (schema (tool toolDef)))
      (tools options)
  ++ match tool_response options with
     | Some stop => [mkBind (name stop) (description stop) (schema (tool stop))]
     | None => []
     end.

Definition runToolCallingAgent (options : RunnableAgentOptions) (input : list ref)
  (w : World) : Result ModelStream * World :=
  if decide (_callsLeft w = 0) then (Throw budget_error, w)
  else
    let w := set_callsLeft (_callsLeft w - 1) w in
    match bindTools (llm options) with
    | None => (Throw binding_error, w)
    | Some bind =>
        let boundLlm :=
          bind (bind_inputs options)
               (match tool_response options with Some _ => any | None => auto end) in
        let '(cleaned, h) := _cleanHistory input (heap w) in
        let messages := deref h cleaned in
        (Ok (boundLlm (length (llm_log w)) messages), log_llm messages (set_heap h w))
    end.

(** *** [runToolCallMessage] *)

Definition invoke_runnable (toolRunnable : RunnableLike) (parsed : JSON) : Outcome Value :=
  match toolRunnable with
  | IsRunnable invoke => invoke parsed
  | IsFunction call => call parsed
  | IsMap steps finish =>
      match RunnableMap_invoke steps finish parsed with
      | Resolves output => Resolves (object output)
      | Raises e => Raises e
      end
  end.

Definition find_tool (options : RunnableAgentOptions) (tool_call : ToolCall)
  : option AgentToolCallOptions :=
  List.find (λ tool, bool_decide (name tool = tc_name tool_call))
    (tools options ++ match tool_response options with
                      | Some toolResponse => [toolResponse]
                      | None => []
                      end).

(** [e instanceof Error ? { error: e.message } : e]. *)
Definition errorResponse (e : Raised) : Value :=
  match e with
  | RaisedError message => Plain (JObj [("error", JStr message)])
  | RaisedValue v => v
  end.

(** The callback mapped over [input.tool_calls]: the message its promise is
    fulfilled with, or the error it is rejected with, and what it asked of the
    tool on the way. [schema.parse] and the call of the tool are inside the
    [try]; [_createToolResponse] is called after it and in its [catch]. *)
Definition runToolCall (options : RunnableAgentOptions) (tool_call : ToolCall)
  : Result BaseMessage * list ToolEffect :=
  match find_tool options tool_call with
  | None =>
      (_createToolResponse tool_call
         (Plain
            (JObj [("type", JStr "text");
                   ("text", JStr (JSON_stringify
                      (JObj [("success", JBool false);
                             ("error", JStr (not_found_text (tc_name tool_call)))])))]))
         error,
       [])
  | Some findTool =>
      match schema (tool findTool) (tc_args tool_call) with
      | Raises e =>
          (_createToolResponse tool_call (errorResponse e) error,
           [SchemaParse (name findTool) (tc_args tool_call)])
      | Resolves parsed =>
          match invoke_runnable (runnable (tool findTool)) parsed with
          | Raises e =>
              (_createToolResponse tool_call (errorResponse e) error,
               [SchemaParse (name findTool) (tc_args tool_call);
                Invoke (name findTool) parsed])
          | Resolves result =>
              (_createToolResponse tool_call result success,
               [SchemaParse (name findTool) (tc_args tool_call);
                Invoke (name findTool) parsed])
          end
      end
  end.

(** The error of the promise that is rejected first, [order] being the order
    in which the promises settle. *)
Fixpoint first_rejection {A} (order : list nat) (promises : list (Result A))
  : option string :=
  match order with
  | [] => None
  | i :: rest =>
      match promises !! i with
      | Some (Throw e) => Some e
      | _ => first_rejection rest promises
      end
  end.

Definition fulfilled {A} (promise : Result A) : option A :=
  match promise with Ok a => Some a | Throw _ => None end.

(** [Promise.all]: rejected with the error of the first promise that is
    rejected; fulfilled, when none is, with the values in the order of the
    promises. *)
Definition Promise_all {A} (finish : list nat) (promises : list (Result A))
  : Result (list A) :=
  match first_rejection (settling (length promises) finish) promises with
  | Some e => Throw e
  | None => Ok (omap fulfilled promises)
  end.

(** [runToolCallMessage]; [finish] is the order in which the callbacks
    settle. Every callback is started, so every tool is asked, whether
    [Promise.all] is rejected or not. *)
Definition runToolCallMessage (options : RunnableAgentOptions) (finish : list nat)
  (tool_calls : list ToolCall) : Result (list BaseMessage) * list ToolEffect :=
  let promises := map (runToolCall options) tool_calls in
  (Promise_all finish (map fst promises), List.concat (map snd promises)).

(** *** [stream] *)

(** One iteration of [while (true)]: the snapshots it yields, how it ends or
    the error it throws, what [sessionHistory] holds then, and the world.
    [settles] gives the order in which the callbacks of a dispatch settle. *)
Definition turn {merge : ChunkMerge} (options : RunnableAgentOptions)
  (settles : list ToolCall → list nat)
  (input : BaseLanguageModelInput) (initialHistory sessionHistory : list ref)
  (w : World) : list (list ref) * Result Next * list ref * World :=
  let sessionMessages := sessionHistory in
  let '(inputMessages, h0) := _parseModelInputToBaseMessage input (heap w) in
  let messages := initialHistory ++ inputMessages ++ sessionMessages in
  match runToolCallingAgent options messages (set_heap h0 w) with
  | (Throw e, w1) => ([], Throw e, sessionHistory, w1)
  | (Ok agentStream, w1) =>
      let '(r0, h1) := alloc (as_message empty_chunk) (heap w1) in
      let '(acc, yielded, h2) :=
        for_await (fragments agentStream) sessionMessages (mkAcc empty_chunk r0 false) h1 in
      match failure agentStream with
      | Some e => (yielded, Throw e, sessionHistory, set_heap h2 w1)
      | None =>
          let w2 := history_add [agentResponse_ref acc] (set_heap h2 w1) in
          let sessionHistory1 := sessionHistory ++ [agentResponse_ref acc] in
          if isToolCall acc then
            let tool_calls := chunk_tool_calls (agentResponse acc) in
            match runToolCallMessage options (settles tool_calls) tool_calls with
            | (Throw e, effects) =>
                (yielded, Throw e, sessionHistory1, log_tools effects w2)
            | (Ok toolResponse, effects) =>
                let '(rs, h3) := alloc_all toolResponse (heap w2) in
                let w3 := history_add rs (log_tools effects (set_heap h3 w2)) in
                let sessionHistory2 := sessionHistory1 ++ rs in
                match tool_response options with
                | Some stop =>
                    let toolStopCalled :=
                      existsb (λ tool_call, bool_decide (tc_name tool_call = name stop))
                              tool_calls in
                    if toolStopCalled then (yielded, Ok Break, sessionHistory2, w3)
                    else (yielded, Ok Continue, sessionHistory2, w3)
                | None => (yielded, Ok Continue, sessionHistory2, w3)
                end
            end
          else (yielded, Ok Break, sessionHistory1, w2)
      end
  end.

(** [while (true)], run for at most [fuel] iterations. *)
Fixpoint while_true {merge : ChunkMerge} (fuel : nat) (options : RunnableAgentOptions)
  (settles : list ToolCall → list nat)
  (input : BaseLanguageModelInput) (initialHistory : MessageArray)
  (sessionHistory : list ref) (w : World) : Run :=
  match fuel with
  | O => mkRun [] Running sessionHistory w
  | S fuel' =>
      match turn options settles input (read initialHistory w) sessionHistory w with
      | (yielded, Throw e, sessionHistory1, w1) => mkRun yielded (Threw e) sessionHistory1 w1
      | (yielded, Ok Break, sessionHistory1, w1) =>
          mkRun yielded (Returned sessionHistory1) sessionHistory1 w1
      | (yielded, Ok Continue, sessionHistory1, w1) =>
          let rest :=
            while_true fuel' options settles input initialHistory sessionHistory1 w1 in
          mkRun (yielded ++ yields rest) (outcome rest) (session rest) (final rest)
      end
  end.

Definition stream {merge : ChunkMerge} (fuel : nat) (options : RunnableAgentOptions)
  (settles : list ToolCall → list nat)
  (input : BaseLanguageModelInput) (w : World) : Run :=
  let initialHistory := getMessages w in
  let sessionHistory := [] in
  let w1 :=
    match history w with
    | Some _ =>
        let '(inputMessages, h) := _parseModelInputToBaseMessage input (heap w) in
        history_add inputMessages (set_heap h w)
    | None => w
    end in
  while_true fuel options settles input initialHistory sessionHistory w1.

(** *** [invoke] *)

Definition invoke {merge : ChunkMerge} (fuel : nat) (options : RunnableAgentOptions)
  (settles : list ToolCall → list nat)
  (input : string) (w : World) : Completion (list ref) * World :=
  let run := stream fuel options settles (InputString input) w in
  let response := default [] (last (yields run)) in
  (match outcome run with
   | Returned _ => Returned response
   | Threw e => Threw e
   | Running => Running
   end, final run).

(** The value that the callback of a resolved call hands to
    [_createToolResponse]. *)
Definition response_of (findTool : AgentToolCallOptions) (tool_call : ToolCall) : Value :=
  match schema (tool findTool) (tc_args tool_call) with
  | Raises e => errorResponse e
  | Resolves parsed =>
      match invoke_runnable (runnable (tool findTool)) parsed with
      | Raises e => errorResponse e
      | Resolves result => result
      end
  end.

End Full.

(** ** Tools whose values are JSON, as tools of [Full] *)

Definition lift_thrown (e : Thrown) : Full.Raised :=
  match e with
  | ThrownError message => Full.RaisedError message
  | ThrownValue v => Full.RaisedValue (Full.Plain v)
  end.

Definition lift_settled (s : Settled) : Full.Outcome Full.Value :=
  match s with
  | Fulfilled v => Full.Resolves (Full.Plain v)
  | Rejected e => Full.Raises (lift_thrown e)
  end.

Definition lift_parsed (s : Settled) : Full.Outcome JSON :=
  match s with
  | Fulfilled v => Full.Resolves v
  | Rejected e => Full.Raises (lift_thrown e)
  end.

Definition lift_step (step : string * (JSON → Settled))
  : string * (JSON → Full.Outcome Full.Value) :=
  (fst step, λ input, lift_settled (snd step input)).

(** The steps of a map settle in the order in which they are written. *)
Definition lift_runnable (toolRunnable : RunnableLike) : Full.RunnableLike :=
  match toolRunnable with
  | IsRunnable invoke => Full.IsRunnable (λ input, lift_settled (invoke input))
  | IsFunction call => Full.IsFunction (λ input, lift_settled (call input))
  | IsMap steps => Full.IsMap (map lift_step steps) []
  end.

Definition lift_tool (t : AgentToolCallOptions) : Full.AgentToolCallOptions :=
  Full.mkToolOptions (name t) (description t)
    (Full.mkTool (λ args, lift_parsed (schema (tool t) args))
                 (lift_runnable (runnable (tool t)))).

(** The model answers as it does when it is bound to the tools themselves,
    and its streams end. *)
Definition lift_llm (options : RunnableAgentOptions) : Full.BaseChatModel :=
  Full.mkLlm
    ((λ bind (_ : list Full.BindToolsInput) tool_choice n messages,
        Full.mkStream (bind (bind_inputs options) tool_choice n messages) None)
     <$> bindTools (llm options)).

Definition lift (options : RunnableAgentOptions) : Full.RunnableAgentOptions :=
  Full.mkOptions (lift_llm options) (map lift_tool (tools options))
    (lift_tool <$> tool_response options) (maxToolCalls options).

(** The steps of a map have names of their own, as the keys of an object
    have. *)
Definition distinct_steps (t : AgentToolCallOptions) : Prop :=
  match runnable (tool t) with
  | IsMap steps => NoDup (map fst steps)
  | _ => True
  end.

Definition distinct_steps_in (options : RunnableAgentOptions) : Prop :=
  (∀ t, t ∈ tools options → distinct_steps t) ∧
  (∀ stop, tool_response options = Some stop → distinct_steps stop).

Definition plain (entry : string * JSON) : string * Full.Value :=
  (fst entry, Full.Plain (snd entry)).

(** ** Concrete tools and models for [Full] *)

Module FullExamples.

(** The message of the [TypeError] that [JSON.stringify] throws on a
    [BigInt]. *)
Definition bigint_error : string := "Do not know how to serialize a BigInt".

Definition accept : JSON → Full.Outcome JSON := Full.Resolves.

Definition echo : Full.AgentToolCallOptions :=
  Full.mkToolOptions "echo" "Echo the text"
    (Full.mkTool accept
       (Full.IsFunction
          (λ args, Full.Resolves (Full.Plain (JObj [("echoed", Examples.get_field "text" args)]))))).

(** A tool that returns [{count: 10n}]. *)
Definition count : Full.AgentToolCallOptions :=
  Full.mkToolOptions "count" "Count the rows"
    (Full.mkTool accept (Full.IsFunction (λ _, Full.Resolves (Full.Unserializable bigint_error)))).

(** A tool that does [throw 10n]. *)
Definition raise : Full.AgentToolCallOptions :=
  Full.mkToolOptions "raise" "Raises a number"
    (Full.mkTool accept
       (Full.IsFunction (λ _, Full.Raises (Full.RaisedValue (Full.Unserializable bigint_error))))).

(** A tool whose schema raises such a value. *)
Definition refuse : Full.AgentToolCallOptions :=
  Full.mkToolOptions "refuse" "Never validates"
    (Full.mkTool (λ _, Full.Raises (Full.RaisedValue (Full.Unserializable bigint_error)))
       (Full.IsFunction (λ args, Full.Resolves (Full.Plain args)))).

(** A map of two steps that both raise, the second before the first. *)
Definition both_raise : Full.RunnableLike :=
  Full.IsMap [("a", λ _, Full.Raises (Full.RaisedError "A"));
              ("b", λ _, Full.Raises (Full.RaisedError "B"))]
             [1%nat; 0%nat].

(** A map of two steps that both resolve, the second before the first. *)
Definition both_resolve : Full.RunnableLike :=
  Full.IsMap [("a", λ _, Full.Resolves (Full.Plain (JNum 1)));
              ("b", λ _, Full.Resolves (Full.Plain (JNum 2)))]
             [1%nat; 0%nat].

(** A model that answers its [n]-th call with the [n]-th scripted stream,
    which ends. *)
Definition scripted (script : list (list AIMessageChunk)) : Full.BaseChatModel :=
  Full.mkLlm (Some (λ _ _ n _, Full.mkStream (default [] (script !! n)) None)).

(** Two calls in one turn, the second to the tool whose result cannot be
    serialised. *)
Definition echo_then_count : list ToolCall :=
  [Examples.call "c1" "echo" Examples.ping; Examples.call "c2" "count" (JObj [])].

Definition counting : Full.RunnableAgentOptions :=
  Full.mkOptions
    (scripted [[Examples.call_chunk echo_then_count]; [Examples.text_chunk "done"]])
    [echo; count] None None.

(** One call to the tool that raises a value that cannot be serialised. *)
Definition raising : Full.RunnableAgentOptions :=
  Full.mkOptions
    (scripted [[Examples.call_chunk [Examples.call "c1" "raise" (JObj [])]];
               [Examples.text_chunk "done"]])
    [echo; raise; refuse] None None.

(** A model whose stream fails after one fragment. *)
Definition breaking : Full.RunnableAgentOptions :=
  Full.mkOptions
    (Full.mkLlm (Some (λ _ _ _ _,
       Full.mkStream [Examples.text_chunk "he"] (Some "socket hang up"))))
    [echo] None None.

(** The callbacks of every dispatch settle in the order of the calls. *)
Definition in_call_order : list ToolCall → list nat := λ _, [].

(** The callbacks of every dispatch settle in the reverse order. *)
Definition last_call_first : list ToolCall → list nat :=
  λ tool_calls, rev (seq 0 (length tool_calls)).

End FullExamples.

(** * Properties *)

(** ** The inner loop over the fragments *)

Section Loop.
Context {merge : ChunkMerge}.

Lemma alloc_all_spec (ms h : list BaseMessage) :
  alloc_all ms h = (seq (length h) (length ms), h ++ ms).
Proof.
  revert h. induction ms as [|m ms IH]; intros h; simpl.
  - by rewrite app_nil_r.
  - rewrite IH, length_app. simpl.
    rewrite Nat.add_1_r, <- app_assoc. done.
Qed.

Lemma accumulations_length acc chunks :
  length (accumulations acc chunks) = length chunks.
Proof. revert acc. induction chunks; intros; simpl; auto. Qed.

Lemma for_await_spec sessionMessages chunks :
  ∀ acc h,
    let accs := accumulations (agentResponse acc) chunks in
    ∃ yielded,
      for_await chunks sessionMessages acc h =
      (mkAcc (default (agentResponse acc) (last accs))
             (match chunks with
              | [] => agentResponse_ref acc
              | _ => (length h + length chunks - 1)%nat
              end)
             (isToolCall acc || existsb (λ a, has_length (chunk_tool_calls a)) accs),
       yielded,
       h ++ map as_message accs).
Proof.
  induction chunks as [|chunk rest IH]; intros acc h; simpl.
  - exists []. destruct acc; simpl. by rewrite orb_false_r, app_nil_r.
  - destruct (IH (mkAcc (concat (agentResponse acc) chunk) (length h)
       (if negb (isToolCall acc) && has_length (chunk_tool_calls (concat (agentResponse acc) chunk))
        then true else isToolCall acc)) (h ++ [as_message (concat (agentResponse acc) chunk)]))
      as [ys Hys].
    simpl in Hys. rewrite Hys. eexists. f_equal; [f_equal|].
    + f_equal.
      * rewrite last_cons. by destruct (last _).
      * rewrite length_app. simpl. destruct rest; simpl; lia.
      * destruct (isToolCall acc), (has_length _); simpl; done.
    + by rewrite <- app_assoc.
Qed.

End Loop.

(** ** [_cleanHistory] on the heap *)

Section Cleaning.

Lemma filter_idemp {A} (f : A → bool) (l : list A) :
  List.filter f (List.filter f l) = List.filter f l.
Proof.
  induction l as [|x l IH]; simpl; [done|].
  destruct (f x) eqn:E; simpl; rewrite ?E, IH; done.
Qed.

Lemma clean_message_idemp m : clean_message (clean_message m) = clean_message m.
Proof.
  destruct m as [c|c tcs|????|??]; simpl; try done.
  destruct c; simpl; [done|]. by rewrite filter_idemp.
Qed.

Lemma cleanHistory_fst history : ∀ h, fst (_cleanHistory history h) = history.
Proof.
  induction history as [|r rest IH]; intros h; simpl; [done|].
  specialize (IH (alter clean_message r h)).
  destruct (_cleanHistory rest _); simpl in *. by rewrite IH.
Qed.

Lemma cleanHistory_length history :
  ∀ h, length (snd (_cleanHistory history h)) = length h.
Proof.
  induction history as [|r rest IH]; intros h; simpl; [done|].
  specialize (IH (alter clean_message r h)).
  destruct (_cleanHistory rest _); simpl in *. by rewrite IH, length_alter.
Qed.

Lemma cleanHistory_lookup history :
  ∀ h i,
    snd (_cleanHistory history h) !! i =
    if decide (i ∈ history) then clean_message <$> h !! i else h !! i.
Proof.
  induction history as [|r rest IH]; intros h i; simpl; [done|].
  specialize (IH (alter clean_message r h) i).
  destruct (_cleanHistory rest _) as [kept h2]; simpl in *. rewrite IH.
  destruct (decide (i = r)) as [->|Hne].
  - rewrite (decide_True (P := r ∈ r :: rest)) by (by left).
    rewrite list_lookup_alter_eq.
    case_decide; [|reflexivity].
    destruct (h !! r) as [m|]; simpl; [by rewrite clean_message_idemp | reflexivity].
  - rewrite list_lookup_alter_ne by done.
    destruct (decide (i ∈ rest)) as [Hin|Hnin].
    + by rewrite (decide_True (P := i ∈ r :: rest)) by (by right).
    + rewrite (decide_False (P := i ∈ r :: rest)); [done|].
      by intros [?|?]%elem_of_cons.
Qed.

End Cleaning.

Lemma lookup_cons_last {A} (x : A) (l : list A) :
  (x :: l) !! length l = Some (default x (last l)).
Proof.
  revert x. induction l as [|y l IH]; intros x; simpl; [done|].
  rewrite IH. rewrite last_cons. by destruct (last l).
Qed.

(** ** One iteration of the loop *)

Section Turn.
Context {merge : ChunkMerge}.

Lemma runToolCallingAgent_Ok options messages w chunks w1 :
  runToolCallingAgent options messages w = (Ok chunks, w1) →
  _callsLeft w ≠ 0 ∧
  ∃ bind,
    bindTools (llm options) = Some bind ∧
    let h := snd (_cleanHistory messages (heap w)) in
    chunks = bind (bind_inputs options)
               (match tool_response options with Some _ => any | None => auto end)
               (length (llm_log w)) (deref h messages) ∧
    w1 = mkWorld h (_callsLeft w - 1) (history w)
           (llm_log w ++ [deref h messages]) (tool_log w).
Proof.
  unfold runToolCallingAgent. case_decide; [done|].
  destruct (bindTools (llm options)) as [bind|]; [|done].
  pose proof (cleanHistory_fst messages (heap (set_callsLeft (_callsLeft w - 1) w))) as Hfst.
  destruct (_cleanHistory messages _) as [cleaned h] eqn:E. simpl in *. subst cleaned.
  intros [= <- <-]. split; [done|]. exists bind. split; [done|]. done.
Qed.

Lemma runToolCallingAgent_Throw options messages w e w1 :
  runToolCallingAgent options messages w = (Throw e, w1) →
  (_callsLeft w = 0 ∧ e = "Max tool calls reached" ∧ w1 = w) ∨
  (_callsLeft w ≠ 0 ∧ bindTools (llm options) = None ∧
   e = "LLM does not support tool binding" ∧ w1 = set_callsLeft (_callsLeft w - 1) w).
Proof.
  unfold runToolCallingAgent. case_decide.
  - intros [= <- <-]. by left.
  - destruct (bindTools (llm options)); [by destruct (_cleanHistory _ _)|].
    intros [= <- <-]. by right.
Qed.

(** The whole of [turn] when the model is reached. *)
Lemma turn_unfold options input initialHistory sessionHistory w inputMessages h0 chunks w1 :
  _parseModelInputToBaseMessage input (heap w) = (inputMessages, h0) →
  runToolCallingAgent options (initialHistory ++ inputMessages ++ sessionHistory)
    (set_heap h0 w) = (Ok chunks, w1) →
  let a := (length (heap w1) + length chunks)%nat in
  let h2 := heap w1 ++ as_message empty_chunk
              :: map as_message (accumulations empty_chunk chunks) in
  let w2 := history_add [a] (set_heap h2 w1) in
  let tool_calls := chunk_tool_calls (completed chunks) in
  let toolResponse := fst (runToolCallMessage options tool_calls) in
  let rs := seq (length h2) (length tool_calls) in
  h2 !! a = Some (as_message (completed chunks)) ∧
  ∃ yielded,
    turn options input initialHistory sessionHistory w =
    if detected chunks then
      (yielded,
       Ok (if stop_called options tool_calls then Break else Continue,
           (sessionHistory ++ [a]) ++ rs),
       history_add rs
         (log_tools (snd (runToolCallMessage options tool_calls))
            (set_heap (h2 ++ toolResponse) w2)))
    else (yielded, Ok (Break, sessionHistory ++ [a]), w2).
Proof.
  intros Hparse Hrun. simpl.
  split.
  - rewrite lookup_app_r by lia.
    replace (length (heap w1) + length chunks - length (heap w1))%nat
      with (length (accumulations empty_chunk chunks))
      by (rewrite accumulations_length; lia).
    unfold completed.
    change (as_message empty_chunk :: map as_message (accumulations empty_chunk chunks))
      with (map as_message (empty_chunk :: accumulations empty_chunk chunks)).
    rewrite list_lookup_fmap, lookup_cons_last. done.
  - unfold turn. rewrite Hparse, Hrun. unfold alloc.
    destruct (for_await_spec sessionHistory chunks
                (mkAcc empty_chunk (length (heap w1)) false)
                (heap w1 ++ [as_message empty_chunk])) as [yielded Hys].
    simpl in Hys. rewrite Hys. clear Hys. simpl.
    exists yielded.
    replace (match chunks with
             | [] => length (heap w1)
             | _ :: _ => (length (heap w1 ++ [as_message empty_chunk]) + length chunks - 1)%nat
             end) with (length (heap w1) + length chunks)%nat
      by (rewrite length_app; destruct chunks; simpl; lia).
    rewrite <- (app_assoc (heap w1) [as_message empty_chunk]). simpl.
    fold (detected chunks). fold (completed chunks).
    destruct (detected chunks); [|done].
    unfold runToolCallMessage. simpl. rewrite alloc_all_spec. simpl.
    rewrite !length_app, !length_map. simpl. rewrite ?length_map.
    unfold stop_called.
    destruct (tool_response options) as [stop|]; [|done].
    by destruct (existsb _ _).
Qed.
End Turn.

(** ** The counter and the log of model calls *)

Section Budget.
Context {merge : ChunkMerge}.

Lemma parse_input_world input h :
  ∃ inputMessages h0, _parseModelInputToBaseMessage input h = (inputMessages, h0).
Proof. destruct input; simpl; eauto. Qed.

(** What one iteration does to the counter and to the log of model calls. *)
Lemma turn_budget options input initialHistory sessionHistory w :
  ∃ yielded res w',
    turn options input initialHistory sessionHistory w = (yielded, res, w') ∧
    ((_callsLeft w = 0 ∧ res = Throw budget_error ∧ yielded = [] ∧
      llm_log w' = llm_log w ∧ _callsLeft w' = 0)
     ∨ (_callsLeft w ≠ 0 ∧ bindTools (llm options) = None ∧
        res = Throw binding_error ∧ yielded = [] ∧
        llm_log w' = llm_log w ∧ _callsLeft w' = _callsLeft w - 1)
     ∨ (_callsLeft w ≠ 0 ∧ is_Some (bindTools (llm options)) ∧
        (∃ next sessionHistory1, res = Ok (next, sessionHistory1)) ∧
        length (llm_log w') = S (length (llm_log w)) ∧
        _callsLeft w' = _callsLeft w - 1)).
Proof.
  destruct (parse_input_world input (heap w)) as (inputMessages & h0 & Hparse).
  destruct (runToolCallingAgent options
              (initialHistory ++ inputMessages ++ sessionHistory) (set_heap h0 w))
    as [[chunks|e] w1] eqn:Hrun.
  - destruct (turn_unfold _ _ _ _ _ _ _ _ _ Hparse Hrun) as [_ [yielded Hturn]].
    apply runToolCallingAgent_Ok in Hrun as (Hne & bind & Hbind & _ & Hw1).
    simpl in Hne.
    destruct (detected chunks); rewrite Hturn; do 3 eexists; (split; [done|]);
      right; right; (split; [done|]); (split; [by rewrite Hbind|]);
      (split; [eauto|]); subst w1; simpl; rewrite length_app; simpl; split; lia.
  - exists [], (Throw e), w1. split.
    + unfold turn. by rewrite Hparse, Hrun.
    + apply runToolCallingAgent_Throw in Hrun
        as [(H0 & -> & ->)|(Hne & Hbind & -> & ->)]; simpl in *.
      * left. done.
      * right. left. done.
Qed.

Lemma while_true_counter options input initialHistory fuel :
  ∀ sessionHistory w,
    let r := while_true fuel options input initialHistory sessionHistory w in
    (length (llm_log w) ≤ length (llm_log (final r)))%nat ∧
    Z.of_nat (model_turns w (final r)) ≤ Z.max 0 (_callsLeft w - _callsLeft (final r)) ∧
    (is_Some (bindTools (llm options)) →
     _callsLeft (final r) = _callsLeft w - Z.of_nat (model_turns w (final r))).
Proof.
  unfold model_turns.
  induction fuel as [|fuel IH]; intros s w; simpl.
  - repeat split; try lia.
  - destruct (turn_budget options input (read initialHistory w) s w)
      as (ys & res & w' & Hturn & Hcases).
    rewrite Hturn.
    destruct Hcases as [(H0 & -> & -> & Hlog & Hc)
                       |[(Hne & Hbind & -> & -> & Hlog & Hc)
                        |(Hne & Hbind & (next & s1 & ->) & Hlog & Hc)]]; simpl.
    + rewrite Hlog, Hc, H0. split; [lia|]. split; [lia|]. intros _. lia.
    + rewrite Hlog, Hc, Hbind. split; [lia|]. split; [lia|]. by intros [? [=]].
    + destruct next; simpl.
      * specialize (IH s1 w'). simpl in IH. destruct IH as (IH1 & IH2 & IH3).
        specialize (IH3 Hbind).
        split; [lia|]. split; [lia|]. intros _. lia.
      * split; [lia|]. split; [lia|]. intros _. lia.
Qed.

Lemma while_true_budget options input initialHistory fuel :
  ∀ sessionHistory w,
    0 ≤ _callsLeft w →
    let r := while_true fuel options input initialHistory sessionHistory w in
    0 ≤ _callsLeft (final r) ≤ _callsLeft w ∧
    Z.of_nat (model_turns w (final r)) ≤ _callsLeft w - _callsLeft (final r) ∧
    (_callsLeft w < Z.of_nat fuel → outcome r ≠ Running) ∧
    (outcome r = Threw budget_error → _callsLeft (final r) = 0).
Proof.
  unfold model_turns.
  induction fuel as [|fuel IH]; intros s w Hpos; simpl.
  - split; [lia|]. split; [lia|]. split; [lia|]. done.
  - destruct (turn_budget options input (read initialHistory w) s w)
      as (ys & res & w' & Hturn & Hcases).
    rewrite Hturn.
    destruct Hcases as [(H0 & -> & -> & Hlog & Hc)
                       |[(Hne & Hbind & -> & -> & Hlog & Hc)
                        |(Hne & Hbind & (next & s1 & ->) & Hlog & Hc)]]; simpl.
    + rewrite Hlog, Hc, H0. split; [lia|]. split; [lia|]. split; done.
    + rewrite Hlog, Hc. split; [lia|]. split; [lia|]. split; done.
    + destruct next; simpl.
      * assert (0 ≤ _callsLeft w') as Hpos' by lia.
        specialize (IH s1 w' Hpos'). simpl in IH.
        destruct IH as (IH1 & IH2 & IH3 & IH4).
        pose proof (while_true_counter options input initialHistory fuel s1 w') as (Hmono & _).
        simpl in Hmono.
        split; [lia|]. split; [lia|]. split; [|done].
        intros Hf. apply IH3. lia.
      * split; [lia|]. split; [lia|]. split; done.
Qed.

End Budget.

(** ** Blank text *)

Section Trim.

Lemma trim_start_blank s : trim_start s = EmptyString ↔ blank s = true.
Proof.
  induction s as [|c s IH]; simpl; [done|].
  destruct (is_whitespace c); simpl; [done|]. split; discriminate.
Qed.

Lemma trim_start_head s c rest :
  trim_start s = String c rest → is_whitespace c = false.
Proof.
  induction s as [|d s IH]; simpl; [discriminate|].
  destruct (is_whitespace d) eqn:E; [done|]. by intros [= <- <-].
Qed.

Lemma trim_end_head c rest :
  is_whitespace c = false → trim_end (String c rest) ≠ EmptyString.
Proof. simpl. intros ->. by destruct (trim_end rest). Qed.

Lemma trim_blank s : String.length (trim s) = 0%nat ↔ blank s = true.
Proof.
  unfold trim. rewrite <- trim_start_blank.
  destruct (trim_start s) as [|c rest] eqn:E; simpl; [done|].
  apply trim_start_head in E.
  pose proof (trim_end_head c rest E) as Hne. simpl in Hne.
  destruct (match trim_end rest with
            | EmptyString => if is_whitespace c then EmptyString else String c EmptyString
            | String a s0 => String c (String a s0)
            end); [done|]. simpl. split; discriminate.
Qed.

(** The inner filter drops exactly the text blocks that are blank. *)
Lemma keep_block_blank b :
  keep_block b = false ↔ cb_type b = "text" ∧ blank (cb_text b) = true.
Proof.
  unfold keep_block. case_decide as Ht.
  - rewrite <- trim_blank. rewrite Nat.ltb_ge. split.
    + intros Hle. split; [done|lia].
    + intros [_ ->]. done.
  - split; [discriminate|]. by intros [? _].
Qed.

End Trim.

(** ** How the heap evolves, and histories in turn order *)

Section Heap.

Lemma evolves_refl h : evolves h h.
Proof. intros i m ?. by left. Qed.

Lemma evolves_trans h1 h2 h3 : evolves h1 h2 → evolves h2 h3 → evolves h1 h3.
Proof.
  intros H12 H23 i m Hi.
  destruct (H12 i m Hi) as [H2|H2]; destruct (H23 _ _ H2) as [H3|H3]; auto.
  rewrite clean_message_idemp in H3. auto.
Qed.

Lemma evolves_app h extra : evolves h (h ++ extra).
Proof. intros i m Hi. left. by apply lookup_app_l_Some. Qed.

Lemma evolves_clean history h : evolves h (snd (_cleanHistory history h)).
Proof.
  intros i m Hi. rewrite cleanHistory_lookup, Hi. case_decide; simpl; auto.
Qed.

Lemma evolves_parse input h inputMessages h0 :
  _parseModelInputToBaseMessage input h = (inputMessages, h0) → evolves h h0.
Proof.
  destruct input; simpl; intros [= <- <-]; [apply evolves_app | apply evolves_refl].
Qed.

Lemma evolves_ai h h' a content tool_calls :
  evolves h h' → h !! a = Some (AIMessage content tool_calls) →
  ∃ content', h' !! a = Some (AIMessage content' tool_calls).
Proof.
  intros Hev Ha. destruct (Hev _ _ Ha) as [?|Hc]; [eauto|].
  destruct content; simpl in Hc; eauto.
Qed.

Lemma evolves_answers h h' r tool_call :
  evolves h h' → answers h r tool_call → answers h' r tool_call.
Proof.
  intros Hev (c & st & Hr). exists c, st.
  by destruct (Hev _ _ Hr) as [?|?].
Qed.

Lemma in_turn_order_evolves h h' s :
  evolves h h' → in_turn_order h s → in_turn_order h' s.
Proof.
  intros Hev Hs. induction Hs as [|s a content tool_calls rs Hs IH Ha Hrs].
  - constructor.
  - destruct (evolves_ai _ _ _ _ _ Hev Ha) as [content' Ha'].
    econstructor; [done|done|].
    eapply Forall2_impl; [done|]. intros r tc. by apply evolves_answers.
Qed.

Lemma deref_app h xs ys : deref h (xs ++ ys) = deref h xs ++ deref h ys.
Proof. unfold deref. apply omap_app. Qed.

Lemma deref_answers h rs tool_calls :
  Forall2 (answers h) rs tool_calls →
  length (List.filter is_tool (deref h rs)) = length rs ∧
  length (List.filter is_ai (deref h rs)) = 0%nat.
Proof.
  induction 1 as [|r tc rs tcs (c & st & Hr) _ [IH1 IH2]]; simpl; [done|].
  unfold deref in *. simpl. rewrite Hr. simpl. by rewrite IH1, IH2.
Qed.

Lemma filter_app_length {A} (p : A → bool) (xs ys : list A) :
  length (List.filter p (xs ++ ys)) =
  (length (List.filter p xs) + length (List.filter p ys))%nat.
Proof. by rewrite List.filter_app, length_app. Qed.

(** A history of whole turns holds AI and tool messages only. *)
Lemma in_turn_order_count h s :
  in_turn_order h s → length s = (count is_ai h s + count is_tool h s)%nat.
Proof.
  unfold count. induction 1 as [|s a content tool_calls rs Hs IH Ha Hrs]; [done|].
  destruct (deref_answers _ _ _ Hrs) as [Ht Ha0].
  rewrite deref_app, !filter_app_length, length_app.
  change (a :: rs) with ([a] ++ rs).
  rewrite deref_app, !filter_app_length.
  rewrite Ht, Ha0.
  assert (deref h [a] = [AIMessage content tool_calls]) as ->
    by (unfold deref; simpl; by rewrite Ha).
  simpl. lia.
Qed.

Lemma runToolCall_answers options tool_call :
  ∃ content status,
    fst (runToolCall options tool_call) =
    ToolMessage content (tc_name tool_call) (default "" (tc_id tool_call)) status.
Proof.
  unfold runToolCall, _createToolResponse.
  destruct (find_tool options tool_call) as [t|]; [|simpl; eauto].
  destruct (schema (tool t) (tc_args tool_call)); [|simpl; eauto].
  destruct (invoke_runnable _ _); simpl; eauto.
Qed.

Lemma dispatch_answers options h tool_calls :
  Forall2 (answers (h ++ fst (runToolCallMessage options tool_calls)))
          (seq (length h) (length tool_calls)) tool_calls.
Proof.
  unfold runToolCallMessage. simpl.
  apply Forall2_same_length_lookup. split.
  - by rewrite length_seq.
  - intros i r tc Hr Htc.
    apply lookup_seq in Hr as [-> Hlt].
    destruct (runToolCall_answers options tc) as (c & st & Hmsg).
    exists c, st. rewrite lookup_app_r by lia.
    replace (length h + i - length h)%nat with i by lia.
    rewrite !list_lookup_fmap, Htc. simpl. by rewrite Hmsg.
Qed.

End Heap.

Section Session.
Context {merge : ChunkMerge}.

Lemma detected_completed chunks :
  detected chunks = false → chunk_tool_calls (completed chunks) = [].
Proof.
  unfold detected, completed. intros Hd.
  destruct (last (accumulations empty_chunk chunks)) as [a|] eqn:E; simpl; [|done].
  apply last_Some in E as [l E]. rewrite E in Hd.
  rewrite existsb_app in Hd. apply orb_false_elim in Hd as [_ Hd]. simpl in Hd.
  by destruct (chunk_tool_calls a).
Qed.

Lemma turn_Ok_inv options input initialHistory sessionHistory w yielded next s' w' :
  turn options input initialHistory sessionHistory w = (yielded, Ok (next, s'), w') →
  ∃ inputMessages h0 chunks w1,
    _parseModelInputToBaseMessage input (heap w) = (inputMessages, h0) ∧
    runToolCallingAgent options (initialHistory ++ inputMessages ++ sessionHistory)
      (set_heap h0 w) = (Ok chunks, w1).
Proof.
  destruct (parse_input_world input (heap w)) as (inputMessages & h0 & Hparse).
  destruct (runToolCallingAgent options
              (initialHistory ++ inputMessages ++ sessionHistory) (set_heap h0 w))
    as [[chunks|e] w1] eqn:Hrun; [eauto 10|].
  unfold turn. by rewrite Hparse, Hrun.
Qed.

Lemma turn_Throw_heap options input initialHistory sessionHistory w yielded e w' :
  turn options input initialHistory sessionHistory w = (yielded, Throw e, w') →
  evolves (heap w) (heap w').
Proof.
  intros Hturn.
  destruct (parse_input_world input (heap w)) as (inputMessages & h0 & Hparse).
  destruct (runToolCallingAgent options
              (initialHistory ++ inputMessages ++ sessionHistory) (set_heap h0 w))
    as [[chunks|e'] w1] eqn:Hrun.
  - destruct (turn_unfold _ _ _ _ _ _ _ _ _ Hparse Hrun) as [_ [ys Heq]].
    rewrite Hturn in Heq. by destruct (detected chunks).
  - unfold turn in Hturn. rewrite Hparse, Hrun in Hturn. injection Hturn as _ _ <-.
    apply runToolCallingAgent_Throw in Hrun as [(_ & _ & ->)|(_ & _ & _ & ->)]; simpl;
      by eapply evolves_parse.
Qed.

(** One completed turn keeps the history in turn order and extends it by the
    turn's AI message and its tool messages. *)
Lemma turn_session options input initialHistory sessionHistory w yielded next s' w' :
  turn options input initialHistory sessionHistory w = (yielded, Ok (next, s'), w') →
  evolves (heap w) (heap w') ∧
  ∃ a rs content tool_calls,
    s' = sessionHistory ++ a :: rs ∧
    heap w' !! a = Some (AIMessage content tool_calls) ∧
    Forall2 (answers (heap w')) rs tool_calls.
Proof.
  intros Hturn.
  destruct (turn_Ok_inv _ _ _ _ _ _ _ _ _ Hturn)
    as (inputMessages & h0 & chunks & w1 & Hparse & Hrun).
  destruct (turn_unfold _ _ _ _ _ _ _ _ _ Hparse Hrun) as [Ha [yielded' Heq]].
  rewrite Hturn in Heq.
  pose proof (evolves_parse _ _ _ _ Hparse) as Hev0.
  apply runToolCallingAgent_Ok in Hrun as (_ & bind & _ & _ & Hw1). simpl in Hw1.
  assert (evolves (heap w) (heap w1)) as Hev1.
  { eapply evolves_trans; [done|]. subst w1. simpl. apply evolves_clean. }
  set (h2 := heap w1 ++ as_message empty_chunk
                :: map as_message (accumulations empty_chunk chunks)) in *.
  assert (evolves (heap w) h2) as Hev2.
  { eapply evolves_trans; [done|]. apply evolves_app. }
  destruct (detected chunks) eqn:Hd.
  - injection Heq as _ _ -> ->. simpl. split.
    + eapply evolves_trans; [done|]. apply evolves_app.
    + eexists _, _, _, _. split; [by rewrite <- app_assoc|]. split.
      * apply lookup_app_l_Some. exact Ha.
      * apply dispatch_answers.
  - injection Heq as _ _ -> ->. simpl. split; [done|].
    eexists _, [], _, _. split; [done|]. split; [exact Ha|].
    rewrite (detected_completed _ Hd). constructor.
Qed.

Lemma while_true_session options input initialHistory fuel :
  ∀ sessionHistory w,
    in_turn_order (heap w) sessionHistory →
    let r := while_true fuel options input initialHistory sessionHistory w in
    in_turn_order (heap (final r)) (session r) ∧ evolves (heap w) (heap (final r)).
Proof.
  induction fuel as [|fuel IH]; intros s w Hs; simpl.
  - split; [done|apply evolves_refl].
  - destruct (turn options input (read initialHistory w) s w) as [[ys [[next s1]|e]] w1] eqn:Hturn.
    + destruct (turn_session _ _ _ _ _ _ _ _ _ Hturn)
        as (Hev & a & rs & content & tool_calls & -> & Ha & Hrs).
      assert (in_turn_order (heap w1) (s ++ a :: rs)) as Hs1.
      { econstructor; [|done|done]. by eapply in_turn_order_evolves. }
      destruct next; simpl; [|done].
      destruct (IH _ _ Hs1) as [IH1 IH2]. split; [done|].
      by eapply evolves_trans.
    + simpl. split; [|by eapply turn_Throw_heap].
      eapply in_turn_order_evolves; [|done]. by eapply turn_Throw_heap.
Qed.

(** With more fuel the history of the shorter run is extended. *)
Lemma while_true_session_prefix options input initialHistory fuel :
  ∀ sessionHistory w,
    session (while_true fuel options input initialHistory sessionHistory w)
    `prefix_of`
    session (while_true (S fuel) options input initialHistory sessionHistory w).
Proof.
  induction fuel as [|fuel IH]; intros s w.
  - simpl.
    destruct (turn options input (read initialHistory w) s w) as [[ys [[next s1]|e]] w1] eqn:Hturn;
      [|done].
    destruct (turn_session _ _ _ _ _ _ _ _ _ Hturn) as (_ & a & rs & ? & ? & -> & _).
    destruct next; simpl; by apply prefix_app_r.
  - specialize (IH).
    change (while_true (S (S fuel)) options input initialHistory s w)
      with (match turn options input (read initialHistory w) s w with
            | (yielded, Throw e, w1) => mkRun yielded (Threw e) s w1
            | (yielded, Ok (Break, s1), w1) => mkRun yielded (Returned s1) s1 w1
            | (yielded, Ok (Continue, s1), w1) =>
                let rest := while_true (S fuel) options input initialHistory s1 w1 in
                mkRun (yielded ++ yields rest) (outcome rest) (session rest) (final rest)
            end).
    change (while_true (S fuel) options input initialHistory s w)
      with (match turn options input (read initialHistory w) s w with
            | (yielded, Throw e, w1) => mkRun yielded (Threw e) s w1
            | (yielded, Ok (Break, s1), w1) => mkRun yielded (Returned s1) s1 w1
            | (yielded, Ok (Continue, s1), w1) =>
                let rest := while_true fuel options input initialHistory s1 w1 in
                mkRun (yielded ++ yields rest) (outcome rest) (session rest) (final rest)
            end) at 1.
    destruct (turn options input (read initialHistory w) s w) as [[ys [[next s1]|e]] w1];
      [|done].
    destruct next; [|done]. cbv zeta. cbn [session]. apply IH.
Qed.

End Session.

(** ** What reaches the caller *)

Section Thrown.
Context {merge : ChunkMerge}.

(** With tools whose values are JSON and a model whose streams end, the loop
    throws only when the budget is used up or tools cannot be bound. *)
Lemma while_true_throws options input initialHistory fuel :
  ∀ sessionHistory w e,
    outcome (while_true fuel options input initialHistory sessionHistory w) = Threw e →
    e = budget_error ∨ e = binding_error.
Proof.
  induction fuel as [|fuel IH]; intros s w e; simpl; [done|].
  destruct (turn_budget options input (read initialHistory w) s w)
    as (ys & res & w' & Hturn & Hcases).
  rewrite Hturn.
  destruct Hcases as [(_ & -> & _)|[(_ & _ & -> & _)|(_ & _ & (next & s1 & ->) & _)]];
    simpl.
  - intros [= <-]. by left.
  - intros [= <-]. by right.
  - destruct next; simpl; [apply IH|done].
Qed.

Lemma invoke_throws fuel options input w e :
  fst (invoke fuel options input w) = Threw e →
  e = budget_error ∨ e = binding_error.
Proof.
  unfold invoke, stream. simpl.
  destruct (outcome _) as [s|e'|] eqn:E; try done.
  intros [= ->]. by eapply while_true_throws.
Qed.

(** With such tools and such a model, a turn that reaches the model does not
    throw. *)
Lemma turn_reaches_model options input initialHistory sessionHistory w :
  _callsLeft w ≠ 0 → is_Some (bindTools (llm options)) →
  ∃ yielded next sessionHistory1 w1,
    turn options input initialHistory sessionHistory w =
    (yielded, Ok (next, sessionHistory1), w1).
Proof.
  intros Hne Hbind.
  destruct (turn_budget options input initialHistory sessionHistory w)
    as (ys & res & w' & Hturn & Hcases).
  destruct Hcases as [(H0 & _)|[(_ & Hnone & _)|(_ & _ & (next & s1 & ->) & _)]].
  - done.
  - rewrite Hnone in Hbind. by destruct Hbind.
  - eauto.
Qed.

End Thrown.

(** ** The dispatcher *)

(** All tools a call can resolve to: the tools, then the stop tool. *)
Lemma find_tool_None options tool_call :
  find_tool options tool_call = None ↔
  (∀ t, t ∈ tools options → name t ≠ tc_name tool_call) ∧
  (∀ stop, tool_response options = Some stop → name stop ≠ tc_name tool_call).
Proof.
  unfold find_tool. split.
  - intros Hnone. split.
    + intros t Ht Heq.
      assert (bool_decide (name t = tc_name tool_call) = false) as Hf.
      { apply (List.find_none _ _ Hnone t).
        apply list_elem_of_In, elem_of_app. by left. }
      by rewrite bool_decide_eq_true_2 in Hf.
    + intros stop Hstop Heq. rewrite Hstop in Hnone.
      assert (bool_decide (name stop = tc_name tool_call) = false) as Hf.
      { apply (List.find_none _ _ Hnone stop).
        apply list_elem_of_In, elem_of_app. right. by left. }
      by rewrite bool_decide_eq_true_2 in Hf.
  - intros [Htools Hstop].
    destruct (List.find _ _) as [t|] eqn:Hfind; [|done].
    apply List.find_some in Hfind as [Hin Hname].
    apply bool_decide_eq_true in Hname.
    apply list_elem_of_In, elem_of_app in Hin as [Hin|Hin].
    + by destruct (Htools t Hin).
    + destruct (tool_response options) as [stop|]; [|by apply elem_of_nil in Hin].
      apply list_elem_of_singleton in Hin as ->. by destruct (Hstop stop eq_refl).
Qed.

Lemma find_tool_Some options tool_call findTool :
  find_tool options tool_call = Some findTool →
  name findTool = tc_name tool_call ∧
  (findTool ∈ tools options ∨ tool_response options = Some findTool).
Proof.
  unfold find_tool. intros Hfind.
  apply List.find_some in Hfind as [Hin Hname].
  apply bool_decide_eq_true in Hname. split; [done|].
  apply list_elem_of_In, elem_of_app in Hin as [Hin|Hin]; [by left|right].
  destruct (tool_response options) as [stop|]; [|by apply elem_of_nil in Hin].
  by apply list_elem_of_singleton in Hin as ->.
Qed.

Section DispatcherClaims.
Context {merge : ChunkMerge}.

(** C5, amended. For every tool call whose name resolves to no configured
    tool (the stop tool included), the dispatcher produces a tool message
    with status error whose content is the serialized object
    [{type:"text", text:T}], where [T] is the serialized object
    [{success:false, error:"Tool \"<name>\" was not found."}]; nothing is
    asked of any tool for that call, and no error reaches the caller of
    [invoke] other than the two fatal ones. *)
Theorem unknown_tool_gives_error_message
  (options : RunnableAgentOptions) (tool_call : ToolCall) :
  (∀ t, t ∈ tools options → name t ≠ tc_name tool_call) →
  (∀ stop, tool_response options = Some stop → name stop ≠ tc_name tool_call) →
  runToolCall options tool_call =
  (ToolMessage
     (JSON_stringify
        (JObj [("type", JStr "text");
               ("text", JStr (JSON_stringify
                  (JObj [("success", JBool false);
                         ("error", JStr ("Tool " +:+ String dquote
                            (tc_name tool_call +:+ String dquote " was not found.")))])))]))
     (tc_name tool_call) (default "" (tc_id tool_call)) error,
   []) ∧
  (∀ before after,
     snd (runToolCallMessage options (before ++ tool_call :: after)) =
     snd (runToolCallMessage options before) ++ snd (runToolCallMessage options after)) ∧
  (∀ fuel input w e,
     fst (invoke fuel options input w) = Threw e →
     e = budget_error ∨ e = binding_error).
Proof.
  intros Htools Hstop.
  assert (find_tool options tool_call = None) as Hfind
    by (by apply find_tool_None).
  split; [|split].
  - unfold runToolCall. by rewrite Hfind.
  - intros before after. unfold runToolCallMessage. simpl.
    rewrite !map_app, concat_app. simpl.
    unfold runToolCall at 2. by rewrite Hfind.
  - intros fuel input w e. apply invoke_throws.
Qed.

End DispatcherClaims.

(** C5, as stated, fails: the content of the message for an unknown tool is
    not the serialized object [{success:false, error:...}]. *)
Lemma not_found_content_is_wrapped :
  find_tool Examples.stopping Examples.unknown_call = None ∧
  tool_content (fst (runToolCall Examples.stopping Examples.unknown_call))
  ≠ Some (JSON_stringify
            (JObj [("success", JBool false);
                   ("error", JStr (not_found_text "nope"))])).
Proof. split; [reflexivity|]. vm_compute. discriminate. Qed.


Lemma unknown_tool_gives_error_message_witness :
  (∀ t, t ∈ tools Examples.stopping → name t ≠ "nope") ∧
  (∀ stop, tool_response Examples.stopping = Some stop → name stop ≠ "nope") ∧
  tool_status (fst (runToolCall Examples.stopping Examples.unknown_call)) = Some error.
Proof.
  assert (∀ t, t ∈ tools Examples.stopping → name t ≠ "nope") as Htools.
  { intros t Ht. apply list_elem_of_singleton in Ht as ->. discriminate. }
  assert (∀ stop, tool_response Examples.stopping = Some stop → name stop ≠ "nope")
    as Hstop.
  { intros stop [= <-]. discriminate. }
  split; [exact Htools|]. split; [exact Hstop|].
  rewrite (proj1 (unknown_tool_gives_error_message (merge := Examples.view_concat)
                    Examples.stopping Examples.unknown_call Htools Hstop)).
  reflexivity.
Defined.

(** ** The turn budget *)

Section BudgetClaims.
Context {merge : ChunkMerge}.

(** [stream] enters the loop with the counter and the log as it found them. *)
Lemma stream_start fuel options input w :
  ∃ w1,
    stream fuel options input w =
    while_true fuel options input (getMessages w) [] w1 ∧
    _callsLeft w1 = _callsLeft w ∧ llm_log w1 = llm_log w ∧
    evolves (heap w) (heap w1).
Proof.
  unfold stream. destruct (history w) as [old|] eqn:Hh.
  - destruct (parse_input_world input (heap w)) as (inputMessages & h & Hparse).
    rewrite Hparse. eexists. split; [done|]. simpl.
    split; [done|]. split; [done|]. by eapply evolves_parse.
  - exists w. split; [done|]. split; [done|]. split; [done|]. apply evolves_refl.
Qed.

(** An invocation leaves the counter between 0 and where it found it. *)
Lemma stream_counter_range fuel options input w :
  0 ≤ _callsLeft w →
  0 ≤ _callsLeft (final (stream fuel options input w)) ≤ _callsLeft w.
Proof.
  intros Hpos.
  destruct (stream_start fuel options input w) as (w1 & -> & Hc & _).
  rewrite <- Hc. apply while_true_budget. lia.
Qed.


(** C8, amended. The counter is set to the configured budget when the agent
    is constructed and is shared by all invocations of that agent: no
    invocation sets it anew, each model turn of any invocation takes one from
    it, and so a second invocation has the configured budget less the turns
    of the first. *)
Theorem counter_is_shared_by_invocations
  (options : RunnableAgentOptions) (h : list BaseMessage) (store : option HistoryStore)
  (fuel1 fuel2 : nat) (input1 input2 : BaseLanguageModelInput) :
  is_Some (bindTools (llm options)) →
  let N := default 10 (maxToolCalls options) in
  let w := new_RunnableAgent options h store in
  let first := stream fuel1 options input1 w in
  let second := stream fuel2 options input2 (final first) in
  _callsLeft w = N ∧
  _callsLeft (final first) = N - Z.of_nat (model_turns w (final first)) ∧
  _callsLeft (final second) =
    N - Z.of_nat (model_turns w (final first))
      - Z.of_nat (model_turns (final first) (final second)) ∧
  (0 ≤ N →
   Z.of_nat (model_turns (final first) (final second))
   ≤ N - Z.of_nat (model_turns w (final first))).
Proof.
  intros Hbind N w first second.
  assert (∀ fuel input w0,
            _callsLeft (final (stream fuel options input w0)) =
            _callsLeft w0 - Z.of_nat (model_turns w0 (final (stream fuel options input w0))))
    as Hstep.
  { intros fuel input w0.
    destruct (stream_start fuel options input w0) as (w1 & -> & Hc & Hlog & _).
    pose proof (while_true_counter options input (getMessages w0) fuel [] w1)
      as (_ & _ & Hexact).
    specialize (Hexact Hbind). simpl in Hexact. unfold model_turns in *.
    rewrite Hlog, Hc in Hexact. done. }
  assert (_callsLeft (final first) =
          _callsLeft w - Z.of_nat (model_turns w (final first))) as H1
    by apply Hstep.
  assert (_callsLeft (final second) =
          _callsLeft (final first)
          - Z.of_nat (model_turns (final first) (final second))) as H2
    by apply Hstep.
  assert (_callsLeft w = N) as Hw by done.
  assert (0 ≤ N → 0 ≤ _callsLeft (final second)) as Hr2.
  { intros HN.
    assert (0 ≤ _callsLeft (final first)) as Hr1
      by (apply stream_counter_range; lia).
    by apply stream_counter_range. }
  clearbody first second w N.
  split; [done|]. split; [lia|]. split; [lia|]. intros HN. specialize (Hr2 HN). lia.
Qed.

End BudgetClaims.


(** With a budget below zero the counter never meets 0: the loop of the
    agent whose model always calls a tool runs as long as it is allowed to. *)
Lemma negative_budget_runs_on initialHistory fuel :
  ∀ sessionHistory w,
    _callsLeft w < 0 →
    let r := while_true (merge := Examples.view_concat) fuel Examples.negative_budget
               (InputString "hi") initialHistory sessionHistory w in
    outcome r = Running ∧
    length (llm_log (final r)) = (length (llm_log w) + fuel)%nat.
Proof.
  induction fuel as [|fuel IH]; intros s w Hneg; simpl; [split; [done|lia]|].
  destruct (parse_input_world (InputString "hi") (heap w)) as (im & h0 & Hparse).
  destruct (runToolCallingAgent Examples.negative_budget
              (read initialHistory w ++ im ++ s)
              (set_heap h0 w)) as [[chunks|e] w1] eqn:Hrun.
  - destruct (turn_unfold (merge := Examples.view_concat) _ _ _ _ _ _ _ _ _ Hparse Hrun)
      as [_ [yielded Hturn]].
    apply runToolCallingAgent_Ok in Hrun as (_ & bind & [= <-] & -> & Hw1).
    simpl in Hw1. rewrite Hturn. cbn -[while_true runToolCallMessage].
    match goal with
    | |- context [while_true fuel _ _ _ ?s1 ?w2] =>
        destruct (IH s1 w2) as [Hout Hlen]; [subst w1; simpl; lia|]
    end.
    cbn -[while_true runToolCallMessage] in Hout, Hlen.
    split; [exact Hout|]. rewrite Hlen. subst w1. simpl. rewrite length_app. simpl. lia.
  - apply runToolCallingAgent_Throw in Hrun as [(H0 & _)|(_ & Hnone & _)];
      simpl in *; [lia|discriminate].
Qed.

Section NegativeCounter.
Context {merge : ChunkMerge}.

(** A counter below 0 never meets the test [_callsLeft === 0]. *)
Lemma while_true_negative options input initialHistory fuel :
  ∀ sessionHistory w,
    _callsLeft w < 0 →
    let r := while_true fuel options input initialHistory sessionHistory w in
    outcome r ≠ Threw budget_error ∧ _callsLeft (final r) < 0.
Proof.
  induction fuel as [|fuel IH]; intros s w Hneg; simpl; [done|].
  destruct (turn_budget options input (read initialHistory w) s w)
    as (ys & res & w' & Hturn & Hcases).
  rewrite Hturn.
  destruct Hcases as [(H0 & _)
                     |[(Hne & Hbind & -> & -> & Hlog & Hc)
                      |(Hne & Hbind & (next & s1 & ->) & Hlog & Hc)]]; simpl.
  - lia.
  - split; [discriminate|lia].
  - destruct next; simpl; [apply IH; lia|]. split; [done|lia].
Qed.

(** C1. The guard of a turn tests the counter for being exactly 0, and a
    counter below 0 never passes through 0. For every agent and every world
    whose counter is below 0, as it is on a new agent with a budget below 0:
    an invocation never fails with the budget error, however many iterations
    it is given, and leaves the counter below 0; the model turns it performs
    are as many as the counter went down; and every iteration that finds the
    counter below 0 passes the guard, takes one more from the counter and,
    tools being bindable, streams the model. *)
Theorem negative_budget_is_never_refused
  (options : RunnableAgentOptions) (fuel : nat) (input : BaseLanguageModelInput)
  (w : World) :
  _callsLeft w < 0 →
  let r := stream fuel options input w in
  outcome r ≠ Threw budget_error ∧
  _callsLeft (final r) < 0 ∧
  (is_Some (bindTools (llm options)) →
   Z.of_nat (model_turns w (final r)) = _callsLeft w - _callsLeft (final r)) ∧
  (∀ initialHistory sessionHistory w0,
     _callsLeft w0 < 0 → is_Some (bindTools (llm options)) →
     ∃ yielded next sessionHistory1 w1,
       turn options input initialHistory sessionHistory w0
       = (yielded, Ok (next, sessionHistory1), w1) ∧
       length (llm_log w1) = S (length (llm_log w0)) ∧
       _callsLeft w1 = _callsLeft w0 - 1).
Proof.
  intros Hneg r. subst r.
  destruct (stream_start fuel options input w) as (w1 & -> & Hc & Hlog & _).
  destruct (while_true_negative options input (getMessages w) fuel [] w1) as [Hout Hleft];
    [lia|].
  pose proof (while_true_counter options input (getMessages w) fuel [] w1)
    as (_ & _ & Hexact).
  simpl in *. unfold model_turns in *. rewrite Hlog, Hc in *.
  split; [done|]. split; [done|]. split.
  - intros Hbind. specialize (Hexact Hbind). lia.
  - intros ih s w0 Hneg0 Hbind.
    destruct (turn_budget options input ih s w0) as (ys & res & w' & Hturn & Hcases).
    destruct Hcases as [(H0 & _)
                       |[(_ & Hnone & _)
                        |(_ & _ & (next & s1 & ->) & Hl & Hc')]].
    + lia.
    + rewrite Hnone in Hbind. by destruct Hbind.
    + eauto 10.
Qed.

End NegativeCounter.

(** The agent with budget -1 whose model always calls a tool: no turn is
    refused; however many iterations the loop is given, it streams the model
    in each of them and is still running. *)
Lemma negative_budget_is_never_used_up :
  let options := Examples.negative_budget in
  let w := new_RunnableAgent options [] None in
  maxToolCalls options = Some (-1) ∧
  _callsLeft w < 0 ∧
  (∀ fuel,
     let r := stream (merge := Examples.view_concat) fuel options (InputString "hi") w in
     outcome r = Running ∧ model_turns w (final r) = fuel ∧
     outcome r ≠ Threw budget_error).
Proof.
  intros options w.
  assert (_callsLeft w < 0) as Hneg by (simpl; lia).
  split; [reflexivity|]. split; [exact Hneg|].
  intros fuel r.
  destruct (negative_budget_runs_on (OwnArray []) fuel []
              (new_RunnableAgent Examples.negative_budget [] None)) as [Hout Hlen];
    [exact Hneg|].
  split; [exact Hout|]. split.
  - unfold model_turns.
    change (final r) with
      (final (while_true (merge := Examples.view_concat) fuel Examples.negative_budget
                (InputString "hi") (OwnArray []) []
                (new_RunnableAgent Examples.negative_budget [] None))).
    rewrite Hlen. simpl. lia.
  - exact (proj1 (negative_budget_is_never_refused (merge := Examples.view_concat)
                    options fuel (InputString "hi") w Hneg)).
Defined.

(** C8, as stated, fails: an agent with budget 1 answers a first invocation
    in one turn; its second invocation is refused before the model is
    streamed. *)
Lemma second_invocation_has_less_budget :
  let options := Examples.answering in
  let w := new_RunnableAgent options [] None in
  let first := invoke (merge := Examples.view_concat) 5 options "hi" w in
  let second := invoke (merge := Examples.view_concat) 5 options "again" (snd first) in
  maxToolCalls options = Some 1 ∧
  (∃ response, fst first = Returned response) ∧
  _callsLeft (snd first) = 0 ∧
  fst second = Threw budget_error ∧
  model_turns (snd first) (snd second) = 0%nat.
Proof. vm_compute. repeat split; try reflexivity. eauto. Qed.

Lemma counter_is_shared_by_invocations_witness :
  let options := Examples.answering in
  let w := new_RunnableAgent options [] None in
  let first := stream (merge := Examples.view_concat) 5 options (InputString "hi") w in
  is_Some (bindTools (llm options)) ∧
  _callsLeft (final first) = 1 - Z.of_nat (model_turns w (final first)).
Proof.
  assert (is_Some (bindTools (llm Examples.answering))) as Hbind by (simpl; eauto).
  split; [exact Hbind|].
  exact (proj1 (proj2 (counter_is_shared_by_invocations (merge := Examples.view_concat)
                         Examples.answering [] None 5 5
                         (InputString "hi") (InputString "again") Hbind))).
Defined.

(** ** The streamed turn *)

Section StreamClaims.
Context {merge : ChunkMerge}.

Lemma for_await_app sessionMessages pre post acc h :
  for_await (pre ++ post) sessionMessages acc h =
  let '(acc1, yielded1, h1) := for_await pre sessionMessages acc h in
  let '(acc2, yielded2, h2) := for_await post sessionMessages acc1 h1 in
  (acc2, yielded1 ++ yielded2, h2).
Proof.
  revert acc h. induction pre as [|chunk pre IH]; intros acc h.
  - simpl. by destruct (for_await post sessionMessages acc h) as [[??]?].
  - cbn [app for_await].
    destruct (on_chunk sessionMessages acc chunk h) as [[acc0 ys0] h0].
    rewrite IH.
    destruct (for_await pre sessionMessages acc0 h0) as [[acc1 ys1] h1].
    destruct (for_await post sessionMessages acc1 h1) as [[acc2 ys2] h2].
    by rewrite app_assoc.
Qed.

Lemma for_await_heap sessionMessages chunks acc h acc' yielded h' :
  for_await chunks sessionMessages acc h = (acc', yielded, h') →
  ∃ more, h' = h ++ more.
Proof.
  intros Heq. destruct (for_await_spec sessionMessages chunks acc h) as [ys Hspec].
  rewrite Hspec in Heq. injection Heq as _ _ <-. eauto.
Qed.

(** Once a tool call has been seen, what is yielded shows a tool call. *)
Lemma for_await_detected sessionMessages chunks :
  ∀ acc h acc' yielded h',
    isToolCall acc = true →
    for_await chunks sessionMessages acc h = (acc', yielded, h') →
    ∀ snapshot, snapshot ∈ yielded →
      ∃ r content tool_calls,
        snapshot = sessionMessages ++ [r] ∧
        h' !! r = Some (AIMessage content tool_calls) ∧ tool_calls ≠ [].
Proof.
  induction chunks as [|chunk rest IH]; intros acc h acc' yielded h' Hlatch; simpl.
  - intros [= <- <- <-] snapshot Hin. by apply elem_of_nil in Hin.
  - unfold on_chunk, alloc. rewrite Hlatch. simpl.
    destruct (for_await rest sessionMessages _ _) as [[acc2 ys2] h2] eqn:Hrest.
    intros [= <- <- <-] snapshot Hin.
    apply elem_of_app in Hin as [Hin|Hin].
    + destruct (chunk_tool_calls (concat (agentResponse acc) chunk)) as [|tc tcs] eqn:Htc;
        simpl in Hin; [by apply elem_of_nil in Hin|].
      apply list_elem_of_singleton in Hin as ->.
      destruct (for_await_heap _ _ _ _ _ _ _ Hrest) as [more ->].
      eexists _, _, _. split; [done|]. split.
      * rewrite <- app_assoc. apply list_lookup_middle. done.
      * unfold as_message. rewrite Htc. done.
    + eapply IH; [|exact Hrest|exact Hin]. done.
Qed.

(** C7, amended. For every streamed turn, split at any point after which
    [isToolCall] is set: every snapshot yielded from then on ends with the
    accumulated AI message, and that message has a tool call. The same holds
    for what the iteration that sets [isToolCall] yields. *)
Theorem snapshots_after_detection_show_tool_calls
  (sessionMessages : list ref) (before after : list AIMessageChunk)
  (acc : Accumulator) (h : list BaseMessage) :
  let '(acc1, yielded1, h1) := for_await before sessionMessages acc h in
  let '(acc2, yielded2, h2) := for_await after sessionMessages acc1 h1 in
  for_await (before ++ after) sessionMessages acc h = (acc2, yielded1 ++ yielded2, h2) ∧
  (isToolCall acc1 = true →
   isToolCall acc2 = true ∧
   ∀ snapshot, snapshot ∈ yielded2 →
     ∃ r content tool_calls,
       last snapshot = Some r ∧
       h2 !! r = Some (AIMessage content tool_calls) ∧ tool_calls ≠ []) ∧
  (∀ chunk,
     let '(acc3, yielded3, h3) := on_chunk sessionMessages acc chunk h in
     isToolCall acc3 = true →
     ∀ snapshot, snapshot ∈ yielded3 →
       ∃ r content tool_calls,
         last snapshot = Some r ∧
         h3 !! r = Some (AIMessage content tool_calls) ∧ tool_calls ≠ []).
Proof.
  pose proof (for_await_app sessionMessages before after acc h) as Happ.
  destruct (for_await before sessionMessages acc h) as [[acc1 ys1] h1] eqn:H1.
  destruct (for_await after sessionMessages acc1 h1) as [[acc2 ys2] h2] eqn:H2.
  split; [exact Happ|]. split.
  - intros Hlatch. split.
    + destruct (for_await_spec sessionMessages after acc1 h1) as [ys Hspec].
      rewrite Hspec in H2. injection H2 as <- _ _. simpl. by rewrite Hlatch.
    + intros snapshot Hin.
      destruct (for_await_detected _ _ _ _ _ _ _ Hlatch H2 snapshot Hin)
        as (r & content & tool_calls & -> & Hr & Hne).
      exists r, content, tool_calls. by rewrite last_snoc.
  - intros chunk. unfold on_chunk, alloc. simpl.
    intros Hlatch snapshot Hin. rewrite Hlatch in Hin.
    destruct (chunk_tool_calls (concat (agentResponse acc) chunk)) as [|tc tcs] eqn:Htc;
      simpl in Hin; [by apply elem_of_nil in Hin|].
    apply list_elem_of_singleton in Hin as ->.
    eexists _, _, _. rewrite last_snoc. split; [done|]. split.
    + by apply list_lookup_middle.
    + unfold as_message. rewrite Htc. done.
Qed.

End StreamClaims.

(** A stream whose second fragment shows no tool call: after the first
    fragment nothing is yielded for it. *)
Lemma snapshots_after_detection_show_tool_calls_witness :
  let '(acc1, yielded1, h1) :=
    for_await (merge := Examples.view_concat)
      [Examples.call_chunk [Examples.call "c1" "echo" (JObj [])]] []
      (mkAcc empty_chunk 0 false) [as_message empty_chunk] in
  let '(acc2, yielded2, h2) :=
    for_await (merge := Examples.view_concat)
      [Examples.call_chunk []; Examples.call_chunk [Examples.call "c1" "echo" Examples.ping]]
      [] acc1 h1 in
  isToolCall acc1 = true ∧
  isToolCall acc2 = true ∧
  yielded2 = [[3%nat]].
Proof.
  pose proof (snapshots_after_detection_show_tool_calls (merge := Examples.view_concat)
                []
                [Examples.call_chunk [Examples.call "c1" "echo" (JObj [])]]
                [Examples.call_chunk [];
                 Examples.call_chunk [Examples.call "c1" "echo" Examples.ping]]
                (mkAcc empty_chunk 0 false) [as_message empty_chunk]) as Hthm.
  vm_compute in Hthm. vm_compute.
  destruct Hthm as (_ & Hafter & _).
  split; [reflexivity|]. split; [exact (proj1 (Hafter eq_refl))|reflexivity].
Defined.

(** C7, as stated, fails: a snapshot that shows a call with partial
    arguments is yielded after a tool call has been seen. The arguments of the
    call arrive in three steps; the first fragment sets [isToolCall], and the
    snapshot of the second fragment shows the call with the arguments
    [{text:"pi"}], which are not the arguments [{text:"ping"}] of the call in
    the completed message. *)
Lemma partial_arguments_are_emitted :
  let '(acc1, yielded1, h1) :=
    for_await (merge := Examples.view_concat) (take 1 MoreExamples.growing) []
      (mkAcc empty_chunk 0 false) [as_message empty_chunk] in
  let '(acc2, yielded2, h2) :=
    for_await (merge := Examples.view_concat) (drop 1 MoreExamples.growing) [] acc1 h1 in
  isToolCall acc1 = true ∧
  chunk_tool_calls (completed (merge := Examples.view_concat) MoreExamples.growing)
  = [Examples.call "c1" "echo" Examples.ping] ∧
  yielded2 = [[2%nat]; [3%nat]] ∧
  h2 !! 2%nat
  = Some (AIMessage (ContentString "")
            [Examples.call "c1" "echo" (JObj [("text", JStr "pi")])]) ∧
  JObj [("text", JStr "pi")] ≠ Examples.ping.
Proof. vm_compute. repeat split; try reflexivity. discriminate. Qed.

(** ** How a turn ends *)

Section TurnClaims.
Context {merge : ChunkMerge}.


Lemma while_true_returned options input initialHistory fuel :
  ∀ sessionHistory w returned,
    outcome (while_true fuel options input initialHistory sessionHistory w)
    = Returned returned →
    returned = session (while_true fuel options input initialHistory sessionHistory w).
Proof.
  induction fuel as [|fuel IH]; intros s w returned; simpl; [done|].
  destruct (turn options input (read initialHistory w) s w) as [[ys [[next s1]|e]] w1]; [|done].
  destruct next; simpl; [apply IH|]. by intros [= ->].
Qed.

(** C9. However many iterations the loop is given, the session history is
    made of whole turns in their order, each the AI message of the turn
    followed by the tool messages for its tool calls; its length is the number
    of its AI messages plus the number of its tool messages; with one more
    iteration it is extended, never shortened; and every completed turn
    appends its AI message and then its tool messages to a history in turn
    order, leaving it in turn order. *)
Theorem session_history_is_in_turn_order
  (fuel : nat) (options : RunnableAgentOptions) (input : BaseLanguageModelInput)
  (w : World) :
  let r := stream fuel options input w in
  in_turn_order (heap (final r)) (session r) ∧
  length (session r)
  = (count is_ai (heap (final r)) (session r)
     + count is_tool (heap (final r)) (session r))%nat ∧
  session r `prefix_of` session (stream (S fuel) options input w) ∧
  (∀ returned, outcome r = Returned returned → returned = session r) ∧
  (∀ initialHistory sessionHistory w0 yielded next sessionHistory1 w1,
     in_turn_order (heap w0) sessionHistory →
     turn options input initialHistory sessionHistory w0
     = (yielded, Ok (next, sessionHistory1), w1) →
     in_turn_order (heap w1) sessionHistory1 ∧
     (length sessionHistory ≤ length sessionHistory1)%nat ∧
     ∃ a rs content tool_calls,
       sessionHistory1 = sessionHistory ++ a :: rs ∧
       heap w1 !! a = Some (AIMessage content tool_calls) ∧
       Forall2 (answers (heap w1)) rs tool_calls).
Proof.
  intros r. subst r.
  assert (in_turn_order (heap (final (stream fuel options input w)))
            (session (stream fuel options input w))) as Horder.
  { destruct (stream_start fuel options input w) as (w1 & -> & _).
    apply while_true_session. constructor. }
  split; [exact Horder|]. split; [by apply in_turn_order_count|]. split; [|split].
  - unfold stream. apply while_true_session_prefix.
  - unfold stream. apply while_true_returned.
  - intros ih s w0 ys next s1 w1 Hs Hturn.
    destruct (turn_session _ _ _ _ _ _ _ _ _ Hturn)
      as (Hev & a & rs & content & tool_calls & -> & Ha & Hrs).
    split; [|split].
    + econstructor; [|done|done]. by eapply in_turn_order_evolves.
    + rewrite length_app. lia.
    + eauto 10.
Qed.

(** What the callback of the outer filter does, said with [blank]. *)
Lemma clean_message_blank m :
  clean_message m =
  match m with
  | AIMessage (ContentBlocks blocks) tool_calls =>
      AIMessage
        (ContentBlocks
           (List.filter
              (λ b, negb (bool_decide (cb_type b = "text") && blank (cb_text b)))
              blocks))
        tool_calls
  | _ => m
  end.
Proof.
  destruct m as [c|c tcs|????|??]; try done. destruct c as [|blocks]; [done|].
  simpl. do 2 f_equal. apply List.filter_ext. intros b.
  destruct (keep_block b) eqn:Hk.
  - symmetry. apply negb_true_iff. apply not_true_is_false. intros Hb.
    apply andb_true_iff in Hb as [Ht Hb]. apply bool_decide_eq_true in Ht.
    assert (keep_block b = false) as Hf by (by apply keep_block_blank).
    congruence.
  - apply keep_block_blank in Hk as [Ht Hb].
    by rewrite Hb, bool_decide_eq_true_2.
Qed.

Lemma deref_cleaned (messages : list ref) (h h' : list BaseMessage) :
  (∀ r, r ∈ messages → h' !! r = clean_message <$> h !! r) →
  deref h' messages = map clean_message (deref h messages).
Proof.
  unfold deref. induction messages as [|r rest IH]; intros Hl; [done|].
  cbn [omap list_omap]. rewrite (Hl r) by (by left).
  rewrite IH by (intros; apply Hl; by right).
  by destruct (h !! r).
Qed.

End TurnClaims.



(** One turn of the agent whose tool raises. *)
Lemma session_history_is_in_turn_order_witness :
  let options := Examples.failing in
  let w := new_RunnableAgent options [] None in
  let r := stream (merge := Examples.view_concat) 5 options (InputString "hi") w in
  in_turn_order (heap w) [] ∧
  in_turn_order (heap (final r)) (session r) ∧
  deref (heap (final r)) (session r) =
  [AIMessage (ContentString "") Examples.fail_then_echo;
   ToolMessage (JSON_stringify (JObj [("error", JStr "boom")])) "fail" "c1" error;
   ToolMessage (JSON_stringify (JObj [("echoed", JStr "ping")])) "echo" "c2" success;
   AIMessage (ContentString "done") []].
Proof.
  intros options w r. split; [constructor|]. split; [|reflexivity].
  exact (proj1 (session_history_is_in_turn_order (merge := Examples.view_concat)
                  5 options (InputString "hi") w)).
Defined.

(** ** What the stream shows of the session history *)

Section Snapshots.
Context {merge : ChunkMerge}.

(** Every snapshot of a turn is the session history of before the turn and
    one accumulated AI message. *)
Lemma for_await_yields sessionMessages chunks :
  ∀ acc h acc' yielded h',
    for_await chunks sessionMessages acc h = (acc', yielded, h') →
    ∀ snapshot, snapshot ∈ yielded → ∃ r, snapshot = sessionMessages ++ [r].
Proof.
  induction chunks as [|chunk rest IH]; intros acc h acc' yielded h'.
  - intros [= <- <- <-] snapshot Hin. by apply elem_of_nil in Hin.
  - cbn [for_await].
    destruct (on_chunk sessionMessages acc chunk h) as [[acc1 ys1] h1] eqn:Hchunk.
    destruct (for_await rest sessionMessages acc1 h1) as [[acc2 ys2] h2] eqn:Hrest.
    intros [= <- <- <-] snapshot Hin.
    apply elem_of_app in Hin as [Hin|Hin]; [|by eapply IH].
    unfold on_chunk, alloc in Hchunk. injection Hchunk as _ <- _.
    repeat case_match; try (by apply elem_of_nil in Hin);
      apply list_elem_of_singleton in Hin as ->; eauto.
Qed.

Lemma turn_yields options input initialHistory sessionHistory w yielded res w' :
  turn options input initialHistory sessionHistory w = (yielded, res, w') →
  ∀ snapshot, snapshot ∈ yielded → length snapshot = S (length sessionHistory).
Proof.
  unfold turn.
  destruct (_parseModelInputToBaseMessage input (heap w)) as [im h0].
  destruct (runToolCallingAgent _ _ _) as [[chunks|e] w1].
  - unfold alloc.
    destruct (for_await chunks sessionHistory _ _) as [[acc ys] h2] eqn:Hfor.
    intros Heq snapshot Hin.
    assert (yielded = ys) as ->.
    { destruct (isToolCall acc); [|by injection Heq].
      destruct (runToolCallMessage _ _) as [toolResponse effects].
      destruct (alloc_all _ _) as [rs h3].
      destruct (tool_response options); [destruct (existsb _ _)|]; by injection Heq. }
    destruct (for_await_yields _ _ _ _ _ _ _ Hfor snapshot Hin) as [r ->].
    rewrite length_app. simpl. lia.
  - intros [= <- _ _] snapshot Hin. by apply elem_of_nil in Hin.
Qed.

(** A run that has returned has completed a turn. *)
Lemma while_true_returned_longer options input initialHistory fuel :
  ∀ sessionHistory w returned,
    outcome (while_true fuel options input initialHistory sessionHistory w)
    = Returned returned →
    (length sessionHistory < length returned)%nat.
Proof.
  induction fuel as [|fuel IH]; intros s w returned; simpl; [done|].
  destruct (turn options input (read initialHistory w) s w)
    as [[ys [[next s1]|e]] w1] eqn:Hturn; [|done].
  destruct (turn_session _ _ _ _ _ _ _ _ _ Hturn) as (_ & a & rs & ? & ? & -> & _).
  destruct next; simpl.
  - intros Hout. apply IH in Hout. rewrite length_app in Hout. lia.
  - intros [= <-]. rewrite length_app. simpl. lia.
Qed.

(** When the returned session history ends with a tool message, every
    snapshot that was yielded is shorter than it. *)
Lemma while_true_snapshots_short options input initialHistory fuel :
  ∀ sessionHistory w returned,
    let r := while_true fuel options input initialHistory sessionHistory w in
    outcome r = Returned returned →
    (∃ last_ref m, last returned = Some last_ref ∧
                   heap (final r) !! last_ref = Some m ∧ is_tool m = true) →
    ∀ snapshot, snapshot ∈ yields r → (length snapshot < length returned)%nat.
Proof.
  induction fuel as [|fuel IH]; intros s w returned; simpl; [done|].
  destruct (turn options input (read initialHistory w) s w)
    as [[ys [[next s1]|e]] w1] eqn:Hturn; [|done].
  pose proof (turn_yields _ _ _ _ _ _ _ _ Hturn) as Hys.
  destruct (turn_session _ _ _ _ _ _ _ _ _ Hturn)
    as (_ & a & rs & content & tool_calls & -> & Ha & Hrs).
  destruct next; simpl.
  - intros Hout Hlast snapshot Hin.
    apply elem_of_app in Hin as [Hin|Hin]; [|by eapply IH].
    apply while_true_returned_longer in Hout. rewrite length_app in Hout. simpl in Hout.
    rewrite (Hys _ Hin). lia.
  - intros [= <-] (last_ref & m & Hlast & Hm & Htool) snapshot Hin.
    rewrite (Hys _ Hin), length_app. simpl.
    destruct rs as [|r rs]; [|simpl; lia].
    rewrite last_snoc in Hlast. injection Hlast as <-.
    rewrite Ha in Hm. injection Hm as <-. discriminate.
Qed.

(** C2, on the path that ends with the stop tool. Whenever the generator
    returns a session history that ends with a tool message (the loop was
    ended by the stop tool, after the tool messages of that turn were added),
    every snapshot that was yielded is shorter than that session history: the
    last element of the stream is not the final session history, and what
    [invoke] returns is a snapshot without the tool messages of the last
    turn. *)
Theorem stop_path_result_lacks_tool_messages
  (fuel : nat) (options : RunnableAgentOptions) (input : string) (w : World)
  (returned : list ref) :
  let run := stream fuel options (InputString input) w in
  outcome run = Returned returned →
  (∃ last_ref m, last returned = Some last_ref ∧
                 heap (final run) !! last_ref = Some m ∧ is_tool m = true) →
  (∀ snapshot, snapshot ∈ yields run → (length snapshot < length returned)%nat) ∧
  last (yields run) ≠ Some returned ∧
  ∃ response,
    fst (invoke fuel options input w) = Returned response ∧
    (length response < length returned)%nat.
Proof.
  intros run Hout Hlast.
  assert (∀ snapshot, snapshot ∈ yields run →
            (length snapshot < length returned)%nat) as Hshort.
  { subst run. unfold stream in *. by eapply while_true_snapshots_short. }
  split; [exact Hshort|]. split.
  - intros Heq. apply last_Some in Heq as [l Heq].
    assert (returned ∈ yields run) as Hin
      by (rewrite Heq; apply elem_of_app; right; by left).
    specialize (Hshort _ Hin). lia.
  - unfold invoke. fold run. rewrite Hout. simpl. eexists. split; [done|].
    destruct (last (yields run)) as [snapshot|] eqn:Hl; simpl.
    + apply last_Some in Hl as [l Hl]. apply Hshort. rewrite Hl.
      apply elem_of_app. right. by left.
    + destruct Hlast as (last_ref & _ & Hsome & _).
      destruct returned; [done|simpl; lia].
Qed.

End Snapshots.

(** The model calls [echo] and [stop] in its first turn. The session history
    that the generator returns holds the AI message and both tool messages;
    the only snapshot that is yielded holds the AI message alone, and that
    snapshot is what [invoke] returns. *)
Lemma stop_path_result_lacks_tool_messages_witness :
  let options := Examples.stopping in
  let w := new_RunnableAgent options [] None in
  let run := stream (merge := Examples.view_concat) 5 options (InputString "hi") w in
  outcome run = Returned [2%nat; 3%nat; 4%nat] ∧
  deref (heap (final run)) [2%nat; 3%nat; 4%nat] =
  [AIMessage (ContentString "")
     [Examples.call "c1" "echo" Examples.ping; Examples.call "c2" "stop" (JObj [])];
   ToolMessage (JSON_stringify (JObj [("echoed", JStr "ping")])) "echo" "c1" success;
   ToolMessage (JSON_stringify (JObj [("done", JBool true)])) "stop" "c2" success] ∧
  yields run = [[2%nat]] ∧
  fst (invoke (merge := Examples.view_concat) 5 options "hi" w) = Returned [2%nat] ∧
  last (yields run) ≠ Some [2%nat; 3%nat; 4%nat].
Proof.
  intros options w run.
  split; [reflexivity|]. split; [reflexivity|]. split; [reflexivity|].
  split; [reflexivity|].
  refine (proj1 (proj2 (stop_path_result_lacks_tool_messages
                          (merge := Examples.view_concat)
                          5 options "hi" w [2%nat; 3%nat; 4%nat] eq_refl _))).
  eexists 4%nat, _. split; [reflexivity|]. split; reflexivity.
Defined.

(** * Further properties of the loop *)

Section LoopExtras.
Context {merge : ChunkMerge}.

(** ** The history store *)

(** What one iteration does to the history store. *)
Lemma turn_store options input initialHistory sessionHistory w yielded res w' :
  turn options input initialHistory sessionHistory w = (yielded, res, w') →
  match res with
  | Ok (_, sessionHistory1) =>
      ∃ added, sessionHistory1 = sessionHistory ++ added ∧
               history w' = grown added <$> history w
  | Throw _ => history w' = history w
  end.
Proof.
  intros Hturn.
  destruct (parse_input_world input (heap w)) as (inputMessages & h0 & Hparse).
  destruct (runToolCallingAgent options
              (initialHistory ++ inputMessages ++ sessionHistory) (set_heap h0 w))
    as [[chunks|e] w1] eqn:Hrun.
  - destruct (turn_unfold _ _ _ _ _ _ _ _ _ Hparse Hrun) as [_ [ys Heq]].
    rewrite Hturn in Heq.
    apply runToolCallingAgent_Ok in Hrun as (_ & bind & _ & _ & Hw1). simpl in Hw1.
    destruct (detected chunks); injection Heq as _ -> ->; subst w1; simpl.
    + eexists. split; [by rewrite <- app_assoc|].
      destruct (history w) as [store|]; simpl; [|done].
      unfold grown. simpl. by rewrite <- app_assoc.
    + eexists. split; [done|]. by destruct (history w).
  - unfold turn in Hturn. rewrite Hparse, Hrun in Hturn. injection Hturn as _ <- <-.
    by apply runToolCallingAgent_Throw in Hrun as [(_ & _ & ->)|(_ & _ & _ & ->)].
Qed.

Lemma while_true_store options input initialHistory fuel :
  ∀ sessionHistory w,
    let r := while_true fuel options input initialHistory sessionHistory w in
    ∃ added, session r = sessionHistory ++ added ∧
             history (final r) = grown added <$> history w.
Proof.
  induction fuel as [|fuel IH]; intros s w; simpl.
  - exists []. split; [by rewrite app_nil_r|].
    destruct (history w) as [[]|]; simpl; [|done]. unfold grown. simpl.
    by rewrite app_nil_r.
  - destruct (turn options input (read initialHistory w) s w)
      as [[ys [[next s1]|e]] w1] eqn:Hturn.
    + apply turn_store in Hturn as (added & -> & Hstore).
      destruct next; simpl; [|eauto].
      destruct (IH (s ++ added) w1) as (more & Hs & Hh). simpl in Hs, Hh.
      exists (added ++ more). split; [by rewrite Hs, app_assoc|].
      rewrite Hh, Hstore. destruct (history w) as [store|]; simpl; [|done].
      unfold grown. simpl. by rewrite app_assoc.
    + apply turn_store in Hturn. simpl. exists []. split; [by rewrite app_nil_r|].
      rewrite Hturn. destruct (history w) as [[]|]; simpl; [|done]. unfold grown. simpl.
      by rewrite app_nil_r.
Qed.

(** X1. When a history store is configured, whatever way an invocation
    ends (it returns, it throws, it is cut off), the store then holds what it
    held before, then the messages of the input, then the session history, and
    nothing else. *)
Theorem store_holds_input_and_session
  (fuel : nat) (options : RunnableAgentOptions) (input : BaseLanguageModelInput)
  (w : World) (store : HistoryStore) :
  history w = Some store →
  let r := stream fuel options input w in
  history (final r)
  = Some (mkStore
            (stored store
             ++ fst (_parseModelInputToBaseMessage input (heap w)) ++ session r)
            (shares_array store)).
Proof.
  intros Hstore r. subst r. unfold stream. rewrite Hstore.
  destruct (_parseModelInputToBaseMessage input (heap w)) as [inputMessages h] eqn:Hparse.
  match goal with
  | |- context [while_true fuel options input ?ih [] ?w1] =>
      destruct (while_true_store options input ih fuel [] w1) as (added & Hs & Hh)
  end.
  simpl in Hs, Hh. rewrite Hh, Hs. simpl. rewrite Hstore. simpl.
  unfold grown. simpl. by rewrite <- app_assoc.
Qed.

Lemma while_true_no_store options input initialHistory fuel sessionHistory w :
  history w = None →
  history (final (while_true fuel options input initialHistory sessionHistory w)) = None.
Proof.
  intros Hnone.
  destruct (while_true_store options input initialHistory fuel sessionHistory w)
    as (added & _ & Hh).
  simpl in Hh. by rewrite Hh, Hnone.
Qed.

(** ** Objects that exist before an invocation *)

Lemma while_true_evolves options input initialHistory fuel :
  ∀ sessionHistory w,
    evolves (heap w)
      (heap (final (while_true fuel options input initialHistory sessionHistory w))).
Proof.
  induction fuel as [|fuel IH]; intros s w; simpl; [apply evolves_refl|].
  destruct (turn options input (read initialHistory w) s w)
    as [[ys [[next s1]|e]] w1] eqn:Hturn.
  - destruct (turn_session _ _ _ _ _ _ _ _ _ Hturn) as (Hev & _).
    destruct next; simpl; [|done]. eapply evolves_trans; [done|apply IH].
  - simpl. by eapply turn_Throw_heap.
Qed.

Lemma stream_evolves fuel options input w :
  evolves (heap w) (heap (final (stream fuel options input w))).
Proof.
  destruct (stream_start fuel options input w) as (w1 & -> & _ & _ & Hev).
  eapply evolves_trans; [done|apply while_true_evolves].
Qed.

(** X2. An invocation removes no message object and replaces none. A
    message that exists before is afterwards the same or its cleaned form:
    human, tool and other messages and AI messages with string content are
    unchanged, and an AI message keeps its tool calls. *)
Theorem invocation_keeps_existing_messages
  (fuel : nat) (options : RunnableAgentOptions) (input : BaseLanguageModelInput)
  (w : World) (i : ref) (m : BaseMessage) :
  heap w !! i = Some m →
  let h := heap (final (stream fuel options input w)) in
  (length (heap w) ≤ length h)%nat ∧
  ∃ m',
    h !! i = Some m' ∧
    (m' = m ∨ m' = clean_message m) ∧
    (is_ai m = false → m' = m) ∧
    (∀ text tool_calls, m = AIMessage (ContentString text) tool_calls → m' = m) ∧
    (∀ content tool_calls,
       m = AIMessage content tool_calls → ∃ content', m' = AIMessage content' tool_calls).
Proof.
  intros Hi h. pose proof (stream_evolves fuel options input w) as Hev. fold h in Hev.
  split.
  - destruct (decide (length (heap w) ≤ length h)%nat) as [|Hlt]; [done|].
    assert (is_Some (heap w !! (length (heap w) - 1)%nat)) as [m0 Hm0].
    { apply lookup_lt_is_Some. apply lookup_lt_Some in Hi. lia. }
    destruct (Hev _ _ Hm0) as [Hl|Hl]; apply lookup_lt_Some in Hl; lia.
  - destruct (Hev _ _ Hi) as [Hm|Hm].
    + exists m. split; [done|]. split; [by left|]. split; [done|]. split; [done|].
      intros content tool_calls ->. eauto.
    + exists (clean_message m). split; [done|]. split; [by right|].
      split; [by destruct m|]. split; [by intros ? ? ->|].
      intros content tool_calls ->. destruct content; simpl; eauto.
Qed.

(** ** Fatal errors *)

(** X3. When the model has no [bindTools], an invocation that is given at
    least one iteration throws in its first turn without yielding a snapshot
    and without streaming the model: the budget error when the counter is 0,
    and otherwise the binding error, after one unit of the budget has been
    taken. *)
Theorem unbindable_model_is_fatal
  (fuel : nat) (options : RunnableAgentOptions) (input : BaseLanguageModelInput)
  (w : World) :
  bindTools (llm options) = None →
  let r := stream (S fuel) options input w in
  yields r = [] ∧ session r = [] ∧ llm_log (final r) = llm_log w ∧
  if decide (_callsLeft w = 0)
  then outcome r = Threw budget_error ∧ _callsLeft (final r) = 0
  else outcome r = Threw binding_error ∧ _callsLeft (final r) = _callsLeft w - 1.
Proof.
  intros Hnone r. subst r.
  destruct (stream_start (S fuel) options input w) as (w1 & -> & Hc & Hlog & _).
  simpl.
  destruct (turn_budget options input (read (getMessages w) w1) [] w1)
    as (ys & res & w' & Hturn & Hcases).
  rewrite Hturn.
  destruct Hcases as [(H0 & -> & -> & Hl & Hc')
                     |[(Hne & _ & -> & -> & Hl & Hc')
                      |(_ & Hsome & _)]]; simpl.
  - rewrite decide_True by lia. rewrite Hl, Hlog. done.
  - rewrite decide_False by lia. rewrite Hl, Hlog, Hc', Hc. done.
  - rewrite Hnone in Hsome. by destruct Hsome.
Qed.

End LoopExtras.

Lemma store_holds_input_and_session_witness :
  let options := Examples.failing in
  let w := new_RunnableAgent options [Examples.spaced] (Some (mkStore [0%nat] true)) in
  let r := stream (merge := Examples.view_concat) 5 options (InputString "hi") w in
  history w = Some (mkStore [0%nat] true) ∧
  session r = [4%nat; 5%nat; 6%nat; 9%nat] ∧
  history (final r)
  = Some (mkStore [0%nat; 1%nat; 4%nat; 5%nat; 6%nat; 9%nat] true).
Proof.
  intros options w r. split; [reflexivity|]. split; [reflexivity|].
  exact (store_holds_input_and_session (merge := Examples.view_concat)
           5 options (InputString "hi") w (mkStore [0%nat] true) eq_refl).
Defined.

Lemma invocation_keeps_existing_messages_witness :
  let options := Examples.answering in
  let w := new_RunnableAgent options [Examples.spaced] (Some (mkStore [0%nat] true)) in
  heap w !! 0%nat = Some Examples.spaced ∧
  (length (heap w)
   ≤ length (heap (final (stream (merge := Examples.view_concat) 5 options
                             (InputString "hi") w))))%nat.
Proof.
  intros options w. split; [reflexivity|].
  exact (proj1 (invocation_keeps_existing_messages (merge := Examples.view_concat)
                  5 options (InputString "hi") w 0%nat Examples.spaced eq_refl)).
Defined.

Lemma unbindable_model_is_fatal_witness :
  let options := MoreExamples.unbindable in
  let w := new_RunnableAgent options [] None in
  let r := stream (merge := Examples.view_concat) 3 options (InputString "hi") w in
  bindTools (llm options) = None ∧
  outcome r = Threw binding_error ∧ _callsLeft (final r) = 9.
Proof.
  intros options w r. split; [reflexivity|].
  exact (proj2 (proj2 (proj2 (unbindable_model_is_fatal (merge := Examples.view_concat)
                                2 options (InputString "hi") w eq_refl)))).
Defined.

(** ** The caller's history *)

Section CallerHistory.
Context {merge : ChunkMerge}.

(** The model call of one turn. *)
Lemma turn_streams_cleaned_history
  (options : RunnableAgentOptions) (input : BaseLanguageModelInput)
  (initialHistory sessionHistory : list ref) (w : World)
  (inputMessages : list ref) (h0 : list BaseMessage)
  (chunks : list AIMessageChunk) (w1 : World) :
  _parseModelInputToBaseMessage input (heap w) = (inputMessages, h0) →
  runToolCallingAgent options (initialHistory ++ inputMessages ++ sessionHistory)
    (set_heap h0 w) = (Ok chunks, w1) →
  let combined := initialHistory ++ inputMessages ++ sessionHistory in
  let streamed := map clean_message (deref h0 combined) in
  llm_log w1 = llm_log w ++ [streamed] ∧
  (∃ bind,
     bindTools (llm options) = Some bind ∧
     chunks = bind (bind_inputs options)
                (match tool_response options with Some _ => any | None => auto end)
                (length (llm_log w)) streamed) ∧
  length streamed = length (deref h0 combined) ∧
  fst (_cleanHistory combined h0) = combined ∧
  length (heap w1) = length h0 ∧
  (∀ r, r ∈ combined → heap w1 !! r = clean_message <$> h0 !! r) ∧
  (∀ r, r ∉ combined → heap w1 !! r = h0 !! r) ∧
  (∀ r m, r ∈ initialHistory → heap w !! r = Some m →
          heap w1 !! r = Some (clean_message m)).
Proof.
  intros Hparse Hrun combined streamed.
  apply runToolCallingAgent_Ok in Hrun as (_ & bind & Hbind & Hchunks & Hw1).
  simpl in Hchunks, Hw1.
  assert (∀ r, r ∈ combined →
            snd (_cleanHistory combined h0) !! r = clean_message <$> h0 !! r) as Hin.
  { intros r Hr. rewrite cleanHistory_lookup. by rewrite decide_True. }
  assert (deref (snd (_cleanHistory combined h0)) combined = streamed) as Hstreamed
    by (by apply deref_cleaned).
  fold combined in Hchunks, Hw1. rewrite Hstreamed in Hchunks, Hw1.
  subst w1. simpl.
  split; [done|]. split; [eauto|]. split; [by unfold streamed; rewrite length_map|].
  split; [apply cleanHistory_fst|].
  split; [apply cleanHistory_length|]. split; [exact Hin|]. split.
  - intros r Hr. rewrite cleanHistory_lookup. by rewrite decide_False.
  - intros r m Hr Hm. rewrite Hin.
    + assert (h0 !! r = Some m) as ->; [|done].
      destruct input; simpl in Hparse; injection Hparse as <- <-; [|done].
      by apply lookup_app_l_Some.
    + unfold combined. apply elem_of_app. by left.
Qed.

(** What one iteration adds to the log of model calls, and what it does to
    the objects of the combined history. *)
Lemma turn_model options input initialHistory sessionHistory w yielded res w' :
  turn options input initialHistory sessionHistory w = (yielded, res, w') →
  (llm_log w' = llm_log w ∧ ∃ e, res = Throw e) ∨
  (∃ inputMessages h0,
     _parseModelInputToBaseMessage input (heap w) = (inputMessages, h0) ∧
     llm_log w' =
       llm_log w
       ++ [map clean_message (deref h0 (initialHistory ++ inputMessages ++ sessionHistory))] ∧
     ∀ r m, r ∈ initialHistory ++ inputMessages ++ sessionHistory →
            h0 !! r = Some m → heap w' !! r = Some (clean_message m)).
Proof.
  intros Hturn.
  destruct (parse_input_world input (heap w)) as (inputMessages & h0 & Hparse).
  destruct (runToolCallingAgent options
              (initialHistory ++ inputMessages ++ sessionHistory) (set_heap h0 w))
    as [[chunks|e] w1] eqn:Hrun.
  - right. exists inputMessages, h0. split; [done|].
    destruct (turn_unfold _ _ _ _ _ _ _ _ _ Hparse Hrun) as [_ [ys Heq]].
    rewrite Hturn in Heq.
    destruct (turn_streams_cleaned_history _ _ _ _ _ _ _ _ _ Hparse Hrun)
      as (Hlog & _ & _ & _ & _ & Hin & _).
    assert (llm_log w' = llm_log w1 ∧ ∃ more, heap w' = heap w1 ++ more) as [Hl [more Hh]].
    { destruct (detected chunks); injection Heq as _ _ ->; simpl.
      - split; [done|]. rewrite <- app_assoc. eauto.
      - split; [done|]. eauto. }
    split; [by rewrite Hl, Hlog|].
    intros r m Hr Hm. rewrite Hh. apply lookup_app_l_Some.
    by rewrite (Hin r Hr), Hm.
  - left. unfold turn in Hturn. rewrite Hparse, Hrun in Hturn.
    injection Hturn as _ <- <-. split; [|eauto].
    by apply runToolCallingAgent_Throw in Hrun as [(_ & _ & ->)|(_ & _ & _ & ->)].
Qed.

Lemma evolves_valid h h' r : evolves h h' → is_Some (h !! r) → is_Some (h' !! r).
Proof. intros Hev [m Hm]. destruct (Hev _ _ Hm) as [->| ->]; eauto. Qed.

(** Cleaning hides whether an object has been cleaned before. *)
Lemma deref_evolves_clean h h' (rs : list ref) :
  evolves h h' → (∀ r, r ∈ rs → is_Some (h !! r)) →
  map clean_message (deref h' rs) = map clean_message (deref h rs).
Proof.
  intros Hev. unfold deref. induction rs as [|r rs IH]; intros Hvalid; [done|].
  destruct (Hvalid r ltac:(by left)) as [m Hm].
  cbn [omap list_omap]. rewrite Hm.
  assert (map clean_message (omap (λ r, h' !! r) rs)
          = map clean_message (omap (λ r, h !! r) rs)) as Hrest
    by (apply IH; intros; apply Hvalid; by right).
  destruct (Hev _ _ Hm) as [-> | ->]; simpl; rewrite Hrest; [done|].
  by rewrite clean_message_idemp.
Qed.

(** The caller's messages [callers], held at the front of [initialHistory],
    are at the front of what each model call of the loop is streamed with. *)
Lemma while_true_streams options input initialHistory (callers : list ref) fuel :
  ∀ sessionHistory w,
    (∀ r, r ∈ callers → is_Some (heap w !! r)) →
    (∀ w', (∃ added, history w' = grown added <$> history w) →
           callers `prefix_of` read initialHistory w') →
    let run := while_true fuel options input initialHistory sessionHistory w in
    ∃ added,
      llm_log (final run) = llm_log w ++ added ∧
      (∀ streamed, streamed ∈ added →
         (∃ rest, streamed = map clean_message (deref (heap w) callers) ++ rest) ∧
         (∀ m, m ∈ streamed → clean_message m = m)) ∧
      (added ≠ [] →
       ∀ r m, r ∈ callers → heap w !! r = Some m →
              heap (final run) !! r = Some (clean_message m)).
Proof.
  induction fuel as [|fuel IH]; intros s w Hvalid Hfront; simpl.
  - exists []. split; [by rewrite app_nil_r|]. split; [|done].
    intros streamed Hin. by apply elem_of_nil in Hin.
  - destruct (turn options input (read initialHistory w) s w)
      as [[ys res] w1] eqn:Hturn.
    pose proof (turn_store _ _ _ _ _ _ _ _ Hturn) as Hstore.
    destruct (turn_model _ _ _ _ _ _ _ _ Hturn)
      as [(Hlog & e & ->)|(im & h0 & Hparse & Hlog & Hclean)].
    + simpl. exists []. split; [by rewrite app_nil_r|]. split; [|done].
      intros streamed Hin. by apply elem_of_nil in Hin.
    + assert (callers `prefix_of` read initialHistory w) as [others Hread].
      { apply Hfront. exists []. destruct (history w) as [[]|]; simpl; [|done].
        unfold grown. simpl. by rewrite app_nil_r. }
      rewrite Hread in Hlog, Hclean.
      pose proof (evolves_parse _ _ _ _ Hparse) as Hev0.
      assert (map clean_message (deref h0 ((callers ++ others) ++ im ++ s))
              = map clean_message (deref (heap w) callers)
                ++ map clean_message (deref h0 (others ++ im ++ s))) as Hsplit.
      { rewrite <- app_assoc, deref_app, map_app. f_equal.
        by apply deref_evolves_clean. }
      rewrite Hsplit in Hlog.
      assert (∀ m, m ∈ map clean_message (deref (heap w) callers)
                         ++ map clean_message (deref h0 (others ++ im ++ s)) →
                   clean_message m = m) as Hcleaned.
      { intros m Hm. rewrite <- map_app in Hm.
        apply list_elem_of_fmap in Hm as (m0 & -> & _). apply clean_message_idemp. }
      assert (∀ r m, r ∈ callers → heap w !! r = Some m →
                     heap w1 !! r = Some (clean_message m)) as Hcallers.
      { intros r m Hr Hm.
        assert (r ∈ (callers ++ others) ++ im ++ s) as Hin
          by (apply elem_of_app; left; apply elem_of_app; by left).
        destruct (Hev0 _ _ Hm) as [Hm0|Hm0].
        - by apply (Hclean r m Hin).
        - rewrite (Hclean r _ Hin Hm0). by rewrite clean_message_idemp. }
      destruct res as [[next s1]|e].
      * destruct Hstore as (added1 & -> & Hstore).
        destruct next; simpl.
        -- assert (evolves (heap w) (heap w1)) as Hev1
             by (by destruct (turn_session _ _ _ _ _ _ _ _ _ Hturn)).
           destruct (IH (s ++ added1) w1) as (added & Hlog' & Hall & _).
           { intros r Hr. eapply evolves_valid; [done|]. by apply Hvalid. }
           { intros w' [more Hw']. apply Hfront. exists (added1 ++ more).
             rewrite Hw', Hstore. destruct (history w) as [store|]; simpl; [|done].
             unfold grown. simpl. by rewrite app_assoc. }
           simpl in Hlog', Hall.
           eexists (_ :: added). split; [rewrite Hlog', Hlog, <- app_assoc; done|].
           split.
           ++ intros streamed [->|Hin]%elem_of_cons; [split; [eauto|done]|].
              destruct (Hall streamed Hin) as [[rest Hrest] Hc]. split; [|done].
              exists rest. rewrite Hrest. f_equal. by apply deref_evolves_clean.
           ++ intros _ r m Hr Hm.
              pose proof (while_true_evolves options input initialHistory fuel
                            (s ++ added1) w1) as Hev2.
              destruct (Hev2 _ _ (Hcallers r m Hr Hm)) as [->| ->]; [done|].
              by rewrite clean_message_idemp.
        -- eexists [_]. split; [done|]. split; [|by intros _].
           intros streamed ->%list_elem_of_singleton. split; [eauto|done].
      * simpl. eexists [_]. split; [done|]. split; [|by intros _].
        intros streamed ->%list_elem_of_singleton. split; [eauto|done].
Qed.

(** C10. An invocation on a history store that holds the caller's
    messages: every model call of the invocation is streamed with a list that
    begins with the caller's messages, cleaned, none of them dropped, and in
    which every message is clean; and once the model has been called, the
    caller's message objects themselves hold the cleaned content. In each turn
    that reaches the model, the list that is streamed is the combined history
    (the caller's history, the input, the session history) with every message
    cleaned, where cleaning a message removes the text blocks that are blank
    from an AI message with block content and leaves every other message as
    it is; the objects of the combined history are rewritten and no other
    object is changed. *)
Theorem model_is_streamed_with_cleaned_history
  (fuel : nat) (options : RunnableAgentOptions) (input : BaseLanguageModelInput)
  (w : World) (store : HistoryStore) :
  history w = Some store →
  (∀ r, r ∈ stored store → is_Some (heap w !! r)) →
  let run := stream fuel options input w in
  let callers := deref (heap w) (stored store) in
  length callers = length (stored store) ∧
  (∃ added,
     llm_log (final run) = llm_log w ++ added ∧
     length added = model_turns w (final run) ∧
     ∀ streamed, streamed ∈ added →
       (∃ rest, streamed = map clean_message callers ++ rest) ∧
       (∀ m, m ∈ streamed → clean_message m = m)) ∧
  ((0 < model_turns w (final run))%nat →
   ∀ r m, r ∈ stored store → heap w !! r = Some m →
          heap (final run) !! r = Some (clean_message m)) ∧
  (∀ m,
     clean_message m =
     match m with
     | AIMessage (ContentBlocks blocks) tool_calls =>
         AIMessage
           (ContentBlocks
              (List.filter
                 (λ b, negb (bool_decide (cb_type b = "text") && blank (cb_text b)))
                 blocks))
           tool_calls
     | _ => m
     end) ∧
  (∀ initialHistory sessionHistory w0 inputMessages h0 chunks w1,
     _parseModelInputToBaseMessage input (heap w0) = (inputMessages, h0) →
     runToolCallingAgent options (initialHistory ++ inputMessages ++ sessionHistory)
       (set_heap h0 w0) = (Ok chunks, w1) →
     let combined := initialHistory ++ inputMessages ++ sessionHistory in
     let streamed := map clean_message (deref h0 combined) in
     llm_log w1 = llm_log w0 ++ [streamed] ∧
     (∃ bind,
        bindTools (llm options) = Some bind ∧
        chunks = bind (bind_inputs options)
                   (match tool_response options with Some _ => any | None => auto end)
                   (length (llm_log w0)) streamed) ∧
     length streamed = length (deref h0 combined) ∧
     fst (_cleanHistory combined h0) = combined ∧
     length (heap w1) = length h0 ∧
     (∀ r, r ∈ combined → heap w1 !! r = clean_message <$> h0 !! r) ∧
     (∀ r, r ∉ combined → heap w1 !! r = h0 !! r) ∧
     (∀ r m, r ∈ initialHistory → heap w0 !! r = Some m →
             heap w1 !! r = Some (clean_message m))).
Proof.
  intros Hstore Hvalid run callers.
  split; [|split; [|split; [|split]]].
  - unfold callers, deref. clear run callers Hstore.
    induction (stored store) as [|r rs IH]; [done|].
    destruct (Hvalid r ltac:(by left)) as [m Hm].
    cbn [omap list_omap]. rewrite Hm. simpl. f_equal. apply IH.
    intros r' Hr'. apply Hvalid. by right.
  - subst run. unfold stream. rewrite Hstore.
    destruct (_parseModelInputToBaseMessage input (heap w)) as [im h] eqn:Hparse.
    pose proof (evolves_parse _ _ _ _ Hparse) as Hev.
    match goal with
    | |- context [while_true fuel options input ?ih [] ?w1] =>
        destruct (while_true_streams options input ih (stored store) fuel [] w1)
          as (added & Hlog & Hall & _)
    end.
    { simpl. intros r Hr. eapply evolves_valid; [done|]. by apply Hvalid. }
    { intros w' [more Hw']. simpl in Hw'. rewrite Hstore in Hw'. simpl in Hw'.
      unfold getMessages. rewrite Hstore.
      destruct (shares_array store); simpl; [|done].
      rewrite Hw'. simpl. rewrite <- app_assoc. by apply prefix_app_r. }
    simpl in Hlog, Hall. exists added. split; [done|]. split.
    + unfold model_turns. rewrite Hlog, length_app. lia.
    + intros streamed Hin. destruct (Hall streamed Hin) as [[rest Hrest] Hc].
      split; [|done]. exists rest. rewrite Hrest. f_equal. unfold callers.
      by apply deref_evolves_clean.
  - subst run. unfold stream. rewrite Hstore.
    destruct (_parseModelInputToBaseMessage input (heap w)) as [im h] eqn:Hparse.
    pose proof (evolves_parse _ _ _ _ Hparse) as Hev.
    match goal with
    | |- context [while_true fuel options input ?ih [] ?w1] =>
        destruct (while_true_streams options input ih (stored store) fuel [] w1)
          as (added & Hlog & _ & Hobjects)
    end.
    { simpl. intros r Hr. eapply evolves_valid; [done|]. by apply Hvalid. }
    { intros w' [more Hw']. simpl in Hw'. rewrite Hstore in Hw'. simpl in Hw'.
      unfold getMessages. rewrite Hstore.
      destruct (shares_array store); simpl; [|done].
      rewrite Hw'. simpl. rewrite <- app_assoc. by apply prefix_app_r. }
    simpl in Hlog, Hobjects. unfold model_turns. rewrite Hlog, length_app.
    intros Hturns r m Hr Hm.
    assert (added ≠ []) as Hne by (intros ->; simpl in Hturns; lia).
    destruct (Hev _ _ Hm) as [Hm0|Hm0].
    + by apply (Hobjects Hne r m Hr).
    + rewrite (Hobjects Hne r _ Hr Hm0). by rewrite clean_message_idemp.
  - apply clean_message_blank.
  - intros ih s w0 im h0 chunks w1 Hparse Hrun.
    exact (turn_streams_cleaned_history _ _ _ _ _ _ _ _ _ Hparse Hrun).
Qed.

End CallerHistory.

(** The caller's store holds an AI message whose first text block is blank:
    the model is streamed with the message without that block, and afterwards
    the caller's object has lost it. *)
Lemma model_is_streamed_with_cleaned_history_witness :
  let options := Examples.answering in
  let w := new_RunnableAgent options [Examples.spaced] (Some (mkStore [0%nat] false)) in
  let run := stream (merge := Examples.view_concat) 5 options (InputString "hi") w in
  history w = Some (mkStore [0%nat] false) ∧
  (∀ r, r ∈ [0%nat] → is_Some (heap w !! r)) ∧
  llm_log (final run)
  = [[AIMessage (ContentBlocks [mkBlock "text" "kept"]) [];
      HumanMessage (ContentString "hi")]] ∧
  heap (final run) !! 0%nat = Some (AIMessage (ContentBlocks [mkBlock "text" "kept"]) []).
Proof.
  intros options w run.
  assert (∀ r, r ∈ [0%nat] → is_Some (heap w !! r)) as Hvalid.
  { intros r ->%list_elem_of_singleton. simpl. eauto. }
  split; [reflexivity|]. split; [exact Hvalid|]. split; [reflexivity|].
  exact (proj1 (proj2 (proj2
           (model_is_streamed_with_cleaned_history (merge := Examples.view_concat)
              5 options (InputString "hi") w (mkStore [0%nat] false) eq_refl Hvalid)))
           ltac:(vm_compute; lia) 0%nat Examples.spaced ltac:(by left) eq_refl).
Defined.

Section SnapshotExtras.
Context {merge : ChunkMerge}.

(** ** Snapshots *)

Lemma on_chunk_cases sessionMessages acc chunk h acc1 yielded1 h1 :
  on_chunk sessionMessages acc chunk h = (acc1, yielded1, h1) →
  h1 = h ++ [as_message (agentResponse acc1)] ∧
  agentResponse_ref acc1 = length h ∧
  (yielded1 = [] ∨ yielded1 = [sessionMessages ++ [length h]]) ∧
  (isToolCall acc1 = false → yielded1 = [sessionMessages ++ [length h]]) ∧
  (isToolCall acc = true → isToolCall acc1 = true).
Proof.
  unfold on_chunk, alloc. intros [= <- <- <-]. simpl.
  split; [done|]. split; [done|].
  destruct (isToolCall acc), (has_length _); simpl; auto.
  split; [auto|]. split; [discriminate|done].
Qed.




(** Every snapshot is the session history of before the turn and one AI
    message. *)
Lemma for_await_shape sessionMessages chunks :
  ∀ acc h acc' yielded h',
    for_await chunks sessionMessages acc h = (acc', yielded, h') →
    ∀ snapshot, snapshot ∈ yielded →
      ∃ a content tool_calls,
        snapshot = sessionMessages ++ [a] ∧
        h' !! a = Some (AIMessage content tool_calls).
Proof.
  induction chunks as [|chunk rest IH]; intros acc h acc' yielded h'.
  - intros [= _ <- _] snapshot Hin. by apply elem_of_nil in Hin.
  - cbn [for_await].
    destruct (on_chunk sessionMessages acc chunk h) as [[acc1 ys1] h1] eqn:Hchunk.
    destruct (for_await rest sessionMessages acc1 h1) as [[acc2 ys2] h2] eqn:Hrest.
    intros [= _ <- <-] snapshot Hin.
    apply elem_of_app in Hin as [Hin|Hin]; [|by eapply IH].
    apply on_chunk_cases in Hchunk as (-> & _ & [->| ->] & _);
      [by apply elem_of_nil in Hin|].
    apply list_elem_of_singleton in Hin as ->.
    destruct (for_await_heap _ _ _ _ _ _ _ Hrest) as [more ->].
    eexists _, _, _. split; [done|].
    rewrite <- app_assoc. by apply list_lookup_middle.
Qed.

(** What [turn] yields is what its inner loop yields. *)
Lemma turn_for_await options input initialHistory sessionHistory w
      inputMessages h0 chunks w1 :
  _parseModelInputToBaseMessage input (heap w) = (inputMessages, h0) →
  runToolCallingAgent options (initialHistory ++ inputMessages ++ sessionHistory)
    (set_heap h0 w) = (Ok chunks, w1) →
  ∃ acc yielded h2 res w2,
    for_await chunks sessionHistory (mkAcc empty_chunk (length (heap w1)) false)
      (heap w1 ++ [as_message empty_chunk]) = (acc, yielded, h2) ∧
    turn options input initialHistory sessionHistory w = (yielded, res, w2) ∧
    (∃ more, heap w2 = h2 ++ more).
Proof.
  intros Hparse Hrun. unfold turn. rewrite Hparse, Hrun. unfold alloc.
  destruct (for_await chunks sessionHistory _ _) as [[acc ys] h2] eqn:Hfor.
  exists acc, ys, h2.
  destruct (isToolCall acc).
  - destruct (runToolCallMessage _ _) as [toolResponse effects].
    rewrite alloc_all_spec.
    destruct (tool_response options); [destruct (existsb _ _)|];
      eexists _, _; (split; [done|]); (split; [done|]); simpl; eauto.
  - eexists _, _. split; [done|]. split; [done|]. exists []. simpl.
    by rewrite app_nil_r.
Qed.

End SnapshotExtras.

Section SnapshotClaims.
Context {merge : ChunkMerge}.

Lemma turn_snapshots options input initialHistory sessionHistory w yielded res w' :
  turn options input initialHistory sessionHistory w = (yielded, res, w') →
  ∀ snapshot, snapshot ∈ yielded →
    ∃ a content tool_calls,
      snapshot = sessionHistory ++ [a] ∧
      heap w' !! a = Some (AIMessage content tool_calls).
Proof.
  intros Hturn snapshot Hin.
  destruct (parse_input_world input (heap w)) as (inputMessages & h0 & Hparse).
  destruct (runToolCallingAgent options
              (initialHistory ++ inputMessages ++ sessionHistory) (set_heap h0 w))
    as [[chunks|e] w1] eqn:Hrun.
  - destruct (turn_for_await _ _ _ _ _ _ _ _ _ Hparse Hrun)
      as (acc & ys & h2 & res' & w2 & Hfor & Heq & more & Hheap).
    rewrite Hturn in Heq. injection Heq as -> _ ->.
    destruct (for_await_shape _ _ _ _ _ _ _ Hfor snapshot Hin)
      as (a & content & tool_calls & -> & Ha).
    exists a, content, tool_calls. split; [done|].
    rewrite Hheap. by apply lookup_app_l_Some.
  - unfold turn in Hturn. rewrite Hparse, Hrun in Hturn. injection Hturn as <- _ _.
    by apply elem_of_nil in Hin.
Qed.

Lemma while_true_snapshots options input initialHistory fuel :
  ∀ sessionHistory w,
    let r := while_true fuel options input initialHistory sessionHistory w in
    sessionHistory `prefix_of` session r ∧
    ∀ snapshot, snapshot ∈ yields r →
      ∃ shown a content tool_calls,
        snapshot = shown ++ [a] ∧
        sessionHistory `prefix_of` shown ∧ shown `prefix_of` session r ∧
        heap (final r) !! a = Some (AIMessage content tool_calls).
Proof.
  induction fuel as [|fuel IH]; intros s w; simpl.
  - split; [done|]. intros snapshot Hin. by apply elem_of_nil in Hin.
  - destruct (turn options input (read initialHistory w) s w)
      as [[ys [[next s1]|e]] w1] eqn:Hturn.
    + pose proof (turn_snapshots _ _ _ _ _ _ _ _ Hturn) as Hys.
      destruct (turn_session _ _ _ _ _ _ _ _ _ Hturn) as (_ & a0 & rs & ? & ? & -> & _).
      destruct next; simpl.
      * destruct (IH (s ++ a0 :: rs) w1) as [Hpre Hrest]. simpl in Hpre, Hrest.
        assert (s `prefix_of` session
                  (while_true fuel options input initialHistory (s ++ a0 :: rs) w1))
          as Hs by (etrans; [by apply prefix_app_r|done]).
        split; [done|]. intros snapshot Hin.
        apply elem_of_app in Hin as [Hin|Hin].
        -- destruct (Hys _ Hin) as (a & content & tool_calls & -> & Ha).
           destruct (evolves_ai _ _ _ _ _
                       (while_true_evolves options input initialHistory fuel
                          (s ++ a0 :: rs) w1) Ha) as [content' Ha'].
           exists s, a, content', tool_calls. done.
        -- destruct (Hrest _ Hin) as (shown & a & content & tool_calls & -> & Hp1 & Hp2 & Ha).
           exists shown, a, content, tool_calls. split; [done|]. split; [|done].
           etrans; [|done]. by apply prefix_app_r.
      * split; [by apply prefix_app_r|]. intros snapshot Hin.
        destruct (Hys _ Hin) as (a & content & tool_calls & -> & Ha).
        exists s, a, content, tool_calls. split; [done|]. split; [done|].
        split; [by apply prefix_app_r|done].
    + simpl. split; [done|]. intros snapshot Hin.
      destruct (turn_snapshots _ _ _ _ _ _ _ _ Hturn _ Hin)
        as (a & content & tool_calls & -> & Ha).
      exists s, a, content, tool_calls. done.
Qed.

(** X4. Every snapshot of the stream is a prefix of the session history as
    it stands in the end, followed by one AI message. *)
Theorem snapshots_are_prefixes_with_an_ai_message
  (fuel : nat) (options : RunnableAgentOptions) (input : BaseLanguageModelInput)
  (w : World) (snapshot : list ref) :
  let r := stream fuel options input w in
  snapshot ∈ yields r →
  ∃ shown a content tool_calls,
    snapshot = shown ++ [a] ∧
    shown `prefix_of` session r ∧
    heap (final r) !! a = Some (AIMessage content tool_calls).
Proof.
  intros r Hin. subst r. unfold stream in *.
  match type of Hin with
  | context [while_true fuel options input ?ih [] ?w1] =>
      destruct (while_true_snapshots options input ih fuel [] w1) as [_ Hall]
  end.
  destruct (Hall _ Hin) as (shown & a & content & tool_calls & -> & _ & Hp & Ha).
  eauto 10.
Qed.


(** X6. When the model answers the first turn with a stream without
    fragments, the loop ends after that turn: nothing is yielded, the session
    history is one AI message with empty text and no tool call, and [invoke]
    returns the empty list. *)
Theorem empty_model_stream_ends_the_loop
  (fuel : nat) (options : RunnableAgentOptions) (input : string) (w : World)
  (bind : list BindToolsInput → ToolChoice → BoundLlm) :
  bindTools (llm options) = Some bind →
  (∀ descriptors choice messages,
     bind descriptors choice (length (llm_log w)) messages = []) →
  _callsLeft w ≠ 0 →
  let r := stream (S fuel) options (InputString input) w in
  yields r = [] ∧
  outcome r = Returned (session r) ∧
  model_turns w (final r) = 1%nat ∧
  (∃ a, session r = [a] ∧
        heap (final r) !! a = Some (AIMessage (ContentString "") [])) ∧
  fst (invoke (S fuel) options input w) = Returned [].
Proof.
  intros Hbind Hsilent Hne r.
  assert (yields r = [] ∧ outcome r = Returned (session r) ∧
          model_turns w (final r) = 1%nat ∧
          ∃ a, session r = [a] ∧
               heap (final r) !! a = Some (AIMessage (ContentString "") [])) as Hrun.
  { subst r.
    destruct (stream_start (S fuel) options (InputString input) w)
      as (w1 & -> & Hc & Hlog & _).
    cbn [while_true].
    destruct (parse_input_world (InputString input) (heap w1)) as (im & h0 & Hparse).
    destruct (runToolCallingAgent options (read (getMessages w) w1 ++ im ++ [])
                (set_heap h0 w1)) as [[chunks|e] w2] eqn:Hcall.
    - destruct (turn_for_await _ _ _ _ _ _ _ _ _ Hparse Hcall)
        as (acc & ys & h2 & res & w3 & Hfor & Hturn & _).
      destruct (turn_unfold _ _ _ _ _ _ _ _ _ Hparse Hcall) as [Ha [ys' Heq]].
      apply runToolCallingAgent_Ok in Hcall as (_ & bind' & Hbind' & Hchunks & Hw2).
      rewrite Hbind in Hbind'. injection Hbind' as <-.
      simpl in Hchunks. rewrite Hlog, Hsilent in Hchunks. subst chunks.
      simpl in Hfor. injection Hfor as _ <- _.
      rewrite Hturn in Heq. change (detected []) with false in Heq.
      injection Heq as _ -> ->. rewrite Hturn. simpl.
      split; [done|]. split; [done|]. split.
      + unfold model_turns. subst w2. simpl. rewrite length_app, Hlog. simpl. lia.
      + eexists. split; [done|]. exact Ha.
    - apply runToolCallingAgent_Throw in Hcall as [(H0 & _)|(_ & Hnone & _)];
        simpl in *; [lia|congruence]. }
  destruct Hrun as (Hys & Hout & Hturns & Hsession).
  split; [done|]. split; [done|]. split; [done|]. split; [done|].
  unfold invoke. fold r. by rewrite Hout, Hys.
Qed.

End SnapshotClaims.

Lemma snapshots_are_prefixes_with_an_ai_message_witness :
  let options := Examples.failing in
  let w := new_RunnableAgent options [] None in
  let r := stream (merge := Examples.view_concat) 5 options (InputString "hi") w in
  [2%nat; 3%nat; 4%nat; 7%nat] ∈ yields r ∧
  ∃ shown a content tool_calls,
    [2%nat; 3%nat; 4%nat; 7%nat] = shown ++ [a] ∧
    shown `prefix_of` session r ∧
    heap (final r) !! a = Some (AIMessage content tool_calls).
Proof.
  intros options w r.
  assert ([2%nat; 3%nat; 4%nat; 7%nat] ∈ yields r) as Hin.
  { vm_compute. right. left. }
  split; [exact Hin|].
  exact (snapshots_are_prefixes_with_an_ai_message (merge := Examples.view_concat)
           5 options (InputString "hi") w _ Hin).
Defined.


Lemma empty_model_stream_ends_the_loop_witness :
  let options := MoreExamples.silent in
  let w := new_RunnableAgent options [] None in
  bindTools (llm options) = Some (λ _ _ _ _, []) ∧
  _callsLeft w ≠ 0 ∧
  fst (invoke (merge := Examples.view_concat) 3 options "hi" w) = Returned [] ∧
  session (stream (merge := Examples.view_concat) 3 options (InputString "hi") w)
  = [1%nat].
Proof.
  intros options w.
  assert (_callsLeft w ≠ 0) as Hne by (simpl; lia).
  split; [reflexivity|]. split; [exact Hne|]. split; [|reflexivity].
  exact (proj2 (proj2 (proj2 (proj2
           (empty_model_stream_ends_the_loop (merge := Examples.view_concat)
              2 options "hi" w (λ _ _ _ _, []) eq_refl (λ _ _ _, eq_refl) Hne))))).
Defined.

(** * Further properties of cleaning and of the dispatcher *)

Section CleaningExtras.

Lemma filter_sublist {A} (f : A → bool) (l : list A) : List.filter f l `sublist_of` l.
Proof.
  induction l as [|x l IH]; simpl; [done|].
  destruct (f x); [by apply sublist_skip|by apply sublist_cons].
Qed.

Lemma filter_same {A} (f : A → bool) (l : list A) :
  List.filter f l = l ↔ ∀ x, x ∈ l → f x = true.
Proof.
  induction l as [|x l IH]; simpl.
  - split; [|done]. intros _ x Hx. by apply elem_of_nil in Hx.
  - destruct (f x) eqn:E.
    + split.
      * intros [= Heq] y [->|Hy]%elem_of_cons; [done|]. by apply IH.
      * intros Hall. f_equal. apply IH. intros y Hy. apply Hall. by right.
    + split.
      * intros Heq. exfalso.
        pose proof (filter_sublist f l) as Hsub. rewrite Heq in Hsub.
        apply sublist_length in Hsub. simpl in Hsub. lia.
      * intros Hall. rewrite Hall in E; [done|by left].
Qed.

(** X7. Cleaning a history that has been cleaned changes nothing: the
    same references come back and every object stays as the first cleaning
    left it. *)
Theorem cleaning_twice_is_cleaning_once
  (history : list ref) (h : list BaseMessage) :
  _cleanHistory history (snd (_cleanHistory history h))
  = (history, snd (_cleanHistory history h)).
Proof.
  rewrite (surjective_pairing (_cleanHistory history (snd (_cleanHistory history h)))).
  f_equal; [apply cleanHistory_fst|].
  apply list_eq. intros i. rewrite !cleanHistory_lookup.
  case_decide; [|done].
  destruct (h !! i) as [m|]; simpl; [|done]. by rewrite clean_message_idemp.
Qed.

(** X8. After cleaning, an AI message of the history that has block
    content has no blank text block left; its blocks are exactly those it had
    before, in their order and as often as they occurred, without the blank
    text blocks, and its tool calls are those it had. *)
Theorem cleaned_messages_have_no_blank_text
  (history : list ref) (h : list BaseMessage) (r : ref)
  (blocks : list ContentBlock) (tool_calls : list ToolCall) :
  r ∈ history →
  snd (_cleanHistory history h) !! r = Some (AIMessage (ContentBlocks blocks) tool_calls) →
  (∀ b, b ∈ blocks → ¬ blank_text b) ∧
  ∃ before,
    h !! r = Some (AIMessage (ContentBlocks before) tool_calls) ∧
    blocks =
      List.filter (λ b, negb (bool_decide (cb_type b = "text") && blank (cb_text b))) before ∧
    blocks `sublist_of` before ∧
    (∀ b, b ∈ before → ¬ blank_text b → b ∈ blocks).
Proof.
  intros Hin Hr. rewrite cleanHistory_lookup, decide_True in Hr by done.
  destruct (h !! r) as [m|]; [|done]. simpl in Hr. injection Hr as Hm.
  destruct m as [c|c tcs|????|??]; try done.
  destruct c as [text|before]; [done|].
  pose proof (clean_message_blank (AIMessage (ContentBlocks before) tcs)) as Hblank.
  simpl in Hm. injection Hm as <- <-.
  split.
  - intros b Hb Hblank'.
    apply list_elem_of_In, List.filter_In in Hb as [_ Hkeep].
    apply keep_block_blank in Hblank'. congruence.
  - exists before. split; [done|]. split; [by injection Hblank|].
    split; [apply filter_sublist|].
    intros b Hb Hnot. apply list_elem_of_In, List.filter_In.
    split; [by apply list_elem_of_In|].
    destruct (keep_block b) eqn:E; [done|]. by apply keep_block_blank in E.
Qed.

(** X9. Cleaning leaves a message as it is exactly when the message is
    not an AI message with block content that has a blank text block: human
    messages, whatever their blocks, and AI messages with string content,
    blank or not, are never changed. *)
Theorem cleaning_changes_only_ai_blocks (m : BaseMessage) :
  clean_message m = m ↔
  ¬ ∃ blocks tool_calls b,
      m = AIMessage (ContentBlocks blocks) tool_calls ∧ b ∈ blocks ∧ blank_text b.
Proof.
  split.
  - intros Hsame (blocks & tool_calls & b & -> & Hb & Hblank).
    simpl in Hsame. injection Hsame as Hfilter.
    apply keep_block_blank in Hblank.
    rewrite (proj1 (filter_same keep_block blocks) Hfilter b Hb) in Hblank. done.
  - intros Hnone. destruct m as [c|c tcs|????|??]; try done.
    destruct c as [text|blocks]; [done|]. simpl. do 2 f_equal.
    apply filter_same. intros b Hb.
    destruct (keep_block b) eqn:E; [done|]. exfalso. apply Hnone.
    exists blocks, tcs, b. split; [done|]. split; [done|]. by apply keep_block_blank.
Qed.

End CleaningExtras.

Lemma cleaned_messages_have_no_blank_text_witness :
  (0%nat : ref) ∈ [0%nat] ∧
  snd (_cleanHistory [0%nat] [Examples.spaced]) !! 0%nat
  = Some (AIMessage (ContentBlocks [mkBlock "text" "kept"]) []) ∧
  ∀ b, b ∈ [mkBlock "text" "kept"] → ¬ blank_text b.
Proof.
  assert ((0%nat : ref) ∈ [0%nat]) as Hin by (by left).
  split; [exact Hin|]. split; [reflexivity|].
  exact (proj1 (cleaned_messages_have_no_blank_text
                  [0%nat] [Examples.spaced] 0%nat [mkBlock "text" "kept"] [] Hin eq_refl)).
Defined.

Section DispatcherExtras.

Lemma find_first {A} (f : A → bool) (l : list A) (x : A) :
  x ∈ l → f x = true →
  ∃ first before after,
    l = before ++ first :: after ∧
    (∀ y, y ∈ before → f y = false) ∧ f first = true ∧
    ∀ more, List.find f (l ++ more) = Some first.
Proof.
  induction l as [|y l IH]; intros Hin Hx; [by apply elem_of_nil in Hin|].
  destruct (f y) eqn:Hy.
  - exists y, [], l. split; [done|]. split.
    + intros z Hz. by apply elem_of_nil in Hz.
    + split; [done|]. intros more. simpl. by rewrite Hy.
  - apply elem_of_cons in Hin as [->|Hin]; [congruence|].
    destruct (IH Hin Hx) as (first & before & after & -> & Hbefore & Hfirst & Hfind).
    exists first, (y :: before), after. split; [done|]. split.
    + intros z [->|Hz]%elem_of_cons; auto.
    + split; [done|]. intros more. simpl. rewrite Hy. apply Hfind.
Qed.

(** X10. The tools that are offered to the model are the tools a call can
    resolve to: a tool call is resolved by the dispatcher exactly when its
    name is the name of a descriptor handed to [bindTools]. *)
Theorem offered_tools_are_the_resolvable_ones
  (options : RunnableAgentOptions) (tool_call : ToolCall) :
  is_Some (find_tool options tool_call) ↔
  tc_name tool_call ∈ map bind_name (bind_inputs options).
Proof.
  unfold bind_inputs. rewrite map_app, map_map. simpl. split.
  - intros [t Ht]. apply find_tool_Some in Ht as [Hname [Hin|Hstop]].
    + apply elem_of_app. left. rewrite <- Hname.
      apply list_elem_of_In, List.in_map, list_elem_of_In. done.
    + apply elem_of_app. right. rewrite Hstop. simpl. rewrite Hname. by left.
  - intros Hin. destruct (find_tool options tool_call) as [t|] eqn:Hfind; [eauto|].
    apply find_tool_None in Hfind as [Htools Hstop]. exfalso.
    apply elem_of_app in Hin as [Hin|Hin].
    + apply list_elem_of_In, List.in_map_iff in Hin as (t & Hname & Ht).
      apply list_elem_of_In in Ht. by apply (Htools t Ht).
    + destruct (tool_response options) as [stop|]; [|by apply elem_of_nil in Hin].
      simpl in Hin. apply list_elem_of_singleton in Hin.
      by apply (Hstop stop eq_refl).
Qed.

(** X11. A tool that has the name of the stop tool takes its place in the
    dispatch: a call with that name is resolved to the first of the tools with
    that name, not to the stop tool, and the call still ends the loop. *)
Theorem tools_shadow_the_stop_tool
  (options : RunnableAgentOptions) (tool_call : ToolCall)
  (t stop : AgentToolCallOptions) :
  t ∈ tools options →
  name t = tc_name tool_call →
  tool_response options = Some stop →
  name stop = tc_name tool_call →
  (∃ first before after,
     tools options = before ++ first :: after ∧
     (∀ x, x ∈ before → name x ≠ tc_name tool_call) ∧
     name first = tc_name tool_call ∧
     find_tool options tool_call = Some first) ∧
  ∀ tool_calls, tool_call ∈ tool_calls → stop_called options tool_calls = true.
Proof.
  intros Hin Hname Hstop Hsame. split.
  - destruct (find_first (λ tool, bool_decide (name tool = tc_name tool_call))
                (tools options) t Hin (bool_decide_eq_true_2 _ Hname))
      as (first & before & after & Heq & Hbefore & Hfirst & Hfind).
    exists first, before, after. split; [done|]. split.
    + intros x Hx Hx'. specialize (Hbefore x Hx).
      by rewrite bool_decide_eq_true_2 in Hbefore.
    + split; [by apply bool_decide_eq_true in Hfirst|]. apply Hfind.
  - intros tool_calls Hcall. unfold stop_called. rewrite Hstop.
    apply existsb_exists. exists tool_call. split; [by apply list_elem_of_In|].
    by apply bool_decide_eq_true_2.
Qed.

(** X12. Whatever the dispatcher asks of a tool, it asks for a tool call of
    the AI message that resolves to that tool: the schema is given the
    arguments of the call, and the tool is run only when the schema has
    accepted them, on what the schema made of them. *)
Theorem tools_run_only_on_validated_calls
  (options : RunnableAgentOptions) (tool_calls : list ToolCall) (effect : ToolEffect) :
  effect ∈ snd (runToolCallMessage options tool_calls) →
  ∃ tool_call t,
    tool_call ∈ tool_calls ∧
    find_tool options tool_call = Some t ∧
    match effect with
    | SchemaParse tool_name raw => tool_name = name t ∧ raw = tc_args tool_call
    | Invoke tool_name parsed =>
        tool_name = name t ∧
        schema (tool t) (tc_args tool_call) = Fulfilled parsed
    end.
Proof.
  unfold runToolCallMessage. simpl. intros Hin.
  apply list_elem_of_In, List.in_concat in Hin as (effects & Hmap & Heff).
  apply List.in_map_iff in Hmap as (pair & <- & Hpair).
  apply List.in_map_iff in Hpair as (tool_call & <- & Hcall).
  exists tool_call. unfold runToolCall in Heff.
  destruct (find_tool options tool_call) as [t|]; [|by destruct Heff].
  exists t. split; [by apply list_elem_of_In|]. split; [done|].
  destruct (schema (tool t) (tc_args tool_call)) as [parsed|e] eqn:Hschema.
  - destruct (invoke_runnable _ _); simpl in Heff;
      destruct Heff as [<-|[<-|[]]]; done.
  - simpl in Heff. destruct Heff as [<-|[]]. done.
Qed.

End DispatcherExtras.

Lemma tools_shadow_the_stop_tool_witness :
  let options := MoreExamples.shadowed in
  let tool_call := Examples.call "c2" "stop" (JObj []) in
  MoreExamples.impostor ∈ tools options ∧
  tool_response options = Some Examples.stop ∧
  find_tool options tool_call = Some MoreExamples.impostor ∧
  stop_called options [tool_call] = true.
Proof.
  intros options tool_call.
  assert (MoreExamples.impostor ∈ tools options) as Hin by (right; left).
  split; [exact Hin|]. split; [reflexivity|]. split; [reflexivity|].
  refine (proj2 (tools_shadow_the_stop_tool options tool_call
                   MoreExamples.impostor Examples.stop Hin eq_refl eq_refl eq_refl)
            [tool_call] _).
  by left.
Defined.

Lemma tools_run_only_on_validated_calls_witness :
  let options := MoreExamples.strict in
  let tool_calls :=
    [Examples.call "c1" "check" Examples.ping; Examples.call "c2" "refuse" Examples.ping] in
  snd (runToolCallMessage options tool_calls)
  = [SchemaParse "check" Examples.ping;
     Invoke "check" (JObj [("text", JStr "checked")]);
     SchemaParse "refuse" Examples.ping] ∧
  ∃ tool_call t,
    tool_call ∈ tool_calls ∧ find_tool options tool_call = Some t ∧
    "check" = name t ∧
    schema (tool t) (tc_args tool_call) = Fulfilled (JObj [("text", JStr "checked")]).
Proof.
  intros options tool_calls. split; [reflexivity|].
  destruct (tools_run_only_on_validated_calls options tool_calls
              (Invoke "check" (JObj [("text", JStr "checked")])))
    as (tool_call & t & Hin & Hfind & Hname & Hschema).
  { right. left. }
  exists tool_call, t. done.
Defined.

(** * Properties of [RunnableHistory] and of [streamToRxjs] *)

Section HistoryHelpers.
Import RunnableHistory.

Lemma pairs_length (tool_calls : list ToolCall) :
  length (List.concat (map call_and_result tool_calls)) = (2 * length tool_calls)%nat.
Proof. induction tool_calls as [|tool rest IH]; simpl; [done|]. rewrite IH. lia. Qed.

Lemma pairs_lookup (tool_calls : list ToolCall) :
  ∀ i tool,
    tool_calls !! i = Some tool →
    List.concat (map call_and_result tool_calls) !! (2 * i)%nat
    = Some (Stored (AIMessage (ContentString "") [tool])) ∧
    List.concat (map call_and_result tool_calls) !! (2 * i + 1)%nat
    = Some (StoredTool success_true (tc_id tool) (tc_name tool)).
Proof.
  induction tool_calls as [|first rest IH]; intros i tool Hi; [done|].
  destruct i as [|i]; simpl in Hi.
  - injection Hi as ->. done.
  - destruct (IH i tool Hi) as [Hai Htool].
    replace (2 * S i)%nat with (S (S (2 * i))) by lia.
    replace (S (S (2 * i)) + 1)%nat with (S (S (2 * i + 1))) by lia.
    done.
Qed.

(** X13. [runLLM] hands the model's answer on as it is and adds to the
    history, for each tool call of the answer in order, an AI message with
    empty text that holds this call alone and a tool message with the call's
    id and name; the answer itself and its text are not stored, so an answer
    without tool calls leaves the history as it was. [runClaude] does the
    same. *)
Theorem runLLM_stores_a_pair_for_each_call
  {I : Type} (chatHistory : ChatHistory) (runnable : I → Result AIMessageChunk)
  (input : I) (response : AIMessageChunk) :
  runnable input = Ok response →
  let tool_calls := chunk_tool_calls response in
  ∃ added,
    runLLM chatHistory runnable input = (Ok response, chatHistory ++ added) ∧
    runClaude chatHistory runnable input = (Ok response, chatHistory ++ added) ∧
    length added = (2 * length tool_calls)%nat ∧
    (∀ i tool,
       tool_calls !! i = Some tool →
       added !! (2 * i)%nat = Some (Stored (AIMessage (ContentString "") [tool])) ∧
       added !! (2 * i + 1)%nat
       = Some (StoredTool success_true (tc_id tool) (tc_name tool))) ∧
    (tool_calls = [] → added = []).
Proof.
  intros Hrun tool_calls.
  exists (List.concat (map call_and_result tool_calls)).
  unfold runLLM, runClaude. rewrite Hrun. fold tool_calls.
  split; [done|]. split; [done|]. split; [apply pairs_length|].
  split; [apply pairs_lookup|]. by intros ->.
Qed.

(** X14. [runOpenAi] hands the model's answer on as it is and adds to the
    history the answer itself, then one function message for each call of the
    answer, in the order of the calls and with the name of the call; an answer
    without calls adds the answer alone. *)
Theorem runOpenAi_stores_answer_and_functions
  {I : Type} (chatHistory : ChatHistory) (runnable : I → Result AIMessageChunk)
  (input : I) (response : AIMessageChunk) :
  runnable input = Ok response →
  let functionCalls := chunk_tool_calls response in
  ∃ added,
    runOpenAi chatHistory runnable input = (Ok response, chatHistory ++ added) ∧
    length added = S (length functionCalls) ∧
    added !! 0%nat = Some (Stored (as_message response)) ∧
    (∀ i functionCall,
       functionCalls !! i = Some functionCall →
       added !! S i = Some (StoredFunction success_true (tc_name functionCall))) ∧
    (∀ i content function_name,
       added !! i = Some (StoredFunction content function_name) →
       ∃ functionCall, functionCalls !! (i - 1)%nat = Some functionCall ∧
                       function_name = tc_name functionCall).
Proof.
  intros Hrun functionCalls.
  exists (Stored (as_message response)
          :: map (λ functionCall, StoredFunction success_true (tc_name functionCall))
               functionCalls).
  unfold runOpenAi. rewrite Hrun. fold functionCalls.
  split; [by rewrite <- app_assoc|]. split; [simpl; by rewrite length_map|].
  split; [done|]. split.
  - intros i functionCall Hi. simpl. by rewrite list_lookup_fmap, Hi.
  - intros i content function_name Hi. destruct i as [|i]; [done|].
    simpl in Hi. rewrite list_lookup_fmap in Hi.
    replace (S i - 1)%nat with i by lia.
    destruct (functionCalls !! i) as [functionCall|]; [|done].
    injection Hi as _ <-. eauto.
Qed.

(** X15. A prompt step followed by a model step on the same history: the
    prompt step hands on the whole history, the old messages and then the
    prompt's; afterwards the history holds the old messages, the prompt's
    messages and the pairs for the tool calls of the answer. Started through
    [from], the history begins empty, so the prompt step hands on the prompt's
    messages alone. A step whose runnable throws leaves the history as it
    was. *)
Theorem prompt_then_model_accumulate
  {I J : Type} (chatHistory : ChatHistory)
  (prompt : I → Result (list BaseMessage)) (model : J → Result AIMessageChunk)
  (input : I) (question : J)
  (messages : list BaseMessage) (response : AIMessageChunk) :
  prompt input = Ok messages →
  model question = Ok response →
  let first := runPrompt chatHistory prompt input in
  let second := runLLM (snd first) model question in
  fst first = Ok (chatHistory ++ map Stored messages) ∧
  snd first = chatHistory ++ map Stored messages ∧
  snd second
  = chatHistory ++ map Stored messages
    ++ List.concat (map call_and_result (chunk_tool_calls response)) ∧
  from (λ i history, fst (runPrompt history prompt i)) input = Ok (map Stored messages) ∧
  (∀ e (failing : I → Result (list BaseMessage)),
     failing input = Throw e →
     runPrompt chatHistory failing input = (Throw e, chatHistory)) ∧
  (∀ e (failing : J → Result AIMessageChunk),
     failing question = Throw e →
     runLLM chatHistory failing question = (Throw e, chatHistory) ∧
     runOpenAi chatHistory failing question = (Throw e, chatHistory)).
Proof.
  intros Hprompt Hmodel first second. subst first second.
  unfold runPrompt, runLLM, runOpenAi, from. rewrite !Hprompt. simpl. rewrite Hmodel.
  simpl.
  split; [done|]. split; [done|]. split; [by rewrite <- app_assoc|]. split; [done|].
  split; [by intros e failing ->|]. by intros e failing ->.
Qed.

End HistoryHelpers.

Section Observable.
Context {merge : ChunkMerge}.

(** X16. A subscriber to an agent's stream is told every snapshot in the
    order of the stream and nothing after the end: when the loop has returned
    the last notification is [complete]; when it has thrown, the last
    notification is [error] with what the loop threw, whatever it is (a fatal
    error of the loop, a failure of the model's stream, an error of the
    dispatcher); and there is no other [complete] or [error]. *)
Theorem subscriber_is_told_snapshots_then_the_end
  (fuel : nat) (options : Full.RunnableAgentOptions) (settles : list ToolCall → list nat)
  (input : BaseLanguageModelInput) (w : World) :
  let r := Full.stream fuel options settles input w in
  let told := streamToRxjs (yields r) (outcome r) in
  (∀ i, (i < length (yields r))%nat → told !! i = OnNext <$> yields r !! i) ∧
  (length told ≤ S (length (yields r)))%nat ∧
  (∀ i, told !! i = Some OnComplete →
        i = length (yields r) ∧ ∃ returned, outcome r = Returned returned) ∧
  (∀ i e, told !! i = Some (OnError e) →
          i = length (yields r) ∧ outcome r = Threw e) ∧
  (∀ returned, outcome r = Returned returned →
               told = map OnNext (yields r) ++ [OnComplete]) ∧
  (∀ e, outcome r = Threw e → told = map OnNext (yields r) ++ [OnError e]) ∧
  (outcome r = Running → told = map OnNext (yields r)).
Proof.
  intros r told. subst told. unfold streamToRxjs.
  assert (∀ i n, (map OnNext (yields r) : list (Notification (list ref))) !! i = Some n →
                 ∃ snapshot, n = OnNext snapshot) as Hnext.
  { intros i n Hi. rewrite list_lookup_fmap in Hi.
    destruct (yields r !! i); [|done]. injection Hi as <-. eauto. }
  split; [|split; [|split; [|split; [|split; [|split]]]]].
  - intros i Hi. rewrite lookup_app_l by (by rewrite length_map).
    by rewrite list_lookup_fmap.
  - rewrite length_app, length_map. destruct (outcome r); simpl; lia.
  - intros i Hi.
    destruct (decide (i < length (yields r))%nat) as [Hlt|Hge].
    + rewrite lookup_app_l in Hi by (by rewrite length_map).
      by destruct (Hnext _ _ Hi) as [? ?].
    + rewrite lookup_app_r in Hi by (rewrite length_map; lia).
      rewrite length_map in Hi.
      destruct (outcome r) as [returned|e|]; simpl in Hi;
        destruct (i - length (yields r))%nat as [|k] eqn:Hk; try done.
      split; [lia|eauto].
  - intros i e Hi.
    destruct (decide (i < length (yields r))%nat) as [Hlt|Hge].
    + rewrite lookup_app_l in Hi by (by rewrite length_map).
      by destruct (Hnext _ _ Hi) as [? ?].
    + rewrite lookup_app_r in Hi by (rewrite length_map; lia).
      rewrite length_map in Hi.
      destruct (outcome r) as [returned|e'|] eqn:Hout; simpl in Hi;
        destruct (i - length (yields r))%nat as [|k] eqn:Hk; try done.
      injection Hi as ->. split; [lia|done].
  - by intros returned ->.
  - by intros e ->.
  - intros ->. by rewrite app_nil_r.
Qed.

End Observable.

Lemma runLLM_stores_a_pair_for_each_call_witness :
  let runnable := λ _ : unit, Ok MoreExamples.two_calls in
  runnable tt = Ok MoreExamples.two_calls ∧
  ∃ added,
    RunnableHistory.runLLM [] runnable tt = (Ok MoreExamples.two_calls, added) ∧
    length added = 4%nat.
Proof.
  intros runnable. split; [reflexivity|].
  destruct (runLLM_stores_a_pair_for_each_call [] runnable tt MoreExamples.two_calls eq_refl)
    as (added & Hrun & _ & Hlen & _).
  exists added. split; [exact Hrun|exact Hlen].
Defined.

Lemma runOpenAi_stores_answer_and_functions_witness :
  let runnable := λ _ : unit, Ok MoreExamples.two_calls in
  runnable tt = Ok MoreExamples.two_calls ∧
  ∃ added,
    RunnableHistory.runOpenAi [] runnable tt = (Ok MoreExamples.two_calls, added) ∧
    added !! 0%nat = Some (RunnableHistory.Stored (as_message MoreExamples.two_calls)) ∧
    length added = 3%nat.
Proof.
  intros runnable. split; [reflexivity|].
  destruct (runOpenAi_stores_answer_and_functions [] runnable tt
              MoreExamples.two_calls eq_refl)
    as (added & Hrun & Hlen & Hfirst & _).
  exists added. split; [exact Hrun|]. split; [exact Hfirst|exact Hlen].
Defined.

Lemma prompt_then_model_accumulate_witness :
  let prompt := λ _ : unit, Ok [HumanMessage (ContentString "hi")] in
  let model := λ _ : unit, Ok MoreExamples.two_calls in
  prompt tt = Ok [HumanMessage (ContentString "hi")] ∧
  model tt = Ok MoreExamples.two_calls ∧
  length (snd (RunnableHistory.runLLM
                 (snd (RunnableHistory.runPrompt [] prompt tt)) model tt)) = 5%nat.
Proof.
  intros prompt model. split; [reflexivity|]. split; [reflexivity|].
  rewrite (proj1 (proj2 (proj2 (prompt_then_model_accumulate [] prompt model tt tt
                                  [HumanMessage (ContentString "hi")]
                                  MoreExamples.two_calls eq_refl eq_refl)))).
  reflexivity.
Defined.

(** The stream of the model fails after one fragment: the subscriber is
    told the snapshot of that fragment and then the error. *)
Lemma subscriber_is_told_snapshots_then_the_end_witness :
  let options := FullExamples.breaking in
  let w := Full.new_RunnableAgent options [] None in
  let r := Full.stream (merge := Examples.view_concat) 5 options
             FullExamples.in_call_order (InputString "hi") w in
  outcome r = Threw "socket hang up" ∧
  streamToRxjs (yields r) (outcome r) = [OnNext [2%nat]; OnError "socket hang up"].
Proof.
  intros options w r. split; [reflexivity|].
  exact (proj1 (proj2 (proj2 (proj2 (proj2 (proj2
           (subscriber_is_told_snapshots_then_the_end (merge := Examples.view_concat)
              5 options FullExamples.in_call_order (InputString "hi") w))))))
           "socket hang up" eq_refl).
Defined.

(** * The dispatcher and the loop in full *)

Section FullDispatcher.

Lemma first_rejection_Some {A} (promises : list (Result A)) (order : list nat) e :
  Full.first_rejection order promises = Some e →
  ∃ i, i ∈ order ∧ promises !! i = Some (Throw e).
Proof.
  induction order as [|i order IH]; simpl; [done|].
  destruct (promises !! i) as [[a|e']|] eqn:Hi.
  - intros H. destruct (IH H) as (j & Hj & Hl). exists j. split; [by right|done].
  - intros [= ->]. exists i. split; [by left|done].
  - intros H. destruct (IH H) as (j & Hj & Hl). exists j. split; [by right|done].
Qed.

Lemma first_rejection_None {A} (promises : list (Result A)) (order : list nat) :
  Full.first_rejection order promises = None →
  ∀ i e, i ∈ order → promises !! i ≠ Some (Throw e).
Proof.
  induction order as [|j order IH]; simpl; intros Hnone i e Hin.
  - by apply elem_of_nil in Hin.
  - apply elem_of_cons in Hin as [->|Hin].
    + destruct (promises !! j) as [[a|e']|]; congruence.
    + destruct (promises !! j) as [[a|e']|]; try done; by apply IH.
Qed.

Lemma first_rejection_first {A} (promises : list (Result A)) before i after e :
  (∀ j e', j ∈ before → promises !! j ≠ Some (Throw e')) →
  promises !! i = Some (Throw e) →
  Full.first_rejection (before ++ i :: after) promises = Some e.
Proof.
  induction before as [|j before IH]; simpl; intros Hbefore Hi.
  - by rewrite Hi.
  - destruct (promises !! j) as [[a|e']|] eqn:Hj.
    + apply IH; [|done]. intros k e' Hk. apply Hbefore. by right.
    + by destruct (Hbefore j e' ltac:(by left)).
    + apply IH; [|done]. intros k e' Hk. apply Hbefore. by right.
Qed.

Lemma omap_fulfilled_Ok {A} (values : list A) :
  omap Full.fulfilled (map Ok values) = values.
Proof.
  induction values as [|v values IH]; [done|].
  change (omap Full.fulfilled (map Ok (v :: values)))
    with (v :: omap Full.fulfilled (map Ok values)).
  by rewrite IH.
Qed.

Lemma all_fulfilled {A} (promises : list (Result A)) :
  (∀ i e, promises !! i ≠ Some (Throw e)) →
  promises = map Ok (omap Full.fulfilled promises).
Proof.
  induction promises as [|p promises IH]; intros Hall; [done|].
  destruct p as [a|e].
  - simpl. f_equal. apply IH. intros i e. apply (Hall (S i)).
  - by destruct (Hall 0%nat e).
Qed.

Lemma Promise_all_fulfilled {A} (finish : list nat) (values : list A) :
  Full.Promise_all finish (map Ok values) = Ok values.
Proof.
  unfold Full.Promise_all.
  destruct (Full.first_rejection _ _) as [e|] eqn:Hfirst.
  - apply first_rejection_Some in Hfirst as (i & _ & Hi).
    rewrite list_lookup_fmap in Hi. by destruct (values !! i).
  - by rewrite omap_fulfilled_Ok.
Qed.

Lemma Promise_all_rejected {A} (finish : list nat) (promises : list (Result A)) i e :
  promises !! i = Some (Throw e) →
  ∃ e' j, Full.Promise_all finish promises = Throw e' ∧ promises !! j = Some (Throw e').
Proof.
  intros Hi. unfold Full.Promise_all.
  destruct (Full.first_rejection _ _) as [e'|] eqn:Hfirst.
  - apply first_rejection_Some in Hfirst as (j & _ & Hj). eauto.
  - exfalso. eapply first_rejection_None; [exact Hfirst| |exact Hi].
    unfold Full.settling. apply elem_of_app. right. apply elem_of_seq.
    apply lookup_lt_Some in Hi. lia.
Qed.

Lemma Promise_all_Ok {A} (finish : list nat) (promises : list (Result A)) values :
  Full.Promise_all finish promises = Ok values → promises = map Ok values.
Proof.
  unfold Full.Promise_all.
  destruct (Full.first_rejection _ _) as [e'|] eqn:Hfirst; [done|].
  intros [= <-]. apply all_fulfilled. intros i e Hi.
  eapply first_rejection_None; [exact Hfirst| |exact Hi].
  unfold Full.settling. apply elem_of_app. right. apply elem_of_seq.
  apply lookup_lt_Some in Hi. lia.
Qed.

Lemma Promise_all_first {A} (promises : list (Result A)) before i after e :
  (∀ j e', j ∈ before → promises !! j ≠ Some (Throw e')) →
  promises !! i = Some (Throw e) →
  Full.Promise_all (before ++ i :: after) promises = Throw e.
Proof.
  intros Hbefore Hi. unfold Full.Promise_all, Full.settling.
  rewrite <- app_assoc. simpl.
  by rewrite (first_rejection_first promises before i _ e Hbefore Hi).
Qed.

(** What the promise of a callback settles with. *)
Lemma runToolCall_settles options tool_call :
  fst (Full.runToolCall options tool_call) =
  match Full.find_tool options tool_call with
  | None =>
      Ok (ToolMessage
            (JSON_stringify
               (JObj [("type", JStr "text");
                      ("text", JStr (JSON_stringify
                         (JObj [("success", JBool false);
                                ("error", JStr (not_found_text (tc_name tool_call)))])))]))
            (tc_name tool_call) (default "" (tc_id tool_call)) error)
  | Some findTool =>
      match Full.response_of findTool tool_call with
      | Full.Unserializable type_error => Throw type_error
      | Full.Plain v =>
          Ok (ToolMessage (JSON_stringify v) (tc_name tool_call)
                (default "" (tc_id tool_call))
                (match Full.schema (Full.tool findTool) (tc_args tool_call) with
                 | Full.Raises _ => error
                 | Full.Resolves parsed =>
                     match Full.invoke_runnable (Full.runnable (Full.tool findTool)) parsed with
                     | Full.Raises _ => error
                     | Full.Resolves _ => success
                     end
                 end))
      end
  end.
Proof.
  unfold Full.runToolCall, Full.response_of, Full._createToolResponse.
  destruct (Full.find_tool options tool_call) as [findTool|]; [|done].
  destruct (Full.schema _ _) as [parsed|e]; simpl.
  - destruct (Full.invoke_runnable _ _) as [result|e]; simpl.
    + by destruct result.
    + by destruct (Full.errorResponse e).
  - by destruct (Full.errorResponse e).
Qed.

Lemma runToolCall_message options tool_call message :
  fst (Full.runToolCall options tool_call) = Ok message →
  ∃ content status,
    message = ToolMessage content (tc_name tool_call) (default "" (tc_id tool_call)) status.
Proof.
  rewrite runToolCall_settles.
  destruct (Full.find_tool options tool_call) as [findTool|].
  - destruct (Full.response_of findTool tool_call); [|done]. intros [= <-]. eauto.
  - intros [= <-]. eauto.
Qed.

(** The callback of a call that resolves to no tool is never rejected. *)
Lemma runToolCall_unknown options tool_call :
  Full.find_tool options tool_call = None →
  ∃ content,
    fst (Full.runToolCall options tool_call)
    = Ok (ToolMessage content (tc_name tool_call) (default "" (tc_id tool_call)) error).
Proof. intros Hfind. rewrite runToolCall_settles, Hfind. eauto. Qed.

Lemma runToolCall_rejects options tool_call e :
  fst (Full.runToolCall options tool_call) = Throw e ↔
  ∃ findTool,
    Full.find_tool options tool_call = Some findTool ∧
    Full.response_of findTool tool_call = Full.Unserializable e.
Proof.
  rewrite runToolCall_settles.
  destruct (Full.find_tool options tool_call) as [findTool|].
  - destruct (Full.response_of findTool tool_call) as [v|e'] eqn:Hr.
    + split; [done|]. intros (t & [= <-] & Ht). congruence.
    + split.
      * intros [= ->]. eauto.
      * intros (t & [= <-] & Ht). congruence.
  - split; [done|]. by intros (t & ? & _).
Qed.

(** C4. The claim holds as long as every value a tool of the turn returns
    or raises can be serialised: then the dispatcher hands over one message
    per call, in the order of the calls, whatever the order in which the calls
    finish. It fails otherwise. The callback of a call is rejected exactly
    when the call resolves to a tool and the value the tool returned or
    raised, or the value the validation raised, makes [JSON.stringify] throw:
    the message is built after the [try] and in its [catch]. A rejected
    callback rejects [Promise.all], and the dispatcher hands over no message
    at all, for none of the calls of the turn; the error is that of the
    callback that is rejected first. *)
Theorem unserializable_result_aborts_sibling_calls
  (options : Full.RunnableAgentOptions) (finish : list nat) (tool_calls : list ToolCall) :
  let promises := map (λ tool_call, fst (Full.runToolCall options tool_call)) tool_calls in
  let dispatched := fst (Full.runToolCallMessage options finish tool_calls) in
  (∀ messages,
     promises = map Ok messages →
     dispatched = Ok messages ∧ length messages = length tool_calls ∧
     ∀ i tool_call, tool_calls !! i = Some tool_call →
       ∃ content status,
         messages !! i = Some (ToolMessage content (tc_name tool_call)
                                 (default "" (tc_id tool_call)) status)) ∧
  (∀ messages, dispatched = Ok messages → promises = map Ok messages) ∧
  (∀ i e,
     promises !! i = Some (Throw e) →
     ∃ e' j, dispatched = Throw e' ∧ promises !! j = Some (Throw e')) ∧
  (∀ before i after e,
     finish = before ++ i :: after →
     (∀ j e', j ∈ before → promises !! j ≠ Some (Throw e')) →
     promises !! i = Some (Throw e) →
     dispatched = Throw e) ∧
  (∀ tool_call e,
     fst (Full.runToolCall options tool_call) = Throw e ↔
     ∃ findTool,
       Full.find_tool options tool_call = Some findTool ∧
       Full.response_of findTool tool_call = Full.Unserializable e).
Proof.
  intros promises dispatched.
  assert (dispatched = Full.Promise_all finish promises) as Hd.
  { unfold dispatched, promises, Full.runToolCallMessage. simpl.
    by rewrite map_map. }
  split; [|split; [|split; [|split]]].
  - intros messages Hall. rewrite Hd, Hall. split; [apply Promise_all_fulfilled|].
    assert (length messages = length tool_calls) as Hlen.
    { apply (f_equal length) in Hall. unfold promises in Hall.
      by rewrite !length_map in Hall. }
    split; [done|]. intros i tool_call Hi.
    assert (promises !! i = Some (fst (Full.runToolCall options tool_call))) as Hp
      by (unfold promises; by rewrite list_lookup_fmap, Hi).
    rewrite Hall, list_lookup_fmap in Hp.
    destruct (messages !! i) as [message|] eqn:Hm; [|done].
    injection Hp as Hp. symmetry in Hp.
    destruct (runToolCall_message _ _ _ Hp) as (content & status & ->). eauto.
  - intros messages Hok. rewrite Hd in Hok. by apply Promise_all_Ok in Hok.
  - intros i e Hi. rewrite Hd. by eapply Promise_all_rejected.
  - intros before i after e -> Hbefore Hi. rewrite Hd. by apply Promise_all_first.
  - intros tool_call e. apply runToolCall_rejects.
Qed.

(** C6. For a call that resolves to a tool, what the validation raises and
    what the tool raises are treated alike, and the message is built from the
    raised value alone: status error and as content the serialized
    [{error: message}] for an error object, the serialized raised value
    otherwise. When the raised value cannot be serialised there is no
    message: the callback is rejected with the [TypeError] of
    [JSON.stringify], which is thrown in the [catch]; so it is when the tool
    returns a value that cannot be serialised. On success with a value that
    can, the content is the serialized value with status success. A turn
    whose dispatch is rejected throws that error, and the loop throws it to
    its caller. *)
Theorem unserializable_failure_reaches_the_caller
  {merge : ChunkMerge}
  (options : Full.RunnableAgentOptions) (tool_call : ToolCall)
  (findTool : Full.AgentToolCallOptions) :
  Full.find_tool options tool_call = Some findTool →
  let validated := Full.schema (Full.tool findTool) (tc_args tool_call) in
  let built (e : Full.Raised) : Result BaseMessage :=
    match e with
    | Full.RaisedError message =>
        Ok (ToolMessage (JSON_stringify (JObj [("error", JStr message)]))
              (tc_name tool_call) (default "" (tc_id tool_call)) error)
    | Full.RaisedValue (Full.Plain v) =>
        Ok (ToolMessage (JSON_stringify v)
              (tc_name tool_call) (default "" (tc_id tool_call)) error)
    | Full.RaisedValue (Full.Unserializable type_error) => Throw type_error
    end in
  (∀ e, validated = Full.Raises e →
        fst (Full.runToolCall options tool_call) = built e) ∧
  (∀ parsed e,
     validated = Full.Resolves parsed →
     Full.invoke_runnable (Full.runnable (Full.tool findTool)) parsed = Full.Raises e →
     fst (Full.runToolCall options tool_call) = built e) ∧
  (∀ parsed result,
     validated = Full.Resolves parsed →
     Full.invoke_runnable (Full.runnable (Full.tool findTool)) parsed
     = Full.Resolves (Full.Plain result) →
     fst (Full.runToolCall options tool_call) =
     Ok (ToolMessage (JSON_stringify result) (tc_name tool_call)
           (default "" (tc_id tool_call)) success)) ∧
  (∀ parsed type_error,
     validated = Full.Resolves parsed →
     Full.invoke_runnable (Full.runnable (Full.tool findTool)) parsed
     = Full.Resolves (Full.Unserializable type_error) →
     fst (Full.runToolCall options tool_call) = Throw type_error) ∧
  (∀ settles input initialHistory sessionHistory w inputMessages h0 agentStream w1 e,
     _parseModelInputToBaseMessage input (heap w) = (inputMessages, h0) →
     Full.runToolCallingAgent options (initialHistory ++ inputMessages ++ sessionHistory)
       (set_heap h0 w) = (Ok agentStream, w1) →
     Full.failure agentStream = None →
     detected (Full.fragments agentStream) = true →
     let tool_calls := chunk_tool_calls (completed (Full.fragments agentStream)) in
     fst (Full.runToolCallMessage options (settles tool_calls) tool_calls) = Throw e →
     ∃ yielded sessionHistory1 w2,
       Full.turn options settles input initialHistory sessionHistory w
       = (yielded, Throw e, sessionHistory1, w2)) ∧
  (∀ fuel settles input initialHistory sessionHistory w yielded e sessionHistory1 w1,
     Full.turn options settles input (read initialHistory w) sessionHistory w
     = (yielded, Throw e, sessionHistory1, w1) →
     outcome (Full.while_true (S fuel) options settles input initialHistory sessionHistory w)
     = Threw e).
Proof.
  intros Hfind validated built.
  assert (∀ e, built e =
               Full._createToolResponse tool_call (Full.errorResponse e) error) as Hbuilt.
  { intros [message|[v|type_error]]; done. }
  split; [|split; [|split; [|split; [|split]]]].
  - intros e He. unfold Full.runToolCall. rewrite Hfind. fold validated. rewrite He.
    simpl. by rewrite Hbuilt.
  - intros parsed e Hv He. unfold Full.runToolCall. rewrite Hfind. fold validated.
    rewrite Hv, He. simpl. by rewrite Hbuilt.
  - intros parsed result Hv Hr. unfold Full.runToolCall. rewrite Hfind. fold validated.
    by rewrite Hv, Hr.
  - intros parsed type_error Hv Hr. unfold Full.runToolCall. rewrite Hfind.
    fold validated. by rewrite Hv, Hr.
  - intros settles input ih s w im h0 agentStream w1 e Hparse Hrun Hend Hdet tool_calls
      Hthrow.
    unfold Full.turn. rewrite Hparse, Hrun. unfold alloc.
    destruct (for_await_spec s (Full.fragments agentStream)
                (mkAcc empty_chunk (length (heap w1)) false)
                (heap w1 ++ [as_message empty_chunk])) as [yielded Hys].
    simpl in Hys. rewrite Hys. clear Hys. rewrite Hend. simpl.
    fold (detected (Full.fragments agentStream)).
    fold (completed (Full.fragments agentStream)).
    rewrite Hdet. fold tool_calls.
    unfold Full.runToolCallMessage in Hthrow. simpl in Hthrow. rewrite Hthrow. eauto.
  - intros fuel settles input ih s w yielded e s1 w1 Hturn. simpl. by rewrite Hturn.
Qed.

End FullDispatcher.

(** The steps of a map settle in an order of their own: of two steps that
    raise, the whole is rejected with what the step that settles first raised,
    and the keys of the result are in the order in which the steps resolve. *)
Lemma map_steps_settle_in_their_own_order :
  Full.invoke_runnable FullExamples.both_raise JNull = Full.Raises (Full.RaisedError "B") ∧
  Full.invoke_runnable FullExamples.both_resolve JNull
  = Full.Resolves (Full.Plain (JObj [("b", JNum 2); ("a", JNum 1)])).
Proof. split; reflexivity. Qed.

(** Two calls in one turn: [echo], which returns, and [count], whose result
    is a [BigInt]. Whichever finishes first, the dispatcher hands over nothing,
    not even the message of [echo], and [invoke] throws the [TypeError]. *)
Lemma unserializable_result_aborts_sibling_calls_witness :
  let options := FullExamples.counting in
  let tool_calls := FullExamples.echo_then_count in
  let w := Full.new_RunnableAgent options [] None in
  map (λ tool_call, fst (Full.runToolCall options tool_call)) tool_calls !! 1%nat
  = Some (Throw FullExamples.bigint_error) ∧
  fst (Full.runToolCall options (Examples.call "c1" "echo" Examples.ping))
  = Ok (ToolMessage (JSON_stringify (JObj [("echoed", JStr "ping")])) "echo" "c1" success) ∧
  fst (Full.runToolCallMessage options [0%nat; 1%nat] tool_calls)
  = Throw FullExamples.bigint_error ∧
  fst (Full.runToolCallMessage options [1%nat; 0%nat] tool_calls)
  = Throw FullExamples.bigint_error ∧
  fst (Full.invoke (merge := Examples.view_concat) 5 options FullExamples.in_call_order
         "hi" w)
  = Threw FullExamples.bigint_error ∧
  fst (Full.invoke (merge := Examples.view_concat) 5 options FullExamples.last_call_first
         "hi" w)
  = Threw FullExamples.bigint_error.
Proof.
  intros options tool_calls w.
  assert (map (λ tool_call, fst (Full.runToolCall options tool_call)) tool_calls !! 1%nat
          = Some (Throw FullExamples.bigint_error)) as Hcount by reflexivity.
  split; [exact Hcount|]. split; [reflexivity|].
  split; [|split; [|split; reflexivity]].
  - exact (proj1 (proj2 (proj2 (proj2
             (unserializable_result_aborts_sibling_calls options [0%nat; 1%nat] tool_calls))))
             [0%nat] 1%nat [] FullExamples.bigint_error eq_refl
             ltac:(intros j e' Hj%list_elem_of_singleton; subst j; discriminate)
             Hcount).
  - exact (proj1 (proj2 (proj2 (proj2
             (unserializable_result_aborts_sibling_calls options [1%nat; 0%nat] tool_calls))))
             [] 1%nat [0%nat] FullExamples.bigint_error eq_refl
             ltac:(intros j e' Hj; by apply elem_of_nil in Hj)
             Hcount).
Defined.

(** The tool [raise] raises a [BigInt], the schema of the tool [refuse]
    raises one: either way the callback is rejected in its [catch]; and
    [invoke] throws the [TypeError] to its caller. *)
Lemma unserializable_failure_reaches_the_caller_witness :
  let options := FullExamples.raising in
  let tool_call := Examples.call "c1" "raise" (JObj []) in
  Full.find_tool options tool_call = Some FullExamples.raise ∧
  fst (Full.runToolCall options tool_call) = Throw FullExamples.bigint_error ∧
  fst (Full.runToolCall options (Examples.call "c2" "refuse" (JObj [])))
  = Throw FullExamples.bigint_error ∧
  fst (Full.invoke (merge := Examples.view_concat) 5 options FullExamples.in_call_order
         "hi" (Full.new_RunnableAgent options [] None))
  = Threw FullExamples.bigint_error.
Proof.
  intros options tool_call. split; [reflexivity|].
  split; [|split; [reflexivity|reflexivity]].
  exact (proj1 (proj2 (unserializable_failure_reaches_the_caller
                         (merge := Examples.view_concat)
                         options tool_call FullExamples.raise eq_refl))
           (JObj []) (Full.RaisedValue (Full.Unserializable FullExamples.bigint_error))
           eq_refl eq_refl).
Defined.

(** ** The dispatcher and the loop above are the full ones on tools whose
    values are JSON *)

Section Lift.
Context {merge : ChunkMerge}.

Lemma find_map {A B} (f : B → bool) (g : A → B) (l : list A) :
  List.find f (map g l) = g <$> List.find (λ x, f (g x)) l.
Proof.
  induction l as [|x l IH]; simpl; [done|]. by destruct (f (g x)).
Qed.

Lemma find_tool_lift options tool_call :
  Full.find_tool (lift options) tool_call = lift_tool <$> find_tool options tool_call.
Proof.
  unfold Full.find_tool, find_tool. simpl.
  replace (map lift_tool (tools options)
           ++ match lift_tool <$> tool_response options with
              | Some toolResponse => [toolResponse]
              | None => []
              end)
    with (map lift_tool (tools options
                         ++ match tool_response options with
                            | Some toolResponse => [toolResponse]
                            | None => []
                            end))
    by (rewrite map_app; by destruct (tool_response options)).
  by rewrite find_map.
Qed.

Lemma set_key_new {V} (key : string) (value : V) (output : list (string * V)) :
  key ∉ map fst output → Full.set_key key value output = output ++ [(key, value)].
Proof.
  induction output as [|[k v] output IH]; simpl; intros Hnew; [done|].
  rewrite decide_False by (intros ->; apply Hnew; by left).
  rewrite IH; [done|]. intros Hin. apply Hnew. by right.
Qed.

Lemma fields_of_plain (results : list (string * JSON)) :
  Full.fields_of (map plain results) = Ok results.
Proof.
  induction results as [|[k v] results IH]; simpl; [done|]. by rewrite IH.
Qed.

Lemma RunnableMap_settle_lift input (rest : list (string * (JSON → Settled))) :
  ∀ (settled : list (string * (JSON → Settled))) (results : list (string * JSON)),
    NoDup (map fst (settled ++ rest)) →
    map fst results = map fst settled →
    Full.RunnableMap_settle (map lift_step (settled ++ rest)) input
      (seq (length settled) (length rest)) (map plain results)
    = match RunnableMap_invoke rest input with
      | inl e => Full.Raises (lift_thrown e)
      | inr more => Full.Resolves (map plain (results ++ more))
      end.
Proof.
  induction rest as [|[k f] rest IH]; intros settled results Hdistinct Hkeys; simpl.
  - by rewrite app_nil_r.
  - rewrite list_lookup_fmap, list_lookup_middle by done. simpl.
    destruct (f input) as [v|e]; simpl; [|done].
    rewrite set_key_new.
    + specialize (IH (settled ++ [(k, f)]) (results ++ [(k, v)])).
      rewrite <- !app_assoc, length_app, Nat.add_1_r in IH. simpl in IH.
      replace (map plain results ++ [(k, Full.Plain v)])
        with (map plain (results ++ [(k, v)])) by (by rewrite map_app).
      rewrite IH.
      * destruct (RunnableMap_invoke rest input) as [e|more]; [done|].
        by rewrite <- app_assoc.
      * done.
      * rewrite !map_app. simpl. by rewrite Hkeys.
    + rewrite map_map. simpl.
      change (map (λ x : string * JSON, x.1) results) with (map fst results).
      rewrite Hkeys. rewrite map_app in Hdistinct.
      apply NoDup_app in Hdistinct as (_ & Hsep & _).
      intros Hin. apply (Hsep k Hin). by left.
Qed.

Lemma invoke_runnable_lift toolRunnable parsed :
  match toolRunnable with IsMap steps => NoDup (map fst steps) | _ => True end →
  Full.invoke_runnable (lift_runnable toolRunnable) parsed
  = lift_settled (invoke_runnable toolRunnable parsed).
Proof.
  destruct toolRunnable as [f|f|steps]; simpl; [done|done|]. intros Hdistinct.
  unfold Full.RunnableMap_invoke, Full.settling. simpl. rewrite length_map.
  pose proof (RunnableMap_settle_lift parsed steps [] [] Hdistinct eq_refl) as Hsettle.
  simpl in Hsettle. rewrite Hsettle.
  destruct (RunnableMap_invoke steps parsed) as [e|results]; simpl; [done|].
  unfold Full.object. by rewrite fields_of_plain.
Qed.

(** On such tools no callback is rejected. *)
Lemma runToolCall_lift options tool_call :
  distinct_steps_in options →
  Full.runToolCall (lift options) tool_call
  = (Ok (fst (runToolCall options tool_call)), snd (runToolCall options tool_call)).
Proof.
  intros [Htools Hstop].
  unfold Full.runToolCall, runToolCall. rewrite find_tool_lift.
  destruct (find_tool options tool_call) as [findTool|] eqn:Hfind; simpl; [|done].
  assert (distinct_steps findTool) as Hdistinct.
  { apply find_tool_Some in Hfind as [_ [Hin|Hin]]; [by apply Htools|by apply Hstop]. }
  destruct (schema (tool findTool) (tc_args tool_call)) as [parsed|e]; simpl.
  - rewrite invoke_runnable_lift by exact Hdistinct.
    destruct (invoke_runnable (runnable (tool findTool)) parsed) as [result|e]; simpl;
      [done|].
    by destruct e.
  - by destruct e.
Qed.

Lemma runToolCallMessage_lift options finish tool_calls :
  distinct_steps_in options →
  Full.runToolCallMessage (lift options) finish tool_calls
  = (Ok (fst (runToolCallMessage options tool_calls)),
     snd (runToolCallMessage options tool_calls)).
Proof.
  intros Hdistinct. unfold Full.runToolCallMessage, runToolCallMessage. simpl.
  assert (map (Full.runToolCall (lift options)) tool_calls
          = map (λ tool_call, (Ok (fst (runToolCall options tool_call)),
                               snd (runToolCall options tool_call))) tool_calls) as ->.
  { apply map_ext. intros tool_call. by apply runToolCall_lift. }
  rewrite !map_map. simpl. f_equal.
  rewrite <- (map_map (λ tool_call, fst (runToolCall options tool_call)) Ok).
  apply Promise_all_fulfilled.
Qed.

Lemma runToolCallingAgent_lift options messages w :
  Full.runToolCallingAgent (lift options) messages w
  = match runToolCallingAgent options messages w with
    | (Ok chunks, w1) => (Ok (Full.mkStream chunks None), w1)
    | (Throw e, w1) => (Throw e, w1)
    end.
Proof.
  unfold Full.runToolCallingAgent, runToolCallingAgent. case_decide; [done|]. simpl.
  destruct (bindTools (llm options)) as [bind|]; simpl; [|done].
  destruct (_cleanHistory messages (heap w)) as [cleaned h].
  by destruct (tool_response options).
Qed.

Lemma turn_lift options settles input initialHistory sessionHistory w :
  distinct_steps_in options →
  Full.turn (lift options) settles input initialHistory sessionHistory w
  = match turn options input initialHistory sessionHistory w with
    | (yielded, Ok (next, sessionHistory1), w1) => (yielded, Ok next, sessionHistory1, w1)
    | (yielded, Throw e, w1) => (yielded, Throw e, sessionHistory, w1)
    end.
Proof.
  intros Hdistinct. unfold Full.turn, turn.
  destruct (_parseModelInputToBaseMessage input (heap w)) as [inputMessages h0].
  rewrite runToolCallingAgent_lift.
  destruct (runToolCallingAgent options _ _) as [[chunks|e] w1]; [|done].
  cbn [Full.fragments Full.failure].
  destruct (alloc (as_message empty_chunk) (heap w1)) as [r0 h1].
  destruct (for_await chunks sessionHistory _ h1) as [[acc yielded] h2].
  destruct (isToolCall acc); [|done].
  rewrite runToolCallMessage_lift by exact Hdistinct.
  destruct (runToolCallMessage options (chunk_tool_calls (agentResponse acc)))
    as [toolResponse effects]. cbn [fst snd].
  destruct (alloc_all toolResponse _) as [rs h3].
  cbn [Full.tool_response lift].
  destruct (tool_response options) as [stop|]; [|done]. cbn [fmap option_fmap option_map].
  cbn [Full.name lift_tool].
  by destruct (existsb _ _).
Qed.

Lemma while_true_lift options settles input initialHistory fuel :
  distinct_steps_in options →
  ∀ sessionHistory w,
    Full.while_true fuel (lift options) settles input initialHistory sessionHistory w
    = while_true fuel options input initialHistory sessionHistory w.
Proof.
  intros Hdistinct. induction fuel as [|fuel IH]; intros s w; simpl; [done|].
  rewrite turn_lift by exact Hdistinct.
  destruct (turn options input (read initialHistory w) s w) as [[ys [[next s1]|e]] w1];
    [|done].
  destruct next; [|done]. by rewrite IH.
Qed.

(** For tools whose values are JSON and a model whose streams end, the full
    loop is the loop above, whatever the order in which the callbacks
    settle. *)
Lemma stream_lift fuel options settles input w :
  distinct_steps_in options →
  Full.stream fuel (lift options) settles input w = stream fuel options input w.
Proof.
  intros Hdistinct. unfold Full.stream, stream. by apply while_true_lift.
Qed.

Lemma invoke_lift fuel options settles input w :
  distinct_steps_in options →
  Full.invoke fuel (lift options) settles input w = invoke fuel options input w.
Proof.
  intros Hdistinct. unfold Full.invoke, invoke. by rewrite stream_lift.
Qed.

End Lift.
